(** * dpegg: egg-drop dynamic programming (src/dpegg.cpp)

    A shallow embedding of the value/action table builder, the policy
    runner and verifier and the classical reachability recurrence of
    [dpegg.cpp], followed by the theorems about them.

    Conventions of the embedding.
    - A C++ [int] is a [Z]; every arithmetic result is passed through
      [wrap], the two's complement reduction to 32 bits.
    - [std::unordered_map<tState,int>] is a [gmap tState Z]; the tables are
      only searched, inserted into and updated in place, never iterated.
    - Dereferencing the end iterator after a failed [find] and indexing a
      vector out of range have no defined behaviour in the source; they are
      the outcome [Undefined].  [Fatal] stands for a run that is aborted
      with an error (an exception, [std::abort], [exit]); the source has
      no such path, so no function below returns it.
    - The [while] loops and the open-ended scan loop of [main] take a fuel
      argument; running out of it is the outcome [OutOfFuel].
    - A counted loop [for (int i = a; i <= b; i++)] runs over the list
      [seqZ a (b - a + 1)]; its counter stays within [a .. b + 1], which
      is in the range of [int] for the instances of [valid_instance].
    - Output to [std::cout] is not modelled. *)

From Stdlib Require Import Sorted.
From stdpp Require Import numbers list gmap pretty.

Local Open Scope Z_scope.

(** ** Machine integers *)

Definition int_min : Z := -2147483648.
Definition int_max : Z := 2147483647.

Definition wrap (x : Z) : Z := (x + 2147483648) mod 4294967296 - 2147483648.

Definition in_int (x : Z) : Prop := int_min <= x <= int_max.

(** The instances that [main] accepts ([F, E >= 1]), within the range of
    [int] in which no loop counter overflows: the counter [u] of
    [single_scan] ends at [F + 2] and the counter [e] of [main] at
    [E + 1]. *)
Definition valid_instance (F E : Z) : Prop :=
  1 <= F <= int_max - 2 /\ 1 <= E <= int_max - 1.

(** ** Outcomes of a run *)

Inductive result (T : Type) : Type :=
| Ok (x : T)
| Fatal
| Undefined
| OutOfFuel.
Arguments Ok {T} x.
Arguments Fatal {T}.
Arguments Undefined {T}.
Arguments OutOfFuel {T}.

Definition bind {T U : Type} (m : result T) (k : T -> result U) : result U :=
  match m with
  | Ok x => k x
  | Fatal => Fatal
  | Undefined => Undefined
  | OutOfFuel => OutOfFuel
  end.

Notation "'do' x <- m ; k" := (bind m (fun x => k))
  (at level 10, x pattern, m at level 100, k at level 200).

(** [v[i]] on a [std::vector]. *)
Definition vec_at {T : Type} (v : list T) (i : nat) : result T :=
  match v !! i with
  | Some x => Ok x
  | None => Undefined
  end.

(** [it->second] after [it = m.find(k)]. *)
Definition deref {K : Type} `{Countable K} (m : gmap K Z) (k : K) : result Z :=
  match m !! k with
  | Some x => Ok x
  | None => Undefined
  end.

(** [m.insert({k, v})]: an existing entry is kept. *)
Definition umap_insert {K : Type} `{Countable K} (k : K) (v : Z) (m : gmap K Z) : gmap K Z :=
  match m !! k with
  | Some _ => m
  | None => <[k := v]> m
  end.

(** ** classic_dpegg_limit *)

Module Classic.

(** [reach[{d, e}]] as an rvalue.  The keys are the two-element vectors
    [{d, e}], here pairs.  A missing key reads as 0 (and the entry that
    [operator[]] then creates also reads as 0). *)
Definition reach_at (reach : gmap (Z * Z) Z) (d e : Z) : Z :=
  default 0 (reach !! (d, e)).

(** The loop over [e] for one [d]; [inl d] is [return d]. *)
Fixpoint inner (F d : Z) (es : list Z) (reach : gmap (Z * Z) Z) : Z + gmap (Z * Z) Z :=
  match es with
  | [] => inr reach
  | e :: es' =>
      let N := wrap (wrap (1 + reach_at reach (wrap (d - 1)) (wrap (e - 1)))
                     + reach_at reach (wrap (d - 1)) e) in
      if F <=? N then inl d
      else inner F d es' (<[(d, e) := N]> reach)
  end.

Fixpoint outer (F E : Z) (ds : list Z) (reach : gmap (Z * Z) Z) : Z :=
  match ds with
  | [] => -1
  | d :: ds' =>
      match inner F d (seqZ 1 E) reach with
      | inl r => r
      | inr reach' => outer F E ds' reach'
      end
  end.

Definition classic_dpegg_limit (F E : Z) : Z :=
  let reach := foldl (fun r e => <[(0, e) := 0]> r) ∅ (seqZ 0 (E + 1)) in
  let reach := foldl (fun r d => <[(d, 0) := 0]> r) reach (seqZ 1 F) in
  outer F E (seqZ 1 F) reach.

End Classic.

(** ** tState *)

Record tState : Type := mkState { eggs : Z; lb : Z; ub : Z }.

Global Instance tState_eq_dec : EqDecision tState.
Proof. solve_decision. Defined.

Global Instance tState_countable : Countable tState.
Proof.
  refine (inj_countable' (fun s => (eggs s, lb s, ub s))
                         (fun t => mkState t.1.1 t.1.2 t.2) _).
  by intros [].
Defined.

Definition isterminal (s : tState) : bool :=
  (ub s =? wrap (lb s + 1)) && (0 <=? lb s) && (0 <=? eggs s).

Definition isfailed (s : tState) : bool :=
  (eggs s <? 0) || ((eggs s =? 0) && (wrap (lb s + 1) <? ub s)).

(** [eggdrop] updates the state in place and returns [breaks]: the
    result is the state after the call together with [breaks]. *)
Definition eggdrop (s : tState) (floor limit : Z) : tState * bool :=
  let breaks := limit <? floor in
  if breaks then
    (mkState (wrap (eggs s - 1)) (lb s) (if floor <? ub s then floor else ub s), breaks)
  else
    (mkState (eggs s) (if lb s <? floor then floor else lb s) (ub s), breaks).

(** [next] is [const]: it works on a copy of the state. *)
Definition next (s : tState) (floor limit : Z) : tState :=
  let state := mkState (eggs s) (lb s) (ub s) in
  fst (eggdrop state floor limit).

Definition cost (s : tState) (floor limit : Z) : Z := 1.

(** ** Policy runner and verifier *)

(** The [while (!s.isterminal())] loop shared by [run_policy_once] and
    [total_policy_at].  [aseq] is [None] for a null pointer; otherwise it
    holds the vector pointed to, and every action is pushed onto it. *)
Fixpoint policy_loop (fuel : nat) (L : Z) (A : gmap tState Z)
    (s : tState) (steps : Z) (aseq : option (list Z)) : result (Z * option (list Z)) :=
  match fuel with
  | O => OutOfFuel
  | S fuel' =>
      if isterminal s then Ok (steps, aseq)
      else
        do a <- deref A s;
        let s' := fst (eggdrop s a L) in
        policy_loop fuel' L A s' (wrap (steps + 1)) ((fun l => l ++ [a]) <$> aseq)
  end.

Definition run_policy_once (fuel : nat) (F E L : Z) (A : gmap tState Z)
    (aseq : option (list Z)) : result (Z * option (list Z)) :=
  let aseq := (fun _ => []) <$> aseq in
  let s := mkState E 0 (wrap (F + 1)) in
  policy_loop fuel L A s 0 aseq.

(** The increment of [D] at [action], for every action of the trace. *)
Fixpoint bump_all (D : list Z) (aseq : list Z) : result (list Z) :=
  match aseq with
  | [] => Ok D
  | action :: rest =>
      if action <? 0 then Undefined
      else
        do c <- vec_at D (Z.to_nat action);
        bump_all (<[Z.to_nat action := wrap (c + 1)]> D) rest
  end.

(** The variables that the loop of [check_policy] updates. *)
Record check_acc : Type := mkAcc {
  max_steps : Z;
  sum_steps : Z;
  acc_D : option (list Z);
  acc_H : option (gmap Z Z)
}.

(** The loop of [check_policy] over the limit floors.  Its vector [aseq]
    is cleared by every call of [run_policy_once], so each call is given
    an empty one. *)
Fixpoint check_loop (fuel : nat) (F E : Z) (A : gmap tState Z)
    (ls : list Z) (acc : check_acc) : result check_acc :=
  match ls with
  | [] => Ok acc
  | l :: ls' =>
      do (actual, aseq) <- run_policy_once fuel F E l A (Some []);
      let H := (fun h => <[actual := wrap (default 0 (h !! actual) + 1)]> h) <$> acc_H acc in
      let sum := wrap (sum_steps acc + actual) in
      let mx := if max_steps acc <? actual then actual else max_steps acc in
      do D <- match acc_D acc with
              | None => Ok None
              | Some d => do d' <- bump_all d (default [] aseq); Ok (Some d')
              end;
      check_loop fuel F E A ls' (mkAcc mx sum D H)
  end.

(** The outputs of [check_policy]; [mean_drops] is the quotient
    [mean_num / mean_den] taken in floating point by the source. *)
Record check_out : Type := mkOut {
  looks_ok : bool;
  max_drops : Z;
  mean_num : Z;
  mean_den : Z;
  out_D : option (list Z);
  out_H : option (gmap Z Z)
}.

Definition check_policy (fuel : nat) (F E : Z) (V A : gmap tState Z)
    (D : option (list Z)) (H : option (gmap Z Z)) : result check_out :=
  let D := (fun _ => (fun _ => 0) <$> seqZ 0 (F + 1)) <$> D in
  let H := (fun _ => ∅) <$> H in
  let s := mkState E 0 (wrap (F + 1)) in
  do nominal_value <- deref V s;
  do acc <- check_loop fuel F E A (seqZ 0 (F + 1)) (mkAcc 0 0 D H);
  Ok (mkOut (max_steps acc =? nominal_value) (max_steps acc)
            (sum_steps acc) (wrap (F + 1)) (acc_D acc) (acc_H acc)).

Fixpoint total_loop (fuel : nat) (snaught : tState) (action : Z)
    (A : gmap tState Z) (ls : list Z) (total_steps : Z) : result Z :=
  match ls with
  | [] => Ok total_steps
  | l :: ls' =>
      let s := next snaught action l in
      do (steps, _) <- policy_loop fuel l A s 1 None;
      total_loop fuel snaught action A ls' (wrap (total_steps + steps))
  end.

Definition total_policy_at (fuel : nat) (snaught : tState) (action : Z)
    (A : gmap tState Z) : result Z :=
  total_loop fuel snaught action A (seqZ (lb snaught) (ub snaught - lb snaught)) 0.

(** ** Admissible actions *)

(** [std::min_element] returns the first smallest element. *)
Fixpoint argmin_from (v : list Z) (i best_i : nat) (best : Z) : nat :=
  match v with
  | [] => best_i
  | x :: v' =>
      if x <? best then argmin_from v' (S i) i x
      else argmin_from v' (S i) best_i best
  end.

Definition argmin (v : list Z) : nat :=
  match v with
  | [] => 0%nat
  | x :: v' => argmin_from v' 1 0 x
  end.

(** The loop of [calc_maximum_value]: [all_ok] is true on entry of every
    iteration, so it becomes [this_ok], and the loop is left when it is
    false. *)
Fixpoint calc_loop (s : tState) (action : Z) (V : gmap tState Z)
    (fs : list Z) (max_along_f : Z) : Z * bool :=
  match fs with
  | [] => (max_along_f, true)
  | f :: fs' =>
      let nextState := next s action f in
      match V !! nextState with
      | None => (max_along_f, false)
      | Some v =>
          let this_value := wrap (cost s action f + v) in
          calc_loop s action V fs'
            (if max_along_f <? this_value then this_value else max_along_f)
      end
  end.

(** Returns [(max, all_ok)]. *)
Definition calc_maximum_value (s : tState) (action : Z) (V : gmap tState Z) : Z * bool :=
  calc_loop s action V (seqZ (lb s) (ub s - lb s)) (-1).

(** [values[values.size() - k]]; both vectors grow together and every
    caller passes them empty, so the index is in range when
    [actions.size() >= 2]. *)
Definition from_end (v : list Z) (k : nat) : Z :=
  default 0 (v !! (length v - k)%nat).

Fixpoint find_loop (s : tState) (V : gmap tState Z) (break_on_increase : bool)
    (cands : list Z) (actions values : list Z) : list Z * list Z :=
  match cands with
  | [] => (actions, values)
  | a :: cands' =>
      let '(themax, ok) := calc_maximum_value s a V in
      if negb ok || (themax =? -1) then
        find_loop s V break_on_increase cands' actions values
      else
        let actions := actions ++ [a] in
        let values := values ++ [themax] in
        if break_on_increase && (2 <=? length actions)%nat
           && (from_end values 2 <? from_end values 1)
        then (actions, values)
        else find_loop s V break_on_increase cands' actions values
  end.

Definition find_admissible_actions (s : tState) (V : gmap tState Z)
    (actions values : list Z) (break_on_increase : bool) : list Z * list Z :=
  find_loop s V break_on_increase
    (seqZ (wrap (lb s + 1)) (ub s - wrap (lb s + 1))) actions values.

(** ** Table builder *)

Definition initialize_terminal_entries (F E : Z) (V : gmap tState Z) : gmap tState Z :=
  foldl (fun V e =>
           foldl (fun V f => umap_insert (mkState e f (wrap (f + 1))) 0 V)
                 V (seqZ 0 (F + 1)))
        V (seqZ 0 (E + 1)).

(** What [single_scan] receives by reference and updates. *)
Record scan_st : Type := mkScan {
  tab_V : gmap tState Z;
  tab_A : gmap tState Z;
  inserts : Z;
  modifies : Z
}.

(** The loops of [single_scan] that collect the actions tied at [value],
    with their totals when [use_tiebreak] is set. *)
Fixpoint collect_ties (fuel : nat) (use_tiebreak : bool) (thisState : tState)
    (A : gmap tState Z) (local_arg local_val : list Z) (value : Z)
    (idx : list nat) (ties ties_totals : list Z) : result (list Z * list Z) :=
  match idx with
  | [] => Ok (ties, ties_totals)
  | i :: idx' =>
      do vi <- vec_at local_val i;
      if vi =? value then
        do ai <- vec_at local_arg i;
        if use_tiebreak then
          do tot <- total_policy_at fuel thisState ai A;
          collect_ties fuel use_tiebreak thisState A local_arg local_val value idx'
                       (ties ++ [ai]) (ties_totals ++ [tot])
        else
          collect_ties fuel use_tiebreak thisState A local_arg local_val value idx'
                       (ties ++ [ai]) ties_totals
      else
        collect_ties fuel use_tiebreak thisState A local_arg local_val value idx'
                     ties ties_totals
  end.

(** The choice made for one state: [None] when there is no admissible
    action, otherwise the value and the action after the tie rule. *)
Definition scan_choice (fuel : nat) (use_tiebreak : bool) (thisState : tState)
    (V A : gmap tState Z) : result (option (Z * Z)) :=
  let break_early := true in
  let '(local_arg, local_val) := find_admissible_actions thisState V [] [] break_early in
  if (length local_val =? 0)%nat then Ok None
  else
    let action_index := argmin local_val in
    do action0 <- vec_at local_arg action_index;
    do value <- vec_at local_val action_index;
    do (ties, ties_totals) <-
       collect_ties fuel use_tiebreak thisState A local_arg local_val value
                    (seq 0 (length local_val)) [] [];
    do action <- (if use_tiebreak then vec_at ties (argmin ties_totals)
                  else vec_at ties (Nat.shiftr (length ties) 1));
    Ok (Some (value, action)).

(** The body of the innermost loop of [single_scan]. *)
Definition scan_body (fuel : nat) (use_tiebreak : bool) (e l u : Z)
    (st : scan_st) : result scan_st :=
  let V := tab_V st in
  let A := tab_A st in
  let thisState := mkState e l u in
  let this_search := V !! thisState in
  let thisExists := bool_decide (is_Some this_search) in
  if thisExists && isterminal thisState then Ok st
  else
    do choice <- scan_choice fuel use_tiebreak thisState V A;
    match choice with
    | None => Ok st
    | Some (value, action) =>
        let modified :=
          mkScan (<[thisState := value]> V) (<[thisState := action]> A)
                 (inserts st) (wrap (modifies st + 1)) in
        match this_search with
        | Some old =>
            if value <? old then
              do _ <- deref A thisState; Ok modified
            else if old =? value then
              do old_a <- deref A thisState;
              if negb (old_a =? action) then Ok modified else Ok st
            else Ok st
        | None =>
            Ok (mkScan (umap_insert thisState value V) (umap_insert thisState action A)
                       (wrap (inserts st + 1)) (modifies st))
        end
    end.

Fixpoint scan_u (fuel : nat) (use_tiebreak : bool) (e l : Z) (us : list Z)
    (st : scan_st) : result scan_st :=
  match us with
  | [] => Ok st
  | u :: us' =>
      do st' <- scan_body fuel use_tiebreak e l u st;
      scan_u fuel use_tiebreak e l us' st'
  end.

Fixpoint scan_l (fuel : nat) (use_tiebreak : bool) (F e : Z) (ls : list Z)
    (st : scan_st) : result scan_st :=
  match ls with
  | [] => Ok st
  | l :: ls' =>
      do st' <- scan_u fuel use_tiebreak e l
                  (seqZ (wrap (l + 1)) (wrap (F + 1) - wrap (l + 1) + 1)) st;
      scan_l fuel use_tiebreak F e ls' st'
  end.

Fixpoint scan_e (fuel : nat) (use_tiebreak : bool) (F : Z) (es : list Z)
    (st : scan_st) : result scan_st :=
  match es with
  | [] => Ok st
  | e :: es' =>
      do st' <- scan_l fuel use_tiebreak F e (reverse (seqZ 0 (F + 1))) st;
      scan_e fuel use_tiebreak F es' st'
  end.

Definition single_scan (fuel : nat) (F Emin Emax : Z) (st : scan_st)
    (use_tiebreak : bool) : result scan_st :=
  scan_e fuel use_tiebreak F (seqZ Emin (Emax - Emin + 1)) st.

(** The loop [for (int s = 0; ; s++)] of [main] for one egg level; it
    returns the tables and the number of scans printed. *)
Fixpoint level_loop (fuel scans : nat) (F e : Z) (use_tiebreak : bool)
    (V A : gmap tState Z) (s : Z) : result (gmap tState Z * gmap tState Z * Z) :=
  match scans with
  | O => OutOfFuel
  | S scans' =>
      do st <- single_scan fuel F e e (mkScan V A 0 0) use_tiebreak;
      if (inserts st =? 0) && (modifies st =? 0) then
        Ok (tab_V st, tab_A st, wrap (s + 1))
      else level_loop fuel scans' F e use_tiebreak (tab_V st) (tab_A st) (wrap (s + 1))
  end.

(** The loop of [main] over the egg levels. *)
Fixpoint levels (fuel : nat) (F : Z) (use_tiebreak : bool) (es : list Z)
    (V A : gmap tState Z) : result (gmap tState Z * gmap tState Z) :=
  match es with
  | [] => Ok (V, A)
  | e :: es' =>
      do (V', A', _) <- level_loop fuel fuel F e use_tiebreak V A 0;
      levels fuel F use_tiebreak es' V' A'
  end.

(** [main] from the creation of the tables to the end of the scans. *)
Definition build_tables (fuel : nat) (F E : Z) (use_tiebreak : bool)
    : result (gmap tState Z * gmap tState Z) :=
  let V := initialize_terminal_entries F E ∅ in
  levels fuel F use_tiebreak (seqZ 1 E) V ∅.

(** ** The reachability recurrence and the least number of drops *)

(** [reach d e]: the number of floors that [d] drops and [e] eggs decide,
    by the recurrence that [classic_dpegg_limit] tabulates. *)
Fixpoint reach (d e : nat) : Z :=
  match d with
  | O => 0
  | S d' =>
      match e with
      | O => 0
      | S e' => 1 + reach d' e' + reach d' e
      end
  end.

(** The first [d] in [start .. start + k - 1] with [P d], else [start + k]. *)
Fixpoint least (P : nat -> bool) (start k : nat) : nat :=
  match k with
  | O => start
  | S k' => if P start then start else least P (S start) k'
  end.

(** The least [d] with [m <= reach d e], for [m] floors and [e] eggs. *)
Definition optn (e : nat) (m : Z) : nat :=
  least (fun d => m <=? reach d e) 0 (Z.to_nat m).

Definition opt (e m : Z) : Z := Z.of_nat (optn (Z.to_nat e) m).

(** ** Lists of admissible actions *)

(** An admissible action of [find_admissible_actions] with its worst-case
    value, or nothing when the action is skipped. *)
Definition admissible_at (s : tState) (V : gmap tState Z) (a : Z) : option (Z * Z) :=
  let '(themax, ok) := calc_maximum_value s a V in
  if negb ok || (themax =? -1) then None else Some (a, themax).

(** All admissible actions among the candidates, in order. *)
Definition admissible_list (s : tState) (V : gmap tState Z) (cands : list Z) : list (Z * Z) :=
  omap (admissible_at s V) cands.

(** The list kept by the early exit: it ends with the first entry whose
    value exceeds the value before it ([prev] is the last value seen). *)
Fixpoint cut (prev : option Z) (l : list (Z * Z)) : list (Z * Z) :=
  match l with
  | [] => []
  | (a, v) :: l' =>
      (a, v) :: (if match prev with Some p => p <? v | None => false end
                 then [] else cut (Some v) l')
  end.

(** The minimum of [x :: l]. *)
Definition lmin (x : Z) (l : list Z) : Z := foldl Z.min x l.

Definition min_of (l : list Z) : option Z :=
  match l with
  | [] => None
  | x :: l' => Some (lmin x l')
  end.

(** After a strict increase between neighbours no later value is below
    the value before the increase. *)
Fixpoint valley (l : list Z) : Prop :=
  match l with
  | [] => True
  | x :: t =>
      match t with
      | [] => True
      | y :: l2 => (x < y -> Forall (fun z => x <= z) l2) /\ valley t
      end
  end.

(** ** Runs of a policy *)

(** [runs A L s k tr]: following the action table [A] from [s] with the
    threshold [L] reaches a terminal state after [k] drops, made at the
    floors [tr]. *)
Inductive runs (A : gmap tState Z) (L : Z) : tState -> Z -> list Z -> Prop :=
| runs_terminal s :
    isterminal s = true -> runs A L s 0 []
| runs_drop s a k tr :
    isterminal s = false -> A !! s = Some a ->
    runs A L (next s a L) k tr ->
    runs A L s (k + 1) (a :: tr).

(** The entries of the kept list whose value is [value]. *)
Definition tied (value : Z) (X : list (Z * Z)) : list (Z * Z) :=
  filter (fun p => p.2 = value) X.

(** The list kept for a state by the scan. *)
Definition kept (s : tState) (V : gmap tState Z) : list (Z * Z) :=
  cut None (admissible_list s V (seqZ (lb s + 1) (ub s - lb s - 1))).

(** ** The tables during the scans *)

(** The states of the instance: the keys the tables may hold. *)
Definition in_table (F E : Z) (s : tState) : Prop :=
  0 <= lb s /\ lb s < ub s /\ ub s <= F + 1 /\ 0 <= eggs s <= E.

(** The keys of [V] when the scan of egg level [ec] is about to visit
    [(ec, l0, u0)]: the terminal states, the lower levels, and the part of
    level [ec] already visited (rows above [l0], row [l0] below [u0]). *)
Definition stored (F E ec l0 u0 : Z) (s : tState) : Prop :=
  in_table F E s /\
  (ub s = lb s + 1 \/
   (1 <= eggs s /\
    (eggs s < ec \/ (eggs s = ec /\ (l0 < lb s \/ (lb s = l0 /\ ub s < u0)))))).

Global Instance stored_dec F E ec l0 u0 s : Decision (stored F E ec l0 u0 s).
Proof. unfold stored, in_table. apply _. Defined.

(** An action that achieves the least number of drops of its state. *)
Definition good_action (s : tState) (a : Z) : Prop :=
  lb s < a < ub s /\ (2 <= eggs s \/ a = lb s + 1) /\
  opt (eggs s) (ub s - lb s - 1)
  = 1 + Z.max (opt (eggs s - 1) (a - lb s - 1)) (opt (eggs s) (ub s - a - 1)).

(** The tables when the scan of level [ec] is about to visit
    [(ec, l0, u0)]: [V] holds exactly the stored states, each with its
    least number of drops; [A] holds exactly the stored states that are
    not terminal, each with an action that achieves this number and that
    the scan would choose again from the tables as they are. *)
Record table_inv (fuel : nat) (tb : bool) (F E ec l0 u0 : Z)
    (V A : gmap tState Z) : Prop := mkInv {
  inv_V : forall s,
    V !! s = if decide (stored F E ec l0 u0 s)
             then Some (opt (eggs s) (ub s - lb s - 1)) else None;
  inv_A_dom : forall s,
    is_Some (A !! s) -> stored F E ec l0 u0 s /\ lb s + 2 <= ub s;
  inv_A : forall s,
    stored F E ec l0 u0 s -> lb s + 2 <= ub s ->
    exists a, A !! s = Some a /\ good_action s a /\
      scan_choice fuel tb s V A = Ok (Some (opt (eggs s) (ub s - lb s - 1), a))
}.

(** A state of level [ec] or below whose successors are all decided: a
    stored state that is not terminal, or the state being visited. *)
Definition ready (F E ec l0 : Z) (s : tState) : Prop :=
  in_table F E s /\ 1 <= eggs s /\ lb s + 2 <= ub s /\
  (eggs s < ec \/ (eggs s = ec /\ l0 <= lb s)).

(** The worst case of dropping at [a] in [s], by the least numbers of
    drops of the two successors. *)
Definition worst_after (s : tState) (a : Z) : Z :=
  1 + Z.max (opt (eggs s - 1) (a - lb s - 1)) (opt (eggs s) (ub s - a - 1)).

(** ** The optimality equation on a table *)

(** [w] is the largest value that [V] holds for a successor of [s] after
    a drop at [p], and [V] holds a value for every successor. *)
Definition worst_case (V : gmap tState Z) (s : tState) (p w : Z) : Prop :=
  (forall f, lb s <= f < ub s -> exists v, V !! next s p f = Some v /\ v <= w) /\
  (exists f, lb s <= f < ub s /\ V !! next s p f = Some w).

(** [v] is one more than the least worst case over the probes of [s]
    whose successors are all present in [V]. *)
Definition bellman (V : gmap tState Z) (s : tState) (v : Z) : Prop :=
  (exists p w, lb s < p < ub s /\ worst_case V s p w /\ v = 1 + w) /\
  (forall p w, lb s < p < ub s -> worst_case V s p w -> v <= 1 + w).

(** ** Runs with arbitrary probes *)

(** [probes_from s run s']: the drops of [run], each a probe floor
    strictly inside the current interval together with a threshold, lead
    from [s] to [s']. *)
Inductive probes_from : tState -> list (Z * Z) -> tState -> Prop :=
| probes_nil s : probes_from s [] s
| probes_cons s p L run s' :
    lb s < p < ub s -> probes_from (next s p L) run s' ->
    probes_from s ((p, L) :: run) s'.

(** Drops at the floors chosen by [pick] until the interval has width
    one, at most [n] of them; returns the last state and the number of
    drops made. *)
Fixpoint drive (pick : tState -> Z) (L : Z) (n : nat) (s : tState) : tState * Z :=
  match n with
  | O => (s, 0)
  | S n' =>
      if ub s =? lb s + 1 then (s, 0)
      else let '(s', k) := drive pick L n' (next s (pick s) L) in (s', k + 1)
  end.

(** [arrives A L s n s']: following [A] with threshold [L], the policy
    loop started in [s] is in [s'] after [n] drops. *)
Inductive arrives (A : gmap tState Z) (L : Z) : tState -> nat -> tState -> Prop :=
| arrives_here s : arrives A L s 0 s
| arrives_drop s a n s' :
    isterminal s = false -> A !! s = Some a ->
    arrives A L (next s a L) n s' ->
    arrives A L s (S n) s'.

(** Non-increasing, then non-decreasing. *)
Definition unimodal (l : list Z) : Prop :=
  exists l1 l2, l = l1 ++ l2 /\ Sorted Z.ge l1 /\ Sorted Z.le l2.

(** ** Further invariants *)

(** The table of [classic_dpegg_limit] before it visits [(d, e)]: the
    entries before that position and those for no egg hold the
    recurrence, and all of them are below [F]. *)
Definition reach_inv (F E d e : Z) (tbl : gmap (Z * Z) Z) : Prop :=
  forall d' e', 0 <= d' -> 0 <= e' <= E -> d' < d \/ (d' = d /\ e' < e) \/ e' = 0 ->
    Classic.reach_at tbl d' e' = reach (Z.to_nat d') (Z.to_nat e') /\
    reach (Z.to_nat d') (Z.to_nat e') < F.

(** [st'] keeps every entry of [st], with a value that is not larger. *)
Definition improves (st st' : scan_st) : Prop :=
  (forall s v, tab_V st !! s = Some v ->
     exists v', tab_V st' !! s = Some v' /\ v' <= v) /\
  (forall s, is_Some (tab_A st !! s) -> is_Some (tab_A st' !! s)).

(** ** Sample value tables *)

(** The successors of [(2, 0, 4)] with values that make the worst cases
    of the probes 1, 2, 3 equal to 2, 3, 1. *)
Definition zigzag_table : gmap tState Z :=
  <[mkState 1 0 1 := 1]> (<[mkState 2 1 4 := 1]>
  (<[mkState 1 0 2 := 2]> (<[mkState 2 2 4 := 2]>
  (<[mkState 1 0 3 := 0]> (<[mkState 2 3 4 := 0]> ∅))))).

(** The same keys with values that make them 3, 2, 3. *)
Definition valley_table : gmap tState Z :=
  <[mkState 1 0 1 := 0]> (<[mkState 2 1 4 := 2]>
  (<[mkState 1 0 2 := 1]> (<[mkState 2 2 4 := 1]>
  (<[mkState 1 0 3 := 2]> (<[mkState 2 3 4 := 0]> ∅))))).

(** The value that the built table holds for the initial state. *)
Definition nominal (F E : Z) (tb : bool) : option Z :=
  match build_tables (Z.to_nat (F + 1)) F E tb with
  | Ok (V, _) => V !! mkState E 0 (F + 1)
  | _ => None
  end.

(** * The rest of the program *)

(** [v[i]] with an [int] index. *)
Definition vec_at_int {T : Type} (v : list T) (i : Z) : result T :=
  if i <? 0 then Undefined else vec_at v (Z.to_nat i).

(** A loop whose iterations produce the values to print and share no
    other variable: the values in order, unless an iteration is undefined. *)
Fixpoint for_each {T U : Type} (f : T -> result U) (l : list T) : result (list U) :=
  match l with
  | [] => Ok []
  | x :: l' => do y <- f x; do ys <- for_each f l'; Ok (y :: ys)
  end.

(** ** print_all_admissible *)

(** What [print_all_admissible] prints: the admissible drops, their
    values and, when an action table is given, for every drop the total of
    [total_policy_at] and the divisor [ub - lb] of the mean, which the
    source takes in floating point. *)
Record admissible_report : Type := mkReport {
  rep_drops : list Z;
  rep_values : list Z;
  rep_means : option (list (Z * Z))
}.

Definition print_all_admissible (fuel : nat) (s : tState) (V : gmap tState Z)
    (A : option (gmap tState Z)) : result admissible_report :=
  let break_on_increase := false in
  let '(a, v) := find_admissible_actions s V [] [] break_on_increase in
  match A with
  | None => Ok (mkReport a v None)
  | Some A =>
      do means <- for_each (fun a_ => do t <- total_policy_at fuel s a_ A;
                                       Ok (t, wrap (ub s - lb s))) a;
      Ok (mkReport a v (Some means))
  end.

(** ** histogram_to_string *)

(** [std::to_string] of an [int] is its decimal numeral, [pretty] on [Z]. *)
Fixpoint histogram_loop (H : gmap Z Z) (ks : list Z) (s : string) : string :=
  match ks with
  | [] => s
  | k :: ks' =>
      histogram_loop H ks'
        (match H !! k with
         | None => s +:+ "0 "
         | Some c => s +:+ (pretty c +:+ " ")
         end)
  end.

Definition histogram_to_string (H : gmap Z Z) (kmin kmax : Z) : string :=
  histogram_loop H (seqZ kmin (kmax - kmin + 1)) "".

(** ** main *)

(** The loop of [main] over the egg levels that verifies the policy of
    each level and reports it; [inl c] is [return c].  [drops] and [histo]
    are the vectors and the map that [check_policy] fills through the
    pointers it is given. *)
Fixpoint main_levels (fuel : nat) (F : Z) (V A : gmap tState Z) (es : list Z)
    (drops : list (list Z)) (histo : gmap Z Z) : result (Z + list (list Z)) :=
  match es with
  | [] => Ok (inr drops)
  | e :: es' =>
      let drops := drops ++ [[]] in
      do d <- vec_at_int drops e;
      do out <- check_policy fuel F e V A (Some d) (Some histo);
      let drops := <[Z.to_nat e := default d (out_D out)]> drops in
      let histo := default histo (out_H out) in
      if negb (looks_ok out) then Ok (inl 1)
      else
        let line := histogram_to_string histo 0 (max_drops out) in
        do _ <- print_all_admissible fuel (mkState e 0 (wrap (F + 1))) V (Some A);
        main_levels fuel F V A es' drops histo
  end.

(** The three tables and the executions that [main] prints last. *)
Definition main_tables (fuel : nat) (F E : Z) (V A : gmap tState Z)
    (drops : list (list Z)) : result unit :=
  do _ <- for_each (fun f =>
            for_each (fun e => deref V (mkState e 0 (wrap (f + 1)))) (seqZ 1 E))
          (seqZ 1 F);
  do _ <- for_each (fun f =>
            for_each (fun e => do out <- check_policy fuel f e V A None None;
                               Ok (mean_num out, mean_den out)) (seqZ 1 E))
          (seqZ 1 F);
  do _ <- for_each (fun f =>
            for_each (fun e => do d <- vec_at_int drops e; vec_at_int d f) (seqZ 1 E))
          (seqZ 1 F);
  do _ <- for_each (fun x => run_policy_once fuel F E x A (Some [])) (seqZ 0 (F + 1));
  Ok tt.

Section Main.

(** [as_integer] is [std::strtol] with base 0 narrowed to [int]; [main]
    is modelled for any such function. *)
Variable as_integer : string -> Z.

(** [main] returns its exit status; [argc] is the length of [argv]. *)
Definition main (fuel : nat) (argv : list string) : result Z :=
  let argc := Z.of_nat (length argv) in
  if negb (argc =? 3) && negb (argc =? 4) then
    do _ <- vec_at argv 0; Ok 1
  else
    do a1 <- vec_at argv 1;
    do a2 <- vec_at argv 2;
    let F := as_integer a1 in
    let E := as_integer a2 in
    if (F <=? 0) || (E <=? 0) then Ok 1
    else
      do use_tiebreak <- (if argc =? 4
                          then do a3 <- vec_at argv 3; Ok (bool_decide (a3 = "--tiebreak"))
                          else Ok false);
      if (argc =? 4) && negb use_tiebreak then Ok 1
      else
        let limit := Classic.classic_dpegg_limit F E in
        do (V, A) <- build_tables fuel F E use_tiebreak;
        do r <- main_levels fuel F V A (seqZ 1 E) [[]] ∅;
        match r with
        | inl code => Ok code
        | inr drops => do _ <- main_tables fuel F E V A drops; Ok 0
        end.

End Main.

(** ** Notions used in the further properties *)

(** The state that a trace of drops leads to, for the threshold [L]. *)
Definition replay (L : Z) (s : tState) (tr : list Z) : tState :=
  foldl (fun s a => next s a L) s tr.

(** Every drop of the trace is strictly inside the interval of the state at which it is made. *)
Fixpoint inside (L : Z) (s : tState) (tr : list Z) : Prop :=
  match tr with
  | [] => True
  | a :: tr' => lb s < a < ub s /\ inside L (next s a L) tr'
  end.

(** The number of drops of a trace that break the egg, for the threshold [L]. *)
Definition breaks (L : Z) (tr : list Z) : Z :=
  Z.of_nat (length (filter (fun a => L < a) tr)).

(** One more count for the key [k], as [check_policy] does to its histogram. *)
Definition hist_bump (h : gmap Z Z) (k : Z) : gmap Z Z :=
  <[k := wrap (default 0 (h !! k) + 1)]> h.

(** The sum of a list of integers. *)
Definition sumZ (l : list Z) : Z := foldr Z.add 0 l.

(** The step count and the trace of the run of [run_policy_once] for the
    threshold [l]. *)
Definition run_of (fuel : nat) (A : gmap tState Z) (f e l : Z) : Z * list Z :=
  match run_policy_once fuel f e l A (Some []) with
  | Ok (k, Some tr) => (k, tr)
  | _ => (0, [])
  end.

(** What is known of the run for every threshold. *)
Definition run_facts (fuel : nat) (A : gmap tState Z) (f e l : Z) (r : Z * list Z) : Prop :=
  run_policy_once fuel f e l A (Some []) = Ok (r.1, Some r.2) /\
  r.1 = Z.of_nat (length r.2) /\ 0 <= r.1 <= opt e f /\
  NoDup r.2 /\ Forall (fun a => 1 <= a <= f) r.2 /\
  breaks l r.2 <= e /\
  replay l (mkState e 0 (f + 1)) r.2 = mkState (e - breaks l r.2) l (l + 1) /\
  (1 <= l -> l ∈ r.2) /\ (l < f -> l + 1 ∈ r.2).

(** The number of occurrences of [k] in a list. *)
Definition count_of (k : Z) (l : list Z) : Z :=
  Z.of_nat (length (filter (fun x => x = k) l)).

(** The terminal states of an instance, and its other states with an egg. *)
Definition terminal_keys (F E : Z) : list tState :=
  seqZ 0 (E + 1) ≫= fun e => (fun f => mkState e f (f + 1)) <$> seqZ 0 (F + 1).

Definition inner_keys (F E : Z) : list tState :=
  seqZ 1 E ≫= fun e =>
  seqZ 0 (F + 1) ≫= fun l => (fun u => mkState e l u) <$> seqZ (l + 2) (F - l).

(** [st'] comes from [st] by [i] insertions and [m] modifications, at most
    [N] of them together. *)
Definition counted (N : Z) (st st' : scan_st) : Prop :=
  exists i m : nat,
    Z.of_nat i + Z.of_nat m <= N /\
    inserts st' = wrap (inserts st + Z.of_nat i) /\
    modifies st' = wrap (modifies st + Z.of_nat m) /\
    size (tab_V st') = (size (tab_V st) + i)%nat /\
    (i = 0%nat -> m = 0%nat -> tab_V st' = tab_V st /\ tab_A st' = tab_A st).

(** * Properties *)

(** Range conditions of [int] values, by unfolding the bounds. *)
Ltac in_range :=
  unfold valid_instance, in_int, int_min, int_max in *; lia.

(** ** Concrete runs *)

(** The stored value of [(E, 0, F + 1)] and the result of
    [classic_dpegg_limit] for 10 floors and 1, 2 and 10 eggs. *)
Example ten_floors_one_egg :
  nominal 10 1 false = Some 10 /\ Classic.classic_dpegg_limit 10 1 = 10.
Proof. by vm_compute. Qed.

Example ten_floors_two_eggs :
  nominal 10 2 false = Some 4 /\ nominal 10 2 true = Some 4 /\
  Classic.classic_dpegg_limit 10 2 = 4.
Proof. by vm_compute. Qed.

Example ten_floors_ten_eggs :
  nominal 10 10 false = Some 4 /\ Classic.classic_dpegg_limit 10 10 = 4.
Proof. by vm_compute. Qed.

(** The traces of the two-egg policy for 10 floors under the default tie
    rule: the worst case takes 4 drops. *)
Example ten_floors_two_eggs_traces :
  match build_tables 11 10 2 false with
  | Ok (_, A) => (fun L => run_policy_once 11 10 2 L A (Some [])) <$> [0; 3; 10]
  | _ => []
  end
  = [Ok (2, Some [4; 1]); Ok (4, Some [4; 1; 2; 3]); Ok (4, Some [4; 7; 9; 10])].
Proof. by vm_compute. Qed.

(** ** Machine integers *)

Lemma wrap_small x : in_int x -> wrap x = x.
Proof.
  unfold in_int, int_min, int_max, wrap. intros Hx.
  rewrite Z.mod_small by lia. lia.
Qed.

Lemma wrap_range x : in_int (wrap x).
Proof.
  unfold in_int, int_min, int_max, wrap.
  pose proof (Z.mod_pos_bound (x + 2147483648) 4294967296). lia.
Qed.

Lemma valid_instance_range F E :
  valid_instance F E -> 1 <= F < int_max /\ 1 <= E < int_max.
Proof. unfold valid_instance, int_max. lia. Qed.

Lemma wrap_add_l x y : wrap (wrap x + y) = wrap (x + y).
Proof.
  unfold wrap.
  replace ((x + 2147483648) mod 4294967296 - 2147483648 + y + 2147483648)
    with ((x + 2147483648) mod 4294967296 + y) by lia.
  rewrite Zplus_mod_idemp_l. f_equal. f_equal. lia.
Qed.

(** ** The recurrence *)

Lemma reach_nonneg d e : 0 <= reach d e.
Proof.
  revert e. induction d as [|d IH]; intros [|e]; simpl; try lia.
  pose proof (IH e). pose proof (IH (S e)). lia.
Qed.

Lemma reach_zero_eggs d : reach d 0 = 0.
Proof. by destruct d. Qed.

Lemma reach_one_egg d : reach d 1 = Z.of_nat d.
Proof.
  induction d as [|d IH]; [done|].
  change (reach (S d) 1) with (1 + reach d 0 + reach d 1).
  rewrite reach_zero_eggs, IH. lia.
Qed.

Lemma reach_mono_e d e : reach d e <= reach d (S e).
Proof.
  revert e. induction d as [|d IH]; intros e; [simpl; lia|].
  destruct e as [|e].
  - change (reach (S d) 1) with (1 + reach d 0 + reach d 1).
    simpl. pose proof (reach_nonneg d 0). pose proof (reach_nonneg d 1). lia.
  - change (reach (S d) (S (S e))) with (1 + reach d (S e) + reach d (S (S e))).
    change (reach (S d) (S e)) with (1 + reach d e + reach d (S e)).
    pose proof (IH e). pose proof (IH (S e)). lia.
Qed.

Lemma reach_mono_eggs d e e' : (e <= e')%nat -> reach d e <= reach d e'.
Proof.
  induction 1 as [|e' _ IH]; [lia|].
  pose proof (reach_mono_e d e'). lia.
Qed.

Lemma reach_step d e : (1 <= e)%nat -> reach d e + 1 <= reach (S d) e.
Proof.
  intros He. destruct e as [|e]; [lia|].
  change (reach (S d) (S e)) with (1 + reach d e + reach d (S e)).
  pose proof (reach_nonneg d e). lia.
Qed.

Lemma reach_mono_d d e : reach d e <= reach (S d) e.
Proof.
  destruct e as [|e].
  - rewrite !reach_zero_eggs. lia.
  - pose proof (reach_step d (S e)). lia.
Qed.

Lemma reach_mono_drops d d' e : (d <= d')%nat -> reach d e <= reach d' e.
Proof.
  induction 1 as [|d' _ IH]; [lia|].
  pose proof (reach_mono_d d' e). lia.
Qed.

Lemma reach_ge_drops d e : (1 <= e)%nat -> Z.of_nat d <= reach d e.
Proof.
  intros He. induction d as [|d IH]; [simpl; lia|].
  pose proof (reach_step d e He). lia.
Qed.

(** ** The least number of drops *)

Lemma least_spec P start k :
  (start <= least P start k <= start + k)%nat /\
  (forall d, (start <= d < least P start k)%nat -> P d = false) /\
  ((least P start k < start + k)%nat -> P (least P start k) = true).
Proof.
  revert start. induction k as [|k IH]; intros start; simpl.
  - split; [lia|]. split; [intros d Hd; lia | intros Hb; lia].
  - destruct (P start) eqn:HP.
    + split; [lia|]. split; [intros d Hd; lia | done].
    + destruct (IH (S start)) as (Hr & Hlt & Hfound).
      split; [lia|]. split.
      * intros d Hd. destruct (decide (d = start)) as [->|Hne]; [done|].
        apply Hlt. lia.
      * intros Hb. apply Hfound. lia.
Qed.

Lemma optn_bound e m : 0 <= m -> Z.of_nat (optn e m) <= m.
Proof.
  intros Hm. unfold optn.
  pose proof (least_spec (fun d => m <=? reach d e) 0 (Z.to_nat m)) as (Hr & _).
  lia.
Qed.

Lemma optn_below e m d : (d < optn e m)%nat -> reach d e < m.
Proof.
  unfold optn. intros Hd.
  destruct (least_spec (fun d => m <=? reach d e) 0 (Z.to_nat m)) as (_ & Hlt & _).
  specialize (Hlt d). simpl in Hlt. rewrite Z.leb_gt in Hlt. apply Hlt. lia.
Qed.

Lemma optn_reaches e m : (1 <= e)%nat -> 0 <= m -> m <= reach (optn e m) e.
Proof.
  unfold optn. intros He Hm.
  destruct (least_spec (fun d => m <=? reach d e) 0 (Z.to_nat m)) as (Hr & _ & Hfound).
  set (d0 := least _ 0 (Z.to_nat m)) in *.
  destruct (decide (d0 < Z.to_nat m)%nat) as [Hlt|Hge].
  - specialize (Hfound ltac:(lia)). simpl in Hfound. by apply Z.leb_le.
  - pose proof (reach_ge_drops d0 e He). lia.
Qed.

Lemma optn_le_iff e m d :
  (1 <= e)%nat -> 0 <= m -> (optn e m <= d)%nat <-> m <= reach d e.
Proof.
  intros He Hm. split.
  - intros Hd. pose proof (optn_reaches e m He Hm).
    pose proof (reach_mono_drops _ _ e Hd). lia.
  - intros Hr. destruct (decide (optn e m <= d)%nat) as [|Hgt]; [done|].
    pose proof (optn_below e m d ltac:(lia)). lia.
Qed.

Lemma optn_unique e m d :
  m <= reach d e -> (forall d', (d' < d)%nat -> reach d' e < m) -> optn e m = d.
Proof.
  intros Hr Hlt.
  destruct (lt_eq_lt_dec (optn e m) d) as [[Hl|He]|Hg]; [|done|].
  - pose proof (Hlt _ Hl) as Hsmall.
    assert (0 <= m \/ m < 0) as [Hm|Hm] by lia.
    + destruct e as [|e].
      * rewrite reach_zero_eggs in *. assert (m = 0) by lia. subst m.
        unfold optn in Hl. simpl in Hl.
        pose proof (Hlt 0%nat ltac:(lia)). rewrite reach_zero_eggs in *. lia.
      * pose proof (optn_reaches (S e) m ltac:(lia) Hm). lia.
    + unfold optn in Hl. rewrite Z2Nat.nonpos in Hl by lia. simpl in Hl.
      pose proof (Hlt 0%nat Hl). simpl in *. lia.
  - pose proof (optn_below e m d Hg). lia.
Qed.

Lemma optn_zero e : optn e 0 = 0%nat.
Proof. done. Qed.

Lemma optn_one_egg m : 0 <= m -> Z.of_nat (optn 1 m) = m.
Proof.
  intros Hm. rewrite (optn_unique 1 m (Z.to_nat m)); [lia| |].
  - rewrite reach_one_egg. lia.
  - intros d' Hd. rewrite reach_one_egg. lia.
Qed.

Lemma optn_mono_floors e m m' :
  (1 <= e)%nat -> 0 <= m <= m' -> (optn e m <= optn e m')%nat.
Proof.
  intros He Hm. apply optn_le_iff; [done|lia|].
  pose proof (optn_reaches e m' He ltac:(lia)). lia.
Qed.

Lemma optn_mono_eggs e e' m :
  (1 <= e <= e')%nat -> 0 <= m -> (optn e' m <= optn e m)%nat.
Proof.
  intros He Hm. apply optn_le_iff; [lia|done|].
  pose proof (optn_reaches e m ltac:(lia) Hm).
  pose proof (reach_mono_eggs (optn e m) e e' ltac:(lia)). lia.
Qed.

(** ** Minimum and argmin *)

Lemma lmin_le_init x l : lmin x l <= x.
Proof.
  unfold lmin. revert x. induction l as [|y l IH]; intros x; simpl; [lia|].
  pose proof (IH (Z.min x y)). lia.
Qed.

Lemma lmin_le_elem x l z : z ∈ l -> lmin x l <= z.
Proof.
  unfold lmin. revert x. induction l as [|y l IH]; intros x Hz; simpl.
  - by apply elem_of_nil in Hz.
  - apply elem_of_cons in Hz as [->|Hz].
    + pose proof (lmin_le_init (Z.min x y) l). unfold lmin in *. lia.
    + by apply IH.
Qed.

Lemma lmin_elem x l : lmin x l ∈ x :: l.
Proof.
  unfold lmin. revert x. induction l as [|y l IH]; intros x; simpl.
  - apply list_elem_of_here.
  - specialize (IH (Z.min x y)).
    apply elem_of_cons in IH as [Heq|Hin].
    + rewrite Heq. destruct (Z.min_spec x y) as [[_ ->]|[_ ->]].
      * apply list_elem_of_here.
      * apply list_elem_of_further, list_elem_of_here.
    + by do 2 apply list_elem_of_further.
Qed.

Lemma lmin_absorb x l : Forall (fun z => x <= z) l -> lmin x l = x.
Proof.
  unfold lmin. induction 1 as [|y l Hy _ IH]; simpl; [done|].
  by rewrite Z.min_l.
Qed.

Lemma argmin_from_spec v i best_i best pre :
  length pre = i -> (best_i < i)%nat -> pre !! best_i = Some best ->
  (argmin_from v i best_i best < length (pre ++ v))%nat /\
  (pre ++ v) !! argmin_from v i best_i best = Some (lmin best v).
Proof.
  revert i best_i best pre. induction v as [|x v IH]; intros i best_i best pre Hlen Hlt Hbest; simpl.
  - rewrite app_nil_r. split; [lia|done].
  - replace (pre ++ x :: v) with ((pre ++ [x]) ++ v) by by rewrite <- app_assoc.
    unfold lmin. simpl. destruct (Z.ltb_spec x best) as [Hx|Hx].
    + rewrite Z.min_r by lia. apply IH.
      * rewrite length_app. simpl. lia.
      * lia.
      * rewrite lookup_app_r by lia. by replace (i - length pre)%nat with 0%nat by lia.
    + rewrite Z.min_l by lia. apply IH.
      * rewrite length_app. simpl. lia.
      * lia.
      * rewrite lookup_app_l by lia. done.
Qed.

Lemma argmin_spec v m :
  min_of v = Some m -> (argmin v < length v)%nat /\ v !! argmin v = Some m.
Proof.
  destruct v as [|x v]; [done|]. simpl. intros [= <-].
  apply (argmin_from_spec v 1 0 x [x]); [done|lia|done].
Qed.

Lemma min_of_le v m z : min_of v = Some m -> z ∈ v -> m <= z.
Proof.
  destruct v as [|x v]; [done|]. simpl. intros [= <-] Hz.
  apply elem_of_cons in Hz as [->|Hz].
  - apply lmin_le_init.
  - by apply lmin_le_elem.
Qed.

Lemma min_of_elem v m : min_of v = Some m -> m ∈ v.
Proof.
  destruct v as [|x v]; [done|]. simpl. intros [= <-]. apply lmin_elem.
Qed.

(** ** The early exit *)

Lemma cut_sublist prev l x : x ∈ cut prev l -> x ∈ l.
Proof.
  revert prev. induction l as [|[a v] l IH]; intros prev; simpl; [done|].
  intros Hx. apply elem_of_cons in Hx as [->|Hx]; [apply list_elem_of_here|].
  apply list_elem_of_further.
  destruct (match prev with Some p => p <? v | None => false end).
  - by apply elem_of_nil in Hx.
  - by apply (IH (Some v)).
Qed.

Lemma cut_prefix prev l : cut prev l `prefix_of` l.
Proof.
  revert prev. induction l as [|[a v] l IH]; intros prev; simpl; [done|].
  apply prefix_cons.
  destruct (match prev with Some p => p <? v | None => false end).
  - apply prefix_nil.
  - apply IH.
Qed.

Lemma cut_lmin p l :
  valley (p :: l.*2) -> lmin p (cut (Some p) l).*2 = lmin p l.*2.
Proof.
  revert p. induction l as [|[a v] l IH]; intros p; [done|].
  simpl. intros [Hinc Hval].
  destruct (Z.ltb_spec p v) as [Hlt|Hge].
  - simpl. unfold lmin. simpl. rewrite Z.min_l by lia.
    symmetry. apply lmin_absorb. auto.
  - simpl. unfold lmin in *. simpl. rewrite Z.min_r by lia. by apply IH.
Qed.

Lemma cut_min_of l : valley l.*2 -> min_of (cut None l).*2 = min_of l.*2.
Proof.
  destruct l as [|[a v] l]; [done|]. simpl. intros Hval.
  f_equal. by apply cut_lmin.
Qed.

(** ** The optimality equation of the least number of drops *)

Lemma optn_zero_eggs_zero d : (optn 0 0 <= d)%nat.
Proof.
  rewrite optn_zero. lia.
Qed.

Lemma bellman_lower e' m k :
  1 <= k <= m -> ((1 <= e')%nat \/ k = 1) ->
  Z.of_nat (optn (S e') m)
  <= 1 + Z.max (Z.of_nat (optn e' (k - 1))) (Z.of_nat (optn (S e') (m - k))).
Proof.
  intros Hk Hadm.
  set (d := Nat.max (optn e' (k - 1)) (optn (S e') (m - k))).
  assert (k - 1 <= reach d e') as H1.
  { destruct Hadm as [He|Hk1].
    - apply optn_le_iff; [done|lia|]. unfold d. lia.
    - pose proof (reach_nonneg d e'). lia. }
  assert (m - k <= reach d (S e')) as H2.
  { apply optn_le_iff; [lia|lia|]. unfold d. lia. }
  assert (optn (S e') m <= S d)%nat as H3.
  { apply optn_le_iff; [lia|lia|].
    change (reach (S d) (S e')) with (1 + reach d e' + reach d (S e')). lia. }
  unfold d in H3. lia.
Qed.

Lemma bellman_attained e' m :
  1 <= m ->
  exists k, 1 <= k <= m /\ ((1 <= e')%nat \/ k = 1) /\
    1 + Z.max (Z.of_nat (optn e' (k - 1))) (Z.of_nat (optn (S e') (m - k)))
    <= Z.of_nat (optn (S e') m).
Proof.
  intros Hm.
  pose proof (optn_reaches (S e') m ltac:(lia) ltac:(lia)) as Hr.
  destruct (optn (S e') m) as [|d] eqn:Hd; [simpl in Hr; lia|].
  change (reach (S d) (S e')) with (1 + reach d e' + reach d (S e')) in Hr.
  pose proof (reach_nonneg d e') as Hnn.
  pose proof (reach_nonneg d (S e')) as Hnn'.
  exists (Z.min m (reach d e' + 1)).
  split; [lia|]. split.
  { destruct e' as [|e']; [right|left; lia].
    rewrite reach_zero_eggs. lia. }
  assert (optn e' (Z.min m (reach d e' + 1) - 1) <= d)%nat as H1.
  { destruct e' as [|e'].
    - rewrite reach_zero_eggs. replace (Z.min m (0 + 1) - 1) with 0 by lia.
      apply optn_zero_eggs_zero.
    - apply optn_le_iff; lia. }
  assert (optn (S e') (m - Z.min m (reach d e' + 1)) <= d)%nat as H2.
  { apply optn_le_iff; lia. }
  lia.
Qed.

Lemma valley_max_mono (g h : Z -> Z) (k0 : Z) (n : nat) :
  (forall i j, k0 <= i <= j -> j < k0 + Z.of_nat n -> g i <= g j /\ h j <= h i) ->
  valley ((fun k => 1 + Z.max (g k) (h k)) <$> seqZ k0 (Z.of_nat n)).
Proof.
  revert k0. induction n as [|n IH]; intros k0 Hmono; [done|].
  rewrite seqZ_cons by lia. rewrite fmap_cons.
  replace (Z.pred (Z.of_nat (S n))) with (Z.of_nat n) by lia.
  assert (valley ((fun k => 1 + Z.max (g k) (h k)) <$> seqZ (Z.succ k0) (Z.of_nat n))) as Ht.
  { apply IH. intros i j Hi Hj. apply Hmono; lia. }
  destruct n as [|n]; [done|].
  rewrite seqZ_cons in Ht |- * by lia. rewrite fmap_cons in Ht |- *.
  split; [|done].
  intros Hinc. apply Forall_fmap, Forall_seqZ. intros j Hj. simpl.
  destruct (Hmono k0 (Z.succ k0) ltac:(lia) ltac:(lia)) as [_ Hh].
  destruct (Hmono (Z.succ k0) j ltac:(lia) ltac:(lia)) as [Hg _].
  lia.
Qed.

(** ** The transition *)

Lemma next_cases s a f :
  lb s < a < ub s ->
  next s a f = if f <? a then mkState (wrap (eggs s - 1)) (lb s) a
               else mkState (eggs s) a (ub s).
Proof.
  intros Ha. unfold next, eggdrop. simpl.
  destruct (f <? a); simpl.
  - destruct (Z.ltb_spec a (ub s)); [done|lia].
  - destruct (Z.ltb_spec (lb s) a); [done|lia].
Qed.

Lemma eggdrop_next s a f : fst (eggdrop s a f) = next s a f.
Proof. by destruct s. Qed.

(** ** calc_maximum_value *)

Lemma calc_loop_app s a V fs1 fs2 mx :
  calc_loop s a V (fs1 ++ fs2) mx =
  let '(m1, ok) := calc_loop s a V fs1 mx in
  if ok then calc_loop s a V fs2 m1 else (m1, false).
Proof.
  revert mx. induction fs1 as [|f fs1 IH]; intros mx; simpl.
  - by destruct (calc_loop s a V fs2 mx).
  - destruct (V !! next s a f); [apply IH|done].
Qed.

Lemma calc_loop_same s a V fs k mx :
  (forall f, f ∈ fs -> next s a f = k) -> fs ≠ [] ->
  calc_loop s a V fs mx =
  match V !! k with
  | None => (mx, false)
  | Some v => (Z.max mx (wrap (1 + v)), true)
  end.
Proof.
  intros Hk Hne. revert mx. induction fs as [|f fs IH]; intros mx; [done|].
  simpl. rewrite (Hk f) by apply list_elem_of_here.
  destruct (V !! k) as [v|] eqn:Hv; [|done].
  unfold cost.
  destruct fs as [|f' fs].
  - simpl. f_equal. destruct (Z.ltb_spec mx (wrap (1 + v))); lia.
  - rewrite IH; [|intros g Hg; apply Hk; by apply list_elem_of_further|done].
    f_equal. destruct (Z.ltb_spec mx (wrap (1 + v))); lia.
Qed.

(** For a probe strictly inside the interval only two successors arise:
    the one after a break and the one after no break. *)
Lemma calc_maximum_value_eq s a V :
  lb s < a < ub s ->
  calc_maximum_value s a V =
  match V !! mkState (wrap (eggs s - 1)) (lb s) a with
  | None => (-1, false)
  | Some vb =>
      match V !! mkState (eggs s) a (ub s) with
      | None => (Z.max (-1) (wrap (1 + vb)), false)
      | Some vn => (Z.max (Z.max (-1) (wrap (1 + vb))) (wrap (1 + vn)), true)
      end
  end.
Proof.
  intros Ha. unfold calc_maximum_value.
  replace (ub s - lb s) with ((a - lb s) + (ub s - a)) by lia.
  rewrite seqZ_app by lia. rewrite calc_loop_app.
  replace (lb s + (a - lb s)) with a by lia.
  rewrite (calc_loop_same s a V (seqZ (lb s) (a - lb s))
             (mkState (wrap (eggs s - 1)) (lb s) a)).
  - destruct (V !! mkState (wrap (eggs s - 1)) (lb s) a) as [vb|]; [|done].
    rewrite (calc_loop_same s a V (seqZ a (ub s - a)) (mkState (eggs s) a (ub s))).
    + done.
    + intros f Hf. apply elem_of_seqZ in Hf. rewrite next_cases by done.
      destruct (Z.ltb_spec f a); [lia|done].
    + rewrite seqZ_cons by lia. done.
  - intros f Hf. apply elem_of_seqZ in Hf. rewrite next_cases by done.
    destruct (Z.ltb_spec f a); [done|lia].
  - rewrite seqZ_cons by lia. done.
Qed.

(** ** find_admissible_actions *)

Lemma from_end_snoc1 v x : from_end (v ++ [x]) 1 = x.
Proof.
  unfold from_end. rewrite length_app. simpl.
  rewrite lookup_app_r by lia.
  by replace (length v + 1 - 1 - length v)%nat with 0%nat by lia.
Qed.

Lemma from_end_snoc2 v y x : from_end ((v ++ [y]) ++ [x]) 2 = y.
Proof.
  unfold from_end. rewrite !length_app. simpl.
  rewrite lookup_app_l by (rewrite length_app; simpl; lia).
  rewrite lookup_app_r by lia.
  by replace (length v + 1 + 1 - 2 - length v)%nat with 0%nat by lia.
Qed.

Lemma admissible_list_cons s V a cands :
  admissible_list s V (a :: cands) =
  match admissible_at s V a with
  | Some y => y :: admissible_list s V cands
  | None => admissible_list s V cands
  end.
Proof. done. Qed.

Lemma find_loop_full s V cands actions values :
  find_loop s V false cands actions values =
  (actions ++ (admissible_list s V cands).*1, values ++ (admissible_list s V cands).*2).
Proof.
  revert actions values. induction cands as [|a cands IH]; intros actions values.
  - simpl. by rewrite !app_nil_r.
  - rewrite admissible_list_cons. simpl. unfold admissible_at.
    destruct (calc_maximum_value s a V) as [themax ok].
    destruct (negb ok || (themax =? -1)).
    + apply IH.
    + simpl. rewrite IH. by rewrite <- !app_assoc.
Qed.

Lemma find_loop_early s V cands actions values :
  length actions = length values ->
  find_loop s V true cands actions values =
  (actions ++ (cut (last values) (admissible_list s V cands)).*1,
   values ++ (cut (last values) (admissible_list s V cands)).*2).
Proof.
  revert actions values. induction cands as [|a cands IH]; intros actions values Hlen.
  - simpl. by rewrite !app_nil_r.
  - rewrite admissible_list_cons. cbn [find_loop]. unfold admissible_at.
    destruct (calc_maximum_value s a V) as [themax ok].
    destruct (negb ok || (themax =? -1)).
    + by apply IH.
    + cbn [cut fmap list_fmap fst snd]. rewrite andb_true_l.
      destruct (last values) as [p|] eqn:Hlast.
      * apply last_Some in Hlast as [values' ->].
        rewrite from_end_snoc1, from_end_snoc2.
        rewrite length_app in Hlen. simpl in Hlen.
        assert ((2 <=? length (actions ++ [a]))%nat = true) as ->.
        { apply Nat.leb_le. rewrite length_app. simpl. lia. }
        rewrite andb_true_l.
        destruct (p <? themax).
        -- done.
        -- rewrite IH by (rewrite !length_app; simpl; lia).
           rewrite last_snoc. by rewrite <- !app_assoc.
      * apply last_None in Hlast. subst values. destruct actions; [|done].
        simpl. rewrite (IH [a] [themax]) by done. done.
Qed.

Lemma find_admissible_actions_full s V :
  in_int (lb s + 1) ->
  find_admissible_actions s V [] [] false =
  ((admissible_list s V (seqZ (lb s + 1) (ub s - lb s - 1))).*1,
   (admissible_list s V (seqZ (lb s + 1) (ub s - lb s - 1))).*2).
Proof.
  intros Hl. unfold find_admissible_actions. rewrite (wrap_small _ Hl).
  rewrite find_loop_full. simpl.
  replace (ub s - (lb s + 1)) with (ub s - lb s - 1) by lia. done.
Qed.

Lemma find_admissible_actions_early s V :
  in_int (lb s + 1) ->
  find_admissible_actions s V [] [] true =
  ((cut None (admissible_list s V (seqZ (lb s + 1) (ub s - lb s - 1)))).*1,
   (cut None (admissible_list s V (seqZ (lb s + 1) (ub s - lb s - 1)))).*2).
Proof.
  intros Hl. unfold find_admissible_actions. rewrite (wrap_small _ Hl).
  rewrite find_loop_early by done. simpl.
  replace (ub s - (lb s + 1)) with (ub s - lb s - 1) by lia. done.
Qed.

(** ** The policy loop *)

Lemma runs_length A L s k tr : runs A L s k tr -> k = Z.of_nat (length tr).
Proof. induction 1; simpl; lia. Qed.

Lemma runs_deterministic A L s k tr k' tr' :
  runs A L s k tr -> runs A L s k' tr' -> k = k' /\ tr = tr'.
Proof.
  intros Hr. revert k' tr'. induction Hr as [s Ht|s a k tr Ht Ha Hr IH]; intros k' tr' Hr'.
  - inversion Hr'; subst; [done|congruence].
  - inversion Hr' as [|s' a' k'' tr'' Ht' Ha' Hr'']; subst; [congruence|].
    assert (a' = a) as -> by congruence.
    destruct (IH _ _ Hr'') as [-> ->]. done.
Qed.

Lemma runs_mono A A' L s k tr : A ⊆ A' -> runs A L s k tr -> runs A' L s k tr.
Proof.
  intros Hsub. induction 1 as [s Ht|s a k tr Ht Ha Hr IH].
  - by apply runs_terminal.
  - apply runs_drop; [done| |done]. by eapply lookup_weaken.
Qed.

Lemma policy_loop_runs A L s k tr fuel steps aseq :
  runs A L s k tr -> (length tr < fuel)%nat -> in_int steps ->
  policy_loop fuel L A s steps aseq
  = Ok (wrap (steps + k), (fun l => l ++ tr) <$> aseq).
Proof.
  intros Hr. revert fuel steps aseq.
  induction Hr as [s Ht|s a k tr Ht Ha Hr IH]; intros fuel steps aseq Hfuel Hsteps.
  - destruct fuel as [|fuel]; [simpl in Hfuel; lia|]. simpl. rewrite Ht.
    rewrite Z.add_0_r, wrap_small by done. f_equal. f_equal.
    destruct aseq as [l|]; simpl; [|done]. by rewrite app_nil_r.
  - destruct fuel as [|fuel]; [simpl in Hfuel; lia|]. simpl. rewrite Ht.
    unfold deref. rewrite Ha. simpl. rewrite eggdrop_next.
    rewrite IH; [|simpl in Hfuel; lia|apply wrap_range].
    rewrite wrap_add_l. f_equal. f_equal; [f_equal; lia|].
    destruct aseq as [l|]; simpl; [|done]. by rewrite <- app_assoc.
Qed.

(** A run that ends is a run of [runs], whatever the fuel was. *)
Lemma policy_loop_inv A L fuel s steps aseq r :
  policy_loop fuel L A s steps aseq = Ok r -> exists k tr, runs A L s k tr.
Proof.
  revert s steps aseq. induction fuel as [|fuel IH]; intros s steps aseq; [done|].
  simpl. destruct (isterminal s) eqn:Ht.
  - intros _. exists 0, []. by apply runs_terminal.
  - unfold deref. destruct (A !! s) as [a|] eqn:Ha; [|done]. simpl.
    rewrite eggdrop_next. intros Hr. apply IH in Hr as (k & tr & Hr).
    exists (k + 1), (a :: tr). by apply runs_drop.
Qed.

Lemma policy_loop_undefined A L fuel s steps aseq :
  isterminal s = false -> A !! s = None ->
  policy_loop (S fuel) L A s steps aseq = Undefined.
Proof. intros Ht Ha. simpl. rewrite Ht. unfold deref. by rewrite Ha. Qed.

Lemma policy_loop_mono A A' L fuel s steps aseq r :
  A ⊆ A' ->
  policy_loop fuel L A s steps aseq = Ok r ->
  policy_loop fuel L A' s steps aseq = Ok r.
Proof.
  intros Hsub. revert s steps aseq. induction fuel as [|fuel IH]; intros s steps aseq; [done|].
  simpl. destruct (isterminal s); [done|].
  unfold deref. destruct (A !! s) as [a|] eqn:Ha; [|done].
  rewrite (lookup_weaken _ _ _ _ Ha Hsub). simpl. apply IH.
Qed.

Lemma total_loop_mono A A' fuel s a ls tot r :
  A ⊆ A' ->
  total_loop fuel s a A ls tot = Ok r ->
  total_loop fuel s a A' ls tot = Ok r.
Proof.
  intros Hsub. revert tot. induction ls as [|l ls IH]; intros tot; [done|].
  simpl. destruct (policy_loop fuel l A (next s a l) 1 None) as [[k q]| | |] eqn:Hp; [|done..].
  rewrite (policy_loop_mono _ _ _ _ _ _ _ _ Hsub Hp). simpl. apply IH.
Qed.

Lemma total_policy_at_mono A A' fuel s a r :
  A ⊆ A' ->
  total_policy_at fuel s a A = Ok r -> total_policy_at fuel s a A' = Ok r.
Proof. apply total_loop_mono. Qed.

Lemma total_loop_ok A fuel s a ls tot :
  (forall l, l ∈ ls -> exists k tr, runs A l (next s a l) k tr /\ (length tr < fuel)%nat) ->
  exists r, total_loop fuel s a A ls tot = Ok r.
Proof.
  revert tot. induction ls as [|l ls IH]; intros tot Hall; [by eexists|].
  simpl. destruct (Hall l) as (k & tr & Hr & Hlen); [apply list_elem_of_here|].
  rewrite (policy_loop_runs _ _ _ _ _ _ _ _ Hr Hlen) by in_range.
  simpl. apply IH. intros l' Hl'. apply Hall. by apply list_elem_of_further.
Qed.

(** ** The choice made for one state *)

Lemma vec_at_fst {T U : Type} (X0 Y : list (T * U)) p :
  vec_at (X0 ++ p :: Y).*1 (length X0) = Ok p.1.
Proof.
  unfold vec_at. rewrite fmap_app, lookup_app_r by (rewrite length_fmap; lia).
  rewrite length_fmap. by replace (length X0 - length X0)%nat with 0%nat by lia.
Qed.

Lemma vec_at_snd {T U : Type} (X0 Y : list (T * U)) p :
  vec_at (X0 ++ p :: Y).*2 (length X0) = Ok p.2.
Proof.
  unfold vec_at. rewrite fmap_app, lookup_app_r by (rewrite length_fmap; lia).
  rewrite length_fmap. by replace (length X0 - length X0)%nat with 0%nat by lia.
Qed.

Lemma collect_ties_spec fuel tb s A value Y :
  (tb = true -> forall p, p ∈ Y -> p.2 = value ->
     exists t, total_policy_at fuel s p.1 A = Ok t) ->
  forall X0 ties totals,
  exists totals',
    collect_ties fuel tb s A (X0 ++ Y).*1 (X0 ++ Y).*2 value
      (seq (length X0) (length Y)) ties totals
    = Ok (ties ++ (tied value Y).*1, totals ++ totals') /\
    length totals' = if tb then length (tied value Y) else 0%nat.
Proof.
  induction Y as [|p Y IH]; intros Htot X0 ties totals.
  - exists []. simpl. rewrite !app_nil_r. split; [done|by destruct tb].
  - cbn [length seq collect_ties]. rewrite vec_at_snd. cbn [bind].
    assert (forall ties totals, exists totals',
      collect_ties fuel tb s A (X0 ++ p :: Y).*1 (X0 ++ p :: Y).*2 value
        (seq (S (length X0)) (length Y)) ties totals
      = Ok (ties ++ (tied value Y).*1, totals ++ totals') /\
      length totals' = if tb then length (tied value Y) else 0%nat) as IH'.
    { intros ties' totals'.
      destruct (IH (fun Htb q Hq => Htot Htb q (list_elem_of_further _ _ _ Hq))
                   (X0 ++ [p]) ties' totals') as (t' & Heq & Hlen).
      exists t'. rewrite <- app_assoc in Heq. rewrite length_app in Heq. simpl in Heq.
      replace (length X0 + 1)%nat with (S (length X0)) in Heq by lia. done. }
    unfold tied. rewrite filter_cons.
    destruct (Z.eqb_spec p.2 value) as [Hv|Hv].
    + rewrite decide_True by done. rewrite vec_at_fst. cbn [bind].
      destruct tb.
      * destruct (Htot eq_refl p (list_elem_of_here _ _) Hv) as [t Ht].
        rewrite Ht. cbn [bind].
        destruct (IH' (ties ++ [p.1]) (totals ++ [t])) as (t' & Heq & Hlen).
        exists (t :: t'). rewrite Heq. rewrite <- !app_assoc. simpl.
        split; [done|]. unfold tied in Hlen. lia.
      * destruct (IH' (ties ++ [p.1]) totals) as (t' & Heq & Hlen).
        exists t'. rewrite Heq. rewrite <- !app_assoc. by simpl.
    + rewrite decide_False by done. apply IH'.
Qed.

Lemma collect_ties_mono fuel tb s A A' la lv value idx ties totals r :
  A ⊆ A' ->
  collect_ties fuel tb s A la lv value idx ties totals = Ok r ->
  collect_ties fuel tb s A' la lv value idx ties totals = Ok r.
Proof.
  intros Hsub. revert ties totals. induction idx as [|i idx IH]; intros ties totals; [done|].
  simpl. destruct (vec_at lv i) as [vi| | |]; [|done..]. simpl.
  destruct (vi =? value); [|apply IH].
  destruct (vec_at la i) as [ai| | |]; [|done..]. simpl.
  destruct tb; [|apply IH].
  destruct (total_policy_at fuel s ai A) as [t| | |] eqn:Ht; [|done..].
  rewrite (total_policy_at_mono _ _ _ _ _ _ Hsub Ht). simpl. apply IH.
Qed.

Lemma tied_elem value X p : p ∈ tied value X <-> p ∈ X /\ p.2 = value.
Proof. unfold tied. rewrite list_elem_of_filter. tauto. Qed.

Lemma argmin_lt v : v ≠ [] -> (argmin v < length v)%nat.
Proof.
  intros Hv. destruct v as [|x v]; [done|].
  by destruct (argmin_spec (x :: v) (lmin x v)).
Qed.

Lemma scan_choice_some fuel tb s V A value :
  in_int (lb s + 1) ->
  min_of (kept s V).*2 = Some value ->
  (tb = true -> forall p, p ∈ kept s V -> p.2 = value ->
     exists t, total_policy_at fuel s p.1 A = Ok t) ->
  exists action,
    scan_choice fuel tb s V A = Ok (Some (value, action)) /\
    (action, value) ∈ kept s V.
Proof.
  intros Hl Hmin Htot. unfold scan_choice.
  rewrite find_admissible_actions_early by done. fold (kept s V).
  set (X := kept s V) in *.
  destruct (argmin_spec _ _ Hmin) as [Hlt Hval].
  destruct (Nat.eqb_spec (length X.*2) 0) as [Hz|_]; [lia|].
  rewrite length_fmap in Hlt.
  destruct (lookup_lt_is_Some_2 X.*1 (argmin X.*2)) as [a0 Ha0];
    [by rewrite length_fmap|].
  unfold vec_at at 1 2. rewrite Ha0, Hval. cbn [bind].
  destruct (collect_ties_spec fuel tb s A value X Htot [] [] []) as (totals & Heq & Hlen).
  simpl in Heq. rewrite length_fmap. rewrite Heq. cbn [bind].
  assert ((a0, value) ∈ tied value X) as Hin.
  { apply tied_elem. split; [|done].
    rewrite list_lookup_fmap in Ha0, Hval.
    destruct (X !! argmin X.*2) as [[a v]|] eqn:HX; [|done].
    simpl in *. injection Ha0 as ->. injection Hval as ->.
    by eapply list_elem_of_lookup_2. }
  assert (0 < length (tied value X))%nat as Hpos.
  { destruct (tied value X); [by apply elem_of_nil in Hin|simpl; lia]. }
  assert (exists j, (j < length (tied value X))%nat /\
            (if tb then vec_at (tied value X).*1 (argmin totals)
             else vec_at (tied value X).*1 (Nat.shiftr (length (tied value X).*1) 1))
            = vec_at (tied value X).*1 j) as (j & Hj & ->).
  { destruct tb.
    - exists (argmin totals). split; [|done]. rewrite <- Hlen. apply argmin_lt.
      destruct totals; [simpl in Hlen; lia|done].
    - eexists. split; [|done]. rewrite length_fmap, Nat.shiftr_div_pow2.
      change (2 ^ 1)%nat with 2%nat. apply Nat.div_lt; lia. }
  destruct (lookup_lt_is_Some_2 (tied value X) j Hj) as [[a v] Hp].
  unfold vec_at. rewrite list_lookup_fmap, Hp. simpl.
  exists a. split; [done|].
  apply list_elem_of_lookup_2 in Hp. apply tied_elem in Hp as [Hp Hv].
  simpl in Hv. by subst v.
Qed.

Lemma calc_loop_ext s a V V' fs mx :
  (forall f, V !! next s a f = V' !! next s a f) ->
  calc_loop s a V fs mx = calc_loop s a V' fs mx.
Proof.
  intros Hext. revert mx. induction fs as [|f fs IH]; intros mx; [done|].
  simpl. rewrite <- Hext. destruct (V !! next s a f); [apply IH|done].
Qed.

Lemma find_loop_ext s V V' b cands actions values :
  (forall a f, a ∈ cands -> V !! next s a f = V' !! next s a f) ->
  find_loop s V b cands actions values = find_loop s V' b cands actions values.
Proof.
  revert actions values.
  induction cands as [|a cands IH]; intros actions values Hext; [done|].
  simpl. unfold calc_maximum_value.
  rewrite (calc_loop_ext s a V V') by (intros f; apply Hext, list_elem_of_here).
  assert (forall a f, a ∈ cands -> V !! next s a f = V' !! next s a f) as Hext'.
  { intros a' f Ha'. apply Hext. by apply list_elem_of_further. }
  destruct (calc_loop s a V' _ _) as [themax ok].
  destruct (negb ok || (themax =? -1)); [by apply IH|].
  rewrite IH by done. done.
Qed.

(** The choice for [s] reads [V] only at the successors of [s], and reads
    [A] only where the lookup succeeds. *)
Lemma scan_choice_stable fuel tb s V V' A A' r :
  in_int (lb s + 1) ->
  (forall a f, lb s < a < ub s -> V !! next s a f = V' !! next s a f) -> A ⊆ A' ->
  scan_choice fuel tb s V A = Ok r -> scan_choice fuel tb s V' A' = Ok r.
Proof.
  intros Hl Hext Hsub. unfold scan_choice, find_admissible_actions.
  rewrite <- (find_loop_ext s V V').
  2:{ intros a f Ha. apply elem_of_seqZ in Ha. rewrite wrap_small in Ha by done.
      apply Hext. lia. }
  destruct (find_loop s V true _ [] []) as [la lv].
  destruct (length lv =? 0)%nat; [done|].
  destruct (vec_at la (argmin lv)) as [a0| | |]; [|done..]. cbn [bind].
  destruct (vec_at lv (argmin lv)) as [value| | |]; [|done..]. cbn [bind].
  destruct (collect_ties fuel tb s A la lv value _ [] []) as [[ties totals]| | |] eqn:Hc;
    [|done..].
  rewrite (collect_ties_mono _ _ _ _ _ _ _ _ _ _ _ _ Hsub Hc). done.
Qed.

(** ** The least number of drops on states *)

Lemma opt_bounds e m : 0 <= m -> 0 <= opt e m <= m.
Proof. intros Hm. unfold opt. pose proof (optn_bound (Z.to_nat e) m Hm). lia. Qed.

Lemma opt_zero_floors e : opt e 0 = 0.
Proof. done. Qed.

Lemma opt_one_egg m : 0 <= m -> opt 1 m = m.
Proof. intros Hm. unfold opt. by apply optn_one_egg. Qed.

Lemma opt_bellman_lower e l u a :
  1 <= e -> l < a < u -> (2 <= e \/ a = l + 1) ->
  opt e (u - l - 1) <= 1 + Z.max (opt (e - 1) (a - l - 1)) (opt e (u - a - 1)).
Proof.
  intros He Ha Hadm. unfold opt.
  replace (Z.to_nat e) with (S (Z.to_nat (e - 1))) by lia.
  replace (u - a - 1) with ((u - l - 1) - (a - l)) by lia.
  replace (a - l - 1) with ((a - l) - 1) by lia.
  apply bellman_lower; lia.
Qed.

Lemma opt_bellman_attained e l u :
  1 <= e -> l + 2 <= u ->
  exists a, l < a < u /\ (2 <= e \/ a = l + 1) /\
    1 + Z.max (opt (e - 1) (a - l - 1)) (opt e (u - a - 1)) <= opt e (u - l - 1).
Proof.
  intros He Hu. unfold opt.
  replace (Z.to_nat e) with (S (Z.to_nat (e - 1))) by lia.
  destruct (bellman_attained (Z.to_nat (e - 1)) (u - l - 1) ltac:(lia))
    as (k & Hk & Hadm & Hle).
  exists (l + k). split; [lia|]. split; [lia|].
  replace (l + k - l - 1) with (k - 1) by lia.
  replace (u - (l + k) - 1) with (u - l - 1 - k) by lia. done.
Qed.

Lemma opt_mono_floors e m m' : 1 <= e -> 0 <= m <= m' -> opt e m <= opt e m'.
Proof.
  intros He Hm. unfold opt.
  pose proof (optn_mono_floors (Z.to_nat e) m m' ltac:(lia) Hm). lia.
Qed.

Lemma opt_mono_eggs e e' m : 1 <= e <= e' -> 0 <= m -> opt e' m <= opt e m.
Proof.
  intros He Hm. unfold opt.
  pose proof (optn_mono_eggs (Z.to_nat e) (Z.to_nat e') m ltac:(lia) Hm). lia.
Qed.

Lemma min_of_intro l m :
  m ∈ l -> (forall z, z ∈ l -> m <= z) -> min_of l = Some m.
Proof.
  intros Hin Hle. destruct l as [|x l]; [by apply elem_of_nil in Hin|].
  simpl. f_equal.
  pose proof (lmin_elem x l) as Hmem. pose proof (Hle _ Hmem).
  assert (lmin x l <= m); [|lia].
  apply elem_of_cons in Hin as [->|Hin]; [apply lmin_le_init|by apply lmin_le_elem].
Qed.

(** ** The tables during the scans *)

Section Builder.

Context (F E : Z).
Hypothesis HF : 1 <= F < int_max.
Hypothesis HE : 1 <= E < int_max.

Local Abbreviation stored := (stored F E).
Local Abbreviation ready := (ready F E).
Local Abbreviation value_of s := (opt (eggs s) (ub s - lb s - 1)).

Lemma small_in_int x : -1 <= x <= F + 1 -> in_int x.
Proof. in_range. Qed.

Lemma eggs_in_int x : -1 <= x <= E -> in_int x.
Proof. in_range. Qed.

Lemma stored_terminal ec l0 u0 s :
  stored ec l0 u0 s -> ub s = lb s + 1 -> isterminal s = true.
Proof.
  intros [(Hl & Hlu & Hu & He) _] Hw. unfold isterminal.
  rewrite wrap_small by (apply small_in_int; lia).
  rewrite Hw, Z.eqb_refl. simpl.
  destruct (Z.leb_spec 0 (lb s)); [|lia]. destruct (Z.leb_spec 0 (eggs s)); [done|lia].
Qed.

Lemma stored_nonterminal ec l0 u0 s :
  stored ec l0 u0 s -> lb s + 2 <= ub s -> isterminal s = false.
Proof.
  intros [(Hl & Hlu & Hu & He) _] Hw. unfold isterminal.
  rewrite wrap_small by (apply small_in_int; lia).
  destruct (Z.eqb_spec (ub s) (lb s + 1)); [lia|done].
Qed.

Lemma stored_break ec l0 u0 s a :
  stored ec l0 u0 s -> lb s + 2 <= ub s -> good_action s a ->
  stored ec l0 u0 (mkState (eggs s - 1) (lb s) a).
Proof.
  intros [(Hl & Hlu & Hu & He) Hst] Hw (Ha & Hadm & _).
  unfold stored, in_table. simpl.
  destruct Hst as [?|(He1 & Hpos)]; [lia|].
  split; [lia|]. destruct Hadm as [He2|Ha1]; [|by left].
  destruct (decide (a = lb s + 1)); [by left|right]. lia.
Qed.

Lemma stored_hold ec l0 u0 s a :
  stored ec l0 u0 s -> lb s + 2 <= ub s -> lb s < a < ub s ->
  stored ec l0 u0 (mkState (eggs s) a (ub s)).
Proof.
  intros [(Hl & Hlu & Hu & He) Hst] Hw Ha.
  unfold stored, in_table. simpl.
  destruct Hst as [?|(He1 & Hpos)]; [lia|].
  split; [lia|]. destruct (decide (ub s = a + 1)); [by left|right]. lia.
Qed.

Lemma stored_next ec l0 u0 s a L :
  stored ec l0 u0 s -> lb s + 2 <= ub s -> good_action s a ->
  next s a L = (if L <? a then mkState (eggs s - 1) (lb s) a
                else mkState (eggs s) a (ub s)) /\
  stored ec l0 u0 (next s a L).
Proof.
  intros Hs Hw Hg. pose proof Hg as (Ha & _).
  assert (1 <= eggs s <= E) as He.
  { destruct Hs as [(_ & _ & _ & He) [?|(He1 & _)]]; lia. }
  rewrite next_cases by done.
  rewrite (wrap_small (eggs s - 1)) by (apply eggs_in_int; lia).
  split; [done|]. destruct (L <? a).
  - by eapply stored_break.
  - by eapply stored_hold.
Qed.

Lemma stored_ready ec l0 u0 s :
  stored ec l0 u0 s -> lb s + 2 <= ub s -> ready ec l0 s.
Proof.
  intros [Hin Hst] Hw. unfold ready.
  destruct Hst as [?|(He1 & Hpos)]; [lia|].
  split; [done|]. split; [done|]. split; [done|]. lia.
Qed.

Lemma ready_hold ec l0 u0 s a :
  ready ec l0 s ->
  lb s < a < ub s -> stored ec l0 u0 (mkState (eggs s) a (ub s)).
Proof.
  intros ((Hl & Hlu & Hu & He) & He1 & Hw & Hpos) Ha.
  unfold stored, in_table. simpl. split; [lia|].
  destruct (decide (ub s = a + 1)); [by left|right]. lia.
Qed.

Lemma ready_break ec l0 u0 s a :
  ready ec l0 s -> lb s < a < ub s ->
  stored ec l0 u0 (mkState (eggs s - 1) (lb s) a) <-> (2 <= eggs s \/ a = lb s + 1).
Proof.
  intros ((Hl & Hlu & Hu & He) & He1 & Hw & Hpos) Ha.
  unfold stored, in_table. simpl. split.
  - intros [_ [?|(? & _)]]; lia.
  - intros Hadm. split; [lia|].
    destruct (decide (a = lb s + 1)); [by left|right]. lia.
Qed.

Context (fuel : nat) (tb : bool).
Hypothesis Hfuel : F + 1 <= Z.of_nat fuel.

Local Abbreviation table_inv := (table_inv fuel tb F E).

(** From every stored state the action table leads to a terminal state,
    within the stored value for every threshold, and in exactly that
    many drops for some threshold of the interval. *)
Lemma runs_from_stored ec l0 u0 V A (n : nat) s :
  table_inv ec l0 u0 V A -> stored ec l0 u0 s -> ub s - lb s <= Z.of_nat n ->
  (forall L, exists k tr, runs A L s k tr /\ 0 <= k <= value_of s /\
      Forall (fun a => lb s < a < ub s) tr) /\
  (exists L k tr, lb s <= L < ub s /\ runs A L s k tr /\ k = value_of s).
Proof.
  intros Hinv. revert s. induction n as [|n IH]; intros s Hs Hn.
  { destruct Hs as [(Hl & Hlu & Hu & He) _]. lia. }
  destruct (decide (ub s = lb s + 1)) as [Hw|Hw].
  - pose proof (stored_terminal _ _ _ _ Hs Hw) as Ht.
    replace (ub s - lb s - 1) with 0 by lia. rewrite opt_zero_floors.
    split.
    + intros L. exists 0, []. split; [by apply runs_terminal|]. split; [lia|done].
    + exists (lb s), 0, []. split; [lia|]. split; [by apply runs_terminal|done].
  - assert (lb s + 2 <= ub s) as Hw2.
    { destruct Hs as [(Hl & Hlu & Hu & He) _]. lia. }
    pose proof (stored_nonterminal _ _ _ _ Hs Hw2) as Ht.
    destruct (inv_A _ _ _ _ _ _ _ _ _ Hinv s Hs Hw2) as (a & HA & Hg & _).
    pose proof Hg as (Ha & Hadm & Hval).
    assert (forall L, next s a L = (if L <? a then mkState (eggs s - 1) (lb s) a
                                     else mkState (eggs s) a (ub s))) as Hnext.
    { intros L. by destruct (stored_next ec l0 u0 s a L Hs Hw2 Hg). }
    destruct (IH (mkState (eggs s - 1) (lb s) a)) as [Hb1 Hb2];
      [by eapply stored_break|simpl; lia|].
    destruct (IH (mkState (eggs s) a (ub s))) as [Hh1 Hh2];
      [by eapply stored_hold|simpl; lia|].
    simpl in *. split.
    + intros L. destruct (Z.ltb_spec L a) as [HL|HL].
      * destruct (Hb1 L) as (k & tr & Hr & Hk & Htr).
        exists (k + 1), (a :: tr). split.
        { apply runs_drop; [done..|]. rewrite Hnext.
          destruct (Z.ltb_spec L a); [done|lia]. }
        split; [lia|]. constructor; [done|].
        eapply Forall_impl; [exact Htr|]. simpl. lia.
      * destruct (Hh1 L) as (k & tr & Hr & Hk & Htr).
        exists (k + 1), (a :: tr). split.
        { apply runs_drop; [done..|]. rewrite Hnext.
          destruct (Z.ltb_spec L a); [lia|done]. }
        split; [lia|]. constructor; [done|].
        eapply Forall_impl; [exact Htr|]. simpl. lia.
    + destruct (Z.le_ge_cases (opt (eggs s) (ub s - a - 1))
                              (opt (eggs s - 1) (a - lb s - 1))) as [Hcmp|Hcmp].
      * destruct Hb2 as (L & k & tr & HL & Hr & Hk).
        exists L, (k + 1), (a :: tr). split; [lia|]. split; [|lia].
        apply runs_drop; [done..|]. rewrite Hnext.
        destruct (Z.ltb_spec L a); [done|lia].
      * destruct Hh2 as (L & k & tr & HL & Hr & Hk).
        exists L, (k + 1), (a :: tr). split; [lia|]. split; [|lia].
        apply runs_drop; [done..|]. rewrite Hnext.
        destruct (Z.ltb_spec L a); [lia|done].
Qed.

Lemma admissible_at_ready ec l0 u0 V A s a :
  table_inv ec l0 u0 V A -> ready ec l0 s -> lb s < a < ub s ->
  admissible_at s V a
  = if decide (2 <= eggs s \/ a = lb s + 1) then Some (a, worst_after s a) else None.
Proof.
  intros Hinv Hr Ha. pose proof Hr as ((Hl & Hlu & Hu & He) & He1 & Hw & Hpos).
  unfold admissible_at. rewrite calc_maximum_value_eq by done.
  rewrite (wrap_small (eggs s - 1)) by (apply eggs_in_int; lia).
  rewrite !(inv_V _ _ _ _ _ _ _ _ _ Hinv). simpl.
  pose proof (ready_break ec l0 u0 s a Hr Ha) as Hb.
  pose proof (ready_hold ec l0 u0 s a Hr Ha) as Hh.
  rewrite (decide_True _ _ Hh).
  destruct (decide (2 <= eggs s \/ a = lb s + 1)) as [Hadm|Hadm].
  - rewrite decide_True by by apply Hb.
    pose proof (opt_bounds (eggs s - 1) (a - lb s - 1) ltac:(lia)).
    pose proof (opt_bounds (eggs s) (ub s - a - 1) ltac:(lia)).
    rewrite !wrap_small by (apply small_in_int; lia).
    simpl. unfold worst_after.
    destruct (Z.eqb_spec (Z.max (Z.max (-1) (1 + opt (eggs s - 1) (a - lb s - 1)))
                                (1 + opt (eggs s) (ub s - a - 1))) (-1)) as [Heq|_]; [lia|].
    do 2 f_equal. lia.
  - rewrite decide_False by (intros Hst; apply Hadm; by apply Hb). done.
Qed.

(** The admissible actions of a ready state, with their values. *)
Lemma admissible_list_elem ec l0 u0 V A s a v :
  table_inv ec l0 u0 V A -> ready ec l0 s ->
  (a, v) ∈ admissible_list s V (seqZ (lb s + 1) (ub s - lb s - 1)) <->
  lb s < a < ub s /\ (2 <= eggs s \/ a = lb s + 1) /\ v = worst_after s a.
Proof.
  intros Hinv Hr. unfold admissible_list. rewrite list_elem_of_omap. split.
  - intros (x & Hx & Hadm). apply elem_of_seqZ in Hx.
    rewrite (admissible_at_ready _ _ _ _ _ _ _ Hinv Hr) in Hadm by lia.
    destruct (decide _) as [Hok|]; [|done]. injection Hadm as -> ->.
    split; [lia|done].
  - intros (Ha & Hadm & ->). exists a. split; [apply elem_of_seqZ; lia|].
    rewrite (admissible_at_ready _ _ _ _ _ _ _ Hinv Hr) by lia.
    by rewrite decide_True.
Qed.

Lemma omap_all_some {T U : Type} (f : T -> option U) (g : T -> U) (l : list T) :
  (forall x, x ∈ l -> f x = Some (g x)) -> omap f l = g <$> l.
Proof.
  induction l as [|x l IH]; intros Hall; [done|].
  simpl. rewrite (Hall x) by apply list_elem_of_here. simpl.
  f_equal. apply IH. intros y Hy. apply Hall. by apply list_elem_of_further.
Qed.

Lemma omap_all_none {T U : Type} (f : T -> option U) (l : list T) :
  (forall x, x ∈ l -> f x = None) -> omap f l = [].
Proof.
  induction l as [|x l IH]; intros Hall; [done|].
  simpl. rewrite (Hall x) by apply list_elem_of_here.
  apply IH. intros y Hy. apply Hall. by apply list_elem_of_further.
Qed.

Lemma admissible_list_ready ec l0 u0 V A s :
  table_inv ec l0 u0 V A -> ready ec l0 s ->
  admissible_list s V (seqZ (lb s + 1) (ub s - lb s - 1))
  = if decide (2 <= eggs s)
    then (fun a => (a, worst_after s a)) <$> seqZ (lb s + 1) (ub s - lb s - 1)
    else [(lb s + 1, worst_after s (lb s + 1))].
Proof.
  intros Hinv Hr. pose proof Hr as (_ & He1 & Hw & _).
  destruct (decide (2 <= eggs s)) as [He2|He2].
  - apply omap_all_some. intros a Ha. apply elem_of_seqZ in Ha.
    rewrite (admissible_at_ready _ _ _ _ _ _ _ Hinv Hr) by lia.
    rewrite decide_True by lia. done.
  - rewrite seqZ_cons by lia. unfold admissible_list. simpl.
    rewrite (admissible_at_ready _ _ _ _ _ _ _ Hinv Hr) by lia.
    rewrite decide_True by lia. f_equal.
    apply omap_all_none. intros a Ha. apply elem_of_seqZ in Ha.
    rewrite (admissible_at_ready _ _ _ _ _ _ _ Hinv Hr) by lia.
    rewrite decide_False by lia. done.
Qed.

Lemma valley_ready ec l0 u0 V A s :
  table_inv ec l0 u0 V A -> ready ec l0 s ->
  valley (admissible_list s V (seqZ (lb s + 1) (ub s - lb s - 1))).*2.
Proof.
  intros Hinv Hr. pose proof Hr as ((Hl & Hlu & Hu & He) & He1 & Hw & _).
  rewrite (admissible_list_ready _ _ _ _ _ _ Hinv Hr).
  destruct (decide (2 <= eggs s)) as [He2|He2]; [|done].
  rewrite <- list_fmap_compose.
  replace (ub s - lb s - 1) with (Z.of_nat (Z.to_nat (ub s - lb s - 1))) by lia.
  apply (valley_max_mono (fun a => opt (eggs s - 1) (a - lb s - 1))
                         (fun a => opt (eggs s) (ub s - a - 1))).
  intros i j Hi Hj. split.
  - apply opt_mono_floors; lia.
  - apply opt_mono_floors; lia.
Qed.

Lemma min_of_ready ec l0 u0 V A s :
  table_inv ec l0 u0 V A -> ready ec l0 s ->
  min_of (admissible_list s V (seqZ (lb s + 1) (ub s - lb s - 1))).*2
  = Some (value_of s).
Proof.
  intros Hinv Hr. pose proof Hr as ((Hl & Hlu & Hu & He) & He1 & Hw & _).
  apply min_of_intro.
  - destruct (opt_bellman_attained (eggs s) (lb s) (ub s) He1 Hw) as (a & Ha & Hadm & Hle).
    pose proof (opt_bellman_lower (eggs s) (lb s) (ub s) a He1 Ha Hadm) as Hge.
    apply list_elem_of_fmap. exists (a, worst_after s a). split.
    + unfold worst_after. simpl. lia.
    + by apply (admissible_list_elem _ _ _ _ _ _ _ _ Hinv Hr).
  - intros z Hz. apply list_elem_of_fmap in Hz as ([a v] & -> & Hin).
    apply (admissible_list_elem _ _ _ _ _ _ _ _ Hinv Hr) in Hin as (Ha & Hadm & ->).
    simpl. by apply opt_bellman_lower.
Qed.

Lemma kept_ready ec l0 u0 V A s :
  table_inv ec l0 u0 V A -> ready ec l0 s ->
  min_of (kept s V).*2 = Some (value_of s) /\
  forall a, (a, value_of s) ∈ kept s V -> good_action s a.
Proof.
  intros Hinv Hr. split.
  - unfold kept. rewrite cut_min_of by by eapply valley_ready.
    by eapply min_of_ready.
  - intros a Ha. apply cut_sublist in Ha.
    apply (admissible_list_elem _ _ _ _ _ _ _ _ Hinv Hr) in Ha as (Ha & Hadm & Hv).
    split; [done|]. split; [done|]. exact Hv.
Qed.

Lemma runs_short ec l0 u0 V A s L :
  table_inv ec l0 u0 V A -> stored ec l0 u0 s ->
  exists k tr, runs A L s k tr /\ (length tr < fuel)%nat.
Proof.
  intros Hinv Hs. pose proof Hs as [(Hl & Hlu & Hu & He) _].
  destruct (runs_from_stored ec l0 u0 V A (Z.to_nat (ub s - lb s)) s Hinv Hs ltac:(lia))
    as [Hall _].
  destruct (Hall L) as (k & tr & Hr & Hk & _). exists k, tr. split; [done|].
  pose proof (runs_length _ _ _ _ _ Hr).
  pose proof (opt_bounds (eggs s) (ub s - lb s - 1) ltac:(lia)). lia.
Qed.

Lemma scan_choice_ready ec l0 u0 V A s :
  table_inv ec l0 u0 V A -> ready ec l0 s ->
  exists a, scan_choice fuel tb s V A = Ok (Some (value_of s, a)) /\ good_action s a.
Proof.
  intros Hinv Hr. pose proof Hr as ((Hl & Hlu & Hu & He) & He1 & Hw & _).
  destruct (kept_ready _ _ _ _ _ _ Hinv Hr) as [Hmin Hgood].
  destruct (scan_choice_some fuel tb s V A (value_of s)) as (a & Hc & Hin).
  - apply small_in_int. lia.
  - done.
  - intros _ [a v] Hp _. simpl. apply cut_sublist in Hp.
    apply (admissible_list_elem _ _ _ _ _ _ _ _ Hinv Hr) in Hp as (Ha & Hadm & _).
    apply total_loop_ok. intros l _. rewrite next_cases by done.
    rewrite (wrap_small (eggs s - 1)) by (apply eggs_in_int; lia).
    destruct (l <? a).
    + eapply runs_short; [done|]. by apply ready_break.
    + eapply runs_short; [done|]. by apply ready_hold.
  - exists a. split; [done|]. by apply Hgood.
Qed.

Lemma table_inv_ext ec l0 u0 ec' l0' u0' V A :
  (forall s, stored ec l0 u0 s <-> stored ec' l0' u0' s) ->
  table_inv ec l0 u0 V A -> table_inv ec' l0' u0' V A.
Proof.
  intros Hext [HV HAd HA]. split.
  - intros s. rewrite HV. destruct (decide (stored ec l0 u0 s)) as [Hs|Hs].
    + rewrite decide_True by by apply Hext. done.
    + rewrite decide_False by (intros Hs'; by apply Hs, Hext). done.
  - intros s Hs. destruct (HAd s Hs) as [Hst Hw]. split; [by apply Hext|done].
  - intros s Hs Hw. apply HA; [by apply Hext|done].
Qed.

(** No successor of a state visited so far is the state being visited. *)
Lemma next_not_position ec l0 u0 s a f :
  1 <= ec -> ready ec l0 s -> lb s < a < ub s ->
  next s a f <> mkState ec l0 u0.
Proof.
  intros Hec ((Hl & Hlu & Hu & He) & He1 & Hw & Hpos) Ha.
  rewrite next_cases by done.
  rewrite (wrap_small (eggs s - 1)) by (apply eggs_in_int; lia).
  destruct (f <? a); intros Heq; injection Heq; lia.
Qed.

Lemma scan_body_insert ec l0 u0 st :
  table_inv ec l0 u0 (tab_V st) (tab_A st) ->
  1 <= ec <= E -> 0 <= l0 -> l0 + 2 <= u0 <= F + 1 ->
  exists st', scan_body fuel tb ec l0 u0 st = Ok st' /\
    table_inv ec l0 (u0 + 1) (tab_V st') (tab_A st').
Proof.
  intros Hinv Hec Hl0 Hu0. set (s := mkState ec l0 u0).
  assert (~ stored ec l0 u0 s) as Hns.
  { unfold stored, s. simpl. lia. }
  assert (ready ec l0 s) as Hr.
  { unfold ready, in_table, s. simpl. lia. }
  assert (tab_V st !! s = None) as HV.
  { rewrite (inv_V _ _ _ _ _ _ _ _ _ Hinv). by rewrite decide_False. }
  assert (tab_A st !! s = None) as HA.
  { destruct (tab_A st !! s) eqn:HAs; [|done].
    destruct (inv_A_dom _ _ _ _ _ _ _ _ _ Hinv s) as [Hs _]; [by eexists|done]. }
  destruct (scan_choice_ready _ _ _ _ _ _ Hinv Hr) as (a & Hc & Hg).
  unfold scan_body. fold s. rewrite HV, Hc. cbn [bind].
  rewrite bool_decide_eq_false_2 by (intros [? ?]; done). cbn [andb].
  unfold umap_insert. rewrite HV, HA.
  eexists. split; [done|]. cbn [tab_V tab_A].
  assert (forall s', stored ec l0 (u0 + 1) s' <-> s' = s \/ stored ec l0 u0 s') as Hst.
  { intros s'.
    assert (s' = s <-> eggs s' = ec /\ lb s' = l0 /\ ub s' = u0) as ->.
    { unfold s. destruct s'; simpl. split; [intros [= -> -> ->]; done|].
      intros (-> & -> & ->). done. }
    unfold stored, in_table. lia. }
  assert (forall s', ready ec l0 s' ->
            forall a' f, lb s' < a' < ub s' ->
            tab_V st !! next s' a' f = <[s := value_of s]> (tab_V st) !! next s' a' f)
    as Hstable.
  { intros s' Hr' a' f Ha'. rewrite lookup_insert_ne; [done|].
    intros Heq. apply (next_not_position ec l0 u0 s' a' f); [lia|done|done|].
    by rewrite <- Heq. }
  assert (tab_A st ⊆ <[s := a]> (tab_A st)) as Hsub by by apply insert_subseteq.
  split.
  - intros s'. destruct (decide (s' = s)) as [->|Hne].
    + rewrite lookup_insert_eq. rewrite decide_True; [done|]. apply Hst. by left.
    + rewrite lookup_insert_ne by done. rewrite (inv_V _ _ _ _ _ _ _ _ _ Hinv).
      destruct (decide (stored ec l0 u0 s')) as [Hs|Hs].
      * rewrite decide_True; [done|]. apply Hst. by right.
      * rewrite decide_False; [done|]. intros Hs'. apply Hst in Hs' as [?|?]; done.
  - intros s' Hs'. destruct (decide (s' = s)) as [->|Hne].
    + split; [apply Hst; by left|]. unfold s. simpl. lia.
    + rewrite lookup_insert_ne in Hs' by done.
      destruct (inv_A_dom _ _ _ _ _ _ _ _ _ Hinv s' Hs') as [Hs Hw].
      split; [apply Hst; by right|done].
  - intros s' Hs' Hw. destruct (decide (s' = s)) as [->|Hne].
    + exists a. rewrite lookup_insert_eq. split; [done|]. split; [done|].
      eapply scan_choice_stable; [| |exact Hsub|exact Hc].
      * apply small_in_int. unfold s. simpl. lia.
      * by apply Hstable.
    + apply Hst in Hs' as [?|Hs]; [done|].
      destruct (inv_A _ _ _ _ _ _ _ _ _ Hinv s' Hs Hw) as (a' & HA' & Hg' & Hc').
      exists a'. rewrite lookup_insert_ne by done. split; [done|]. split; [done|].
      eapply scan_choice_stable; [| |exact Hsub|exact Hc'].
      * destruct Hs as [(? & ? & ? & ?) _]. apply small_in_int. lia.
      * apply Hstable. by eapply stored_ready.
Qed.

Lemma scan_body_skip ec l0 st :
  table_inv ec l0 (l0 + 1) (tab_V st) (tab_A st) ->
  1 <= ec <= E -> 0 <= l0 <= F ->
  scan_body fuel tb ec l0 (l0 + 1) st = Ok st /\
  table_inv ec l0 (l0 + 2) (tab_V st) (tab_A st).
Proof.
  intros Hinv Hec Hl0. split.
  - assert (stored ec l0 (l0 + 1) (mkState ec l0 (l0 + 1))) as Hs.
    { unfold stored, in_table. simpl. lia. }
    unfold scan_body. rewrite (inv_V _ _ _ _ _ _ _ _ _ Hinv).
    rewrite decide_True by done.
    rewrite bool_decide_eq_true_2 by by eexists.
    by rewrite (stored_terminal _ _ _ _ Hs).
  - eapply table_inv_ext; [|exact Hinv].
    intros s. unfold stored, in_table. lia.
Qed.

(** On the tables of a finished level a visit changes nothing. *)
Lemma scan_body_fixed ec st l u :
  table_inv (ec + 1) F (F + 1) (tab_V st) (tab_A st) ->
  1 <= ec <= E -> 0 <= l <= F -> l + 1 <= u <= F + 1 ->
  scan_body fuel tb ec l u st = Ok st.
Proof.
  intros Hinv Hec Hl Hu.
  assert (stored (ec + 1) F (F + 1) (mkState ec l u)) as Hs.
  { unfold stored, in_table. simpl. lia. }
  unfold scan_body. rewrite (inv_V _ _ _ _ _ _ _ _ _ Hinv).
  rewrite decide_True by done.
  rewrite bool_decide_eq_true_2 by by eexists.
  destruct (decide (u = l + 1)) as [Hw|Hw].
  - by rewrite (stored_terminal _ _ _ _ Hs).
  - rewrite (stored_nonterminal _ _ _ _ Hs) by (simpl; lia). cbn [andb].
    destruct (inv_A _ _ _ _ _ _ _ _ _ Hinv _ Hs) as (a & HA & _ & Hc); [simpl; lia|].
    rewrite Hc. cbn [bind]. rewrite Z.ltb_irrefl, Z.eqb_refl.
    unfold deref. rewrite HA. cbn [bind]. by rewrite Z.eqb_refl.
Qed.

Lemma scan_u_row ec l (n : nat) u0 st :
  table_inv ec l u0 (tab_V st) (tab_A st) ->
  1 <= ec <= E -> 0 <= l <= F -> l + 1 <= u0 -> u0 + Z.of_nat n = F + 2 ->
  exists st', scan_u fuel tb ec l (seqZ u0 (Z.of_nat n)) st = Ok st' /\
    table_inv ec l (F + 2) (tab_V st') (tab_A st').
Proof.
  revert u0 st. induction n as [|n IH]; intros u0 st Hinv Hec Hl Hu0 Hn.
  - exists st. split; [done|]. by replace (F + 2) with u0 by lia.
  - rewrite seqZ_cons by lia. cbn [scan_u].
    replace (Z.pred (Z.of_nat (S n))) with (Z.of_nat n) by lia.
    destruct (decide (u0 = l + 1)) as [->|Hne].
    + destruct (scan_body_skip ec l st Hinv Hec Hl) as [-> Hinv'].
      cbn [bind]. apply IH; [|done|done|lia|lia].
      by replace (Z.succ (l + 1)) with (l + 2) by lia.
    + destruct (scan_body_insert ec l u0 st Hinv Hec ltac:(lia) ltac:(lia))
        as (st' & -> & Hinv').
      cbn [bind]. apply IH; [|done|done|lia|lia].
      by replace (Z.succ u0) with (u0 + 1) by lia.
Qed.

Lemma scan_u_fixed ec l us st :
  table_inv (ec + 1) F (F + 1) (tab_V st) (tab_A st) ->
  1 <= ec <= E -> 0 <= l <= F -> Forall (fun u => l + 1 <= u <= F + 1) us ->
  scan_u fuel tb ec l us st = Ok st.
Proof.
  intros Hinv Hec Hl. induction 1 as [|u us Hu _ IH]; [done|].
  cbn [scan_u]. rewrite scan_body_fixed by done. done.
Qed.

Lemma row_bounds l :
  0 <= l <= F ->
  seqZ (wrap (l + 1)) (wrap (F + 1) - wrap (l + 1) + 1) = seqZ (l + 1) (F + 1 - l).
Proof.
  intros Hl. rewrite !wrap_small by (apply small_in_int; lia).
  f_equal. lia.
Qed.

Lemma reverse_seqZ_S (k : nat) :
  reverse (seqZ 0 (Z.of_nat (S k))) = Z.of_nat k :: reverse (seqZ 0 (Z.of_nat k)).
Proof. rewrite seqZ_S, reverse_app. done. Qed.

Lemma scan_l_rows ec (k : nat) st :
  table_inv ec (Z.of_nat k - 1) (Z.of_nat k) (tab_V st) (tab_A st) ->
  1 <= ec <= E -> Z.of_nat k <= F + 1 ->
  exists st', scan_l fuel tb F ec (reverse (seqZ 0 (Z.of_nat k))) st = Ok st' /\
    table_inv ec (-1) 0 (tab_V st') (tab_A st').
Proof.
  revert st. induction k as [|k IH]; intros st Hinv Hec Hk.
  - exists st. done.
  - rewrite reverse_seqZ_S. cbn [scan_l]. rewrite row_bounds by lia.
    replace (Z.of_nat (S k) - 1) with (Z.of_nat k) in Hinv by lia.
    replace (Z.of_nat (S k)) with (Z.of_nat k + 1) in Hinv by lia.
    destruct (scan_u_row ec (Z.of_nat k) (Z.to_nat (F + 1 - Z.of_nat k))
                (Z.of_nat k + 1) st Hinv Hec ltac:(lia) ltac:(lia) ltac:(lia))
      as (st' & Hrow & Hinv').
    rewrite Z2Nat.id in Hrow by lia. rewrite Hrow. cbn [bind].
    apply IH; [|done|lia].
    eapply table_inv_ext; [|exact Hinv'].
    intros s. unfold stored, in_table. lia.
Qed.

Lemma scan_l_fixed ec ls st :
  table_inv (ec + 1) F (F + 1) (tab_V st) (tab_A st) ->
  1 <= ec <= E -> Forall (fun l => 0 <= l <= F) ls ->
  scan_l fuel tb F ec ls st = Ok st.
Proof.
  intros Hinv Hec. induction 1 as [|l ls Hl _ IH]; [done|].
  cbn [scan_l]. rewrite row_bounds by done.
  rewrite scan_u_fixed; [done..|].
  apply Forall_seqZ. lia.
Qed.

Lemma single_scan_one e st :
  single_scan fuel F e e st tb
  = scan_l fuel tb F e (reverse (seqZ 0 (F + 1))) st.
Proof.
  unfold single_scan. replace (e - e + 1) with 1 by lia.
  change (seqZ e 1) with [e]. cbn [scan_e].
  by destruct (scan_l fuel tb F e (reverse (seqZ 0 (F + 1))) st).
Qed.

(** The first scan of a level fills it. *)
Lemma single_scan_first ec st :
  table_inv ec F (F + 1) (tab_V st) (tab_A st) -> 1 <= ec <= E ->
  exists st', single_scan fuel F ec ec st tb = Ok st' /\
    table_inv (ec + 1) F (F + 1) (tab_V st') (tab_A st').
Proof.
  intros Hinv Hec. rewrite single_scan_one.
  destruct (scan_l_rows ec (Z.to_nat (F + 1)) st) as (st' & Hscan & Hinv').
  - rewrite Z2Nat.id by lia. by replace (F + 1 - 1) with F by lia.
  - done.
  - lia.
  - rewrite Z2Nat.id in Hscan by lia. exists st'. split; [done|].
    eapply table_inv_ext; [|exact Hinv'].
    intros s. unfold stored, in_table. lia.
Qed.

(** A scan of a filled level makes no insertion and no modification. *)
Lemma single_scan_fixed ec st :
  table_inv (ec + 1) F (F + 1) (tab_V st) (tab_A st) -> 1 <= ec <= E ->
  single_scan fuel F ec ec st tb = Ok st.
Proof.
  intros Hinv Hec. rewrite single_scan_one. apply scan_l_fixed; [done..|].
  apply Forall_forall. intros l Hl. apply elem_of_reverse, elem_of_seqZ in Hl. lia.
Qed.

(** Two scans settle a level: the first fills it, the second changes
    nothing, and the loop of [main] stops at the first scan without edits. *)
Lemma level_loop_ok ec V A (scans : nat) :
  table_inv ec F (F + 1) V A -> 1 <= ec <= E -> (2 <= scans)%nat ->
  exists V' A' n, level_loop fuel scans F ec tb V A 0 = Ok (V', A', n) /\
    1 <= n <= 2 /\
    table_inv (ec + 1) F (F + 1) V' A' /\
    single_scan fuel F ec ec (mkScan V' A' 0 0) tb = Ok (mkScan V' A' 0 0).
Proof.
  intros Hinv Hec Hscans.
  destruct scans as [|[|scans]]; [lia..|].
  destruct (single_scan_first ec (mkScan V A 0 0) Hinv Hec) as (st1 & Hs1 & Hinv1).
  pose proof (single_scan_fixed ec (mkScan (tab_V st1) (tab_A st1) 0 0) Hinv1 Hec) as Hs2.
  cbn [level_loop]. rewrite Hs1. cbn [bind].
  destruct ((inserts st1 =? 0) && (modifies st1 =? 0)).
  - exists (tab_V st1), (tab_A st1), (wrap (0 + 1)). split; [done|].
    split; [by vm_compute|]. done.
  - rewrite Hs2. cbn [bind inserts modifies tab_V tab_A].
    exists (tab_V st1), (tab_A st1), (wrap (wrap (0 + 1) + 1)). split; [done|].
    split; [by vm_compute|]. done.
Qed.

Lemma levels_ok (n : nat) ec V A :
  table_inv ec F (F + 1) V A -> 1 <= ec -> ec + Z.of_nat n <= E + 1 ->
  exists V' A', levels fuel F tb (seqZ ec (Z.of_nat n)) V A = Ok (V', A') /\
    table_inv (ec + Z.of_nat n) F (F + 1) V' A'.
Proof.
  revert ec V A. induction n as [|n IH]; intros ec V A Hinv Hec Hn.
  - exists V, A. split; [done|]. by replace (ec + Z.of_nat 0) with ec by lia.
  - rewrite seqZ_cons by lia. cbn [levels].
    replace (Z.pred (Z.of_nat (S n))) with (Z.of_nat n) by lia.
    destruct (level_loop_ok ec V A fuel Hinv ltac:(lia) ltac:(lia))
      as (V' & A' & k & -> & _ & Hinv' & _).
    cbn [bind].
    replace (ec + Z.of_nat (S n)) with (Z.succ ec + Z.of_nat n) by lia.
    apply IH; [|lia|lia].
    by replace (Z.succ ec) with (ec + 1) by lia.
Qed.

(** *** The terminal entries *)

Lemma init_row_lookup e fs (V : gmap tState Z) s x :
  foldl (fun V f => umap_insert (mkState e f (wrap (f + 1))) 0 V) V fs !! s = Some x <->
  V !! s = Some x \/
  (V !! s = None /\ x = 0 /\ exists f, f ∈ fs /\ s = mkState e f (wrap (f + 1))).
Proof.
  revert V. induction fs as [|f fs IH]; intros V.
  - simpl. split; [by left|]. intros [?|(_ & _ & f & Hf & _)]; [done|].
    by apply elem_of_nil in Hf.
  - cbn [foldl]. rewrite IH. unfold umap_insert.
    destruct (V !! mkState e f (wrap (f + 1))) as [y|] eqn:Hk.
    + split.
      * intros [?|(Hn & Hx & g & Hg & ->)]; [by left|right].
        split; [done|]. split; [done|]. exists g. split; [|done].
        by apply list_elem_of_further.
      * intros [?|(Hn & Hx & g & Hg & ->)]; [by left|right].
        split; [done|]. split; [done|]. exists g. split; [|done].
        apply elem_of_cons in Hg as [->|Hg]; [congruence|done].
    + split.
      * intros [Hs|(Hn & Hx & g & Hg & ->)].
        -- destruct (decide (s = mkState e f (wrap (f + 1)))) as [->|Hne].
           ++ rewrite lookup_insert_eq in Hs. injection Hs as <-. right.
              split; [done|]. split; [done|]. exists f. split; [|done].
              apply list_elem_of_here.
           ++ rewrite lookup_insert_ne in Hs by done. by left.
        -- right. destruct (decide (mkState e g (wrap (g + 1)) = mkState e f (wrap (f + 1))))
             as [Heq|Hne].
           ++ rewrite Heq, lookup_insert_eq in Hn. done.
           ++ rewrite lookup_insert_ne in Hn by done.
              split; [done|]. split; [done|]. exists g. split; [|done].
              by apply list_elem_of_further.
      * intros [Hs|(Hn & Hx & g & Hg & ->)].
        -- left. rewrite lookup_insert_ne; [done|]. congruence.
        -- apply elem_of_cons in Hg as [->|Hg].
           ++ left. rewrite lookup_insert_eq. by subst x.
           ++ destruct (decide (mkState e g (wrap (g + 1)) = mkState e f (wrap (f + 1))))
                as [Heq|Hne].
              ** left. rewrite Heq, lookup_insert_eq. by subst x.
              ** right. rewrite lookup_insert_ne by done.
                 split; [done|]. split; [done|]. by exists g.
Qed.

Lemma init_lookup es fs (V : gmap tState Z) s x :
  foldl (fun V e =>
           foldl (fun V f => umap_insert (mkState e f (wrap (f + 1))) 0 V) V fs) V es
    !! s = Some x <->
  V !! s = Some x \/
  (V !! s = None /\ x = 0 /\
   exists e f, e ∈ es /\ f ∈ fs /\ s = mkState e f (wrap (f + 1))).
Proof.
  revert V. induction es as [|e es IH]; intros V.
  - simpl. split; [by left|]. intros [?|(_ & _ & e & f & He & _)]; [done|].
    by apply elem_of_nil in He.
  - cbn [foldl]. rewrite IH. split.
    + intros [Hs|(Hn & Hx & e' & f & He' & Hf & ->)].
      * apply init_row_lookup in Hs as [?|(Hn & Hx & f & Hf & ->)]; [by left|right].
        split; [done|]. split; [done|]. exists e, f. split; [apply list_elem_of_here|done].
      * right. split.
        { destruct (V !! mkState e' f (wrap (f + 1))) as [y|] eqn:Hy; [|done].
          assert (foldl (fun V f => umap_insert (mkState e f (wrap (f + 1))) 0 V) V fs
                    !! mkState e' f (wrap (f + 1)) = Some y) as Hc; [|congruence].
          apply init_row_lookup. by left. }
        split; [done|]. exists e', f. split; [by apply list_elem_of_further|done].
    + intros [Hs|(Hn & Hx & e' & f & He' & Hf & ->)].
      * left. apply init_row_lookup. by left.
      * apply elem_of_cons in He' as [->|He'].
        -- left. apply init_row_lookup. right.
           split; [done|]. split; [done|]. by exists f.
        -- destruct (foldl (fun V f => umap_insert (mkState e f (wrap (f + 1))) 0 V) V fs
                       !! mkState e' f (wrap (f + 1))) as [y|] eqn:Hy.
           ++ left. f_equal.
              apply init_row_lookup in Hy as [?|(_ & -> & _)]; [congruence|by subst x].
           ++ right. split; [done|]. split; [done|]. by exists e', f.
Qed.

Lemma initialize_terminal_entries_inv :
  table_inv 1 F (F + 1) (initialize_terminal_entries F E ∅) ∅.
Proof.
  assert (forall s, stored 1 F (F + 1) s <->
            exists e f, e ∈ seqZ 0 (E + 1) /\ f ∈ seqZ 0 (F + 1) /\
                        s = mkState e f (wrap (f + 1))) as Hst.
  { intros s. split.
    - intros [(Hl & Hlu & Hu & He) Hc]. exists (eggs s), (lb s).
      rewrite !elem_of_seqZ. split; [lia|]. split; [lia|].
      rewrite wrap_small by (apply small_in_int; lia).
      destruct s; simpl in *. f_equal. lia.
    - intros (e & f & He & Hf & ->). apply elem_of_seqZ in He, Hf.
      rewrite wrap_small by (apply small_in_int; lia).
      unfold stored, in_table. simpl. lia. }
  split.
  - intros s. unfold initialize_terminal_entries.
    destruct (decide (stored 1 F (F + 1) s)) as [Hs|Hs].
    + apply init_lookup. right. rewrite lookup_empty. split; [done|].
      split; [|by apply Hst].
      destruct Hs as [(Hl & Hlu & Hu & He) Hc].
      replace (ub s - lb s - 1) with 0 by lia. done.
    + match goal with |- ?m !! s = None => destruct (m !! s) as [x|] eqn:Hx end; [|done].
      apply init_lookup in Hx as [Hx|(_ & _ & Hex)]; [by rewrite lookup_empty in Hx|].
      by apply Hst in Hex.
  - intros s [x Hx]. by rewrite lookup_empty in Hx.
  - intros s [(Hl & Hlu & Hu & He) Hc] Hw. lia.
Qed.

(** The tables that [main] builds. *)
Lemma levels_app es1 es2 V A :
  levels fuel F tb (es1 ++ es2) V A
  = do p <- levels fuel F tb es1 V A; levels fuel F tb es2 p.1 p.2.
Proof.
  revert V A. induction es1 as [|e es1 IH]; intros V A; [done|].
  cbn [app levels].
  destruct (level_loop fuel fuel F e tb V A 0) as [[[V' A'] n]| | |]; [|done..].
  cbn [bind]. apply IH.
Qed.

Lemma build_tables_inv :
  exists V A, build_tables fuel F E tb = Ok (V, A) /\
    table_inv (E + 1) F (F + 1) V A.
Proof.
  unfold build_tables.
  destruct (levels_ok (Z.to_nat E) 1 _ _ initialize_terminal_entries_inv) as (V & A & Hl & Hinv);
    [lia|lia|].
  rewrite Z2Nat.id in Hl, Hinv by lia. exists V, A. split; [done|].
  by replace (E + 1) with (1 + E) by lia.
Qed.

(** Each level is settled by its own loop, within two scans. *)
Lemma build_level e :
  1 <= e <= E ->
  exists V0 A0 V1 A1 n,
    levels fuel F tb (seqZ 1 (e - 1)) (initialize_terminal_entries F E ∅) ∅ = Ok (V0, A0) /\
    level_loop fuel fuel F e tb V0 A0 0 = Ok (V1, A1, n) /\
    1 <= n <= 2 /\
    single_scan fuel F e e (mkScan V1 A1 0 0) tb = Ok (mkScan V1 A1 0 0) /\
    levels fuel F tb (seqZ 1 e) (initialize_terminal_entries F E ∅) ∅ = Ok (V1, A1).
Proof.
  intros He.
  destruct (levels_ok (Z.to_nat (e - 1)) 1 _ _ initialize_terminal_entries_inv)
    as (V0 & A0 & Hl & Hinv); [lia|lia|].
  rewrite Z2Nat.id in Hl, Hinv by lia. replace (1 + (e - 1)) with e in Hinv by lia.
  destruct (level_loop_ok e V0 A0 fuel Hinv He ltac:(lia))
    as (V1 & A1 & n & Hloop & Hn & _ & Hfix).
  exists V0, A0, V1, A1, n. split; [done|]. split; [done|]. split; [done|].
  split; [done|].
  replace e with ((e - 1) + 1) at 1 by lia. rewrite seqZ_app by lia.
  rewrite levels_app, Hl. cbn [bind fst snd].
  replace (1 + (e - 1)) with e by lia. change (seqZ e 1) with [e].
  cbn [levels]. rewrite Hloop. done.
Qed.

End Builder.

(** ** The classical recurrence as tabulated by classic_dpegg_limit *)

Section ClassicLimit.

Context (F E : Z).
Hypothesis HF : 1 <= F.
Hypothesis HF2 : 2 * F - 1 <= int_max.
Hypothesis HE : 1 <= E <= int_max.

Local Abbreviation reach_inv := (reach_inv F E).

Lemma reach_unfold d e :
  1 <= d -> 1 <= e ->
  reach (Z.to_nat d) (Z.to_nat e)
  = 1 + reach (Z.to_nat (d - 1)) (Z.to_nat (e - 1)) + reach (Z.to_nat (d - 1)) (Z.to_nat e).
Proof.
  intros Hd He.
  assert (Z.to_nat d = S (Z.to_nat (d - 1))) as -> by lia.
  assert (Z.to_nat e = S (Z.to_nat (e - 1))) as -> by lia.
  done.
Qed.

Lemma classic_inner_spec (n : nat) d e tbl :
  1 <= d <= F -> 1 <= e -> e + Z.of_nat n = E + 1 -> reach_inv d e tbl ->
  match Classic.inner F d (seqZ e (Z.of_nat n)) tbl with
  | inl r => r = d /\ F <= reach (Z.to_nat d) (Z.to_nat E)
  | inr tbl' => reach_inv (d + 1) 1 tbl'
  end.
Proof.
  revert e tbl. induction n as [|n IH]; intros e tbl Hd He Hn Hinv.
  - simpl. intros d' e' Hd' He' Hpos. apply Hinv; [done..|]. lia.
  - rewrite seqZ_cons by lia. cbn [Classic.inner].
    replace (Z.pred (Z.of_nat (S n))) with (Z.of_nat n) by lia.
    rewrite !(wrap_small (d - 1)), (wrap_small (e - 1))
      by in_range.
    destruct (Hinv (d - 1) (e - 1)) as [-> Hlt1]; [lia..|].
    destruct (Hinv (d - 1) e) as [-> Hlt2]; [lia..|].
    pose proof (reach_nonneg (Z.to_nat (d - 1)) (Z.to_nat (e - 1))).
    pose proof (reach_nonneg (Z.to_nat (d - 1)) (Z.to_nat e)).
    rewrite (wrap_small (1 + _)) by in_range.
    rewrite wrap_small by in_range.
    rewrite <- reach_unfold by lia.
    destruct (Z.leb_spec F (reach (Z.to_nat d) (Z.to_nat e))) as [Hge|Hlt].
    + split; [done|].
      pose proof (reach_mono_eggs (Z.to_nat d) (Z.to_nat e) (Z.to_nat E) ltac:(lia)). lia.
    + apply IH; [done|lia|lia|].
      intros d' e' Hd' He' Hpos. unfold Classic.reach_at.
      destruct (decide ((d', e') = (d, e))) as [[= -> ->]|Hne].
      * rewrite lookup_insert_eq. done.
      * rewrite lookup_insert_ne by done. apply Hinv; [done..|].
        assert (d' ≠ d \/ e' ≠ e) by (destruct (decide (d' = d)); [right; congruence|by left]).
        lia.
Qed.

Lemma classic_outer_spec (n : nat) d tbl :
  1 <= d -> d + Z.of_nat n = F + 1 -> reach_inv d 1 tbl ->
  Classic.outer F E (seqZ d (Z.of_nat n)) tbl = opt E F.
Proof.
  revert d tbl. induction n as [|n IH]; intros d tbl Hd Hn Hinv.
  - destruct (Hinv F E) as [_ Hlt]; [lia..|].
    pose proof (reach_ge_drops (Z.to_nat F) (Z.to_nat E) ltac:(lia)). lia.
  - rewrite seqZ_cons by lia. cbn [Classic.outer].
    replace (Z.pred (Z.of_nat (S n))) with (Z.of_nat n) by lia.
    pose proof (classic_inner_spec (Z.to_nat E) d 1 tbl ltac:(lia) ltac:(lia) ltac:(lia) Hinv)
      as Hin.
    rewrite Z2Nat.id in Hin by lia.
    destruct (Classic.inner F d (seqZ 1 E) tbl) as [r|tbl'].
    + destruct Hin as [-> Hge]. unfold opt.
      rewrite (optn_unique (Z.to_nat E) F (Z.to_nat d)); [lia|done|].
      intros d' Hd'. destruct (Hinv (Z.of_nat d') E) as [_ Hlt]; [lia..|].
      by rewrite Nat2Z.id in Hlt.
    + apply IH; [lia|lia|]. by replace (Z.succ d) with (d + 1) by lia.
Qed.

Lemma classic_init_zero (ks : list (Z * Z)) (tbl : gmap (Z * Z) Z) :
  (forall k v, tbl !! k = Some v -> v = 0) ->
  forall k v, foldl (fun r k => <[k := 0]> r) tbl ks !! k = Some v -> v = 0.
Proof.
  revert tbl. induction ks as [|k0 ks IH]; intros tbl Hz k v; [apply Hz|].
  simpl. apply IH. intros k' v'.
  destruct (decide (k0 = k')) as [->|Hne].
  - rewrite lookup_insert_eq. congruence.
  - rewrite lookup_insert_ne by done. apply Hz.
Qed.

Lemma foldl_insert_keys {T : Type} (f : T -> Z * Z) (l : list T) (tbl : gmap (Z * Z) Z) :
  foldl (fun r x => <[f x := 0]> r) tbl l = foldl (fun r k => <[k := 0]> r) tbl (f <$> l).
Proof. revert tbl. induction l as [|x l IH]; intros tbl; [done|]. simpl. apply IH. Qed.

(** [classic_dpegg_limit] returns the least [d] with [F <= reach d E]. *)
Lemma classic_dpegg_limit_spec : Classic.classic_dpegg_limit F E = opt E F.
Proof.
  unfold Classic.classic_dpegg_limit.
  set (tbl := foldl _ (foldl _ ∅ _) _).
  pose proof (classic_outer_spec (Z.to_nat F) 1 tbl ltac:(lia) ltac:(lia)) as Hout.
  rewrite Z2Nat.id in Hout by lia. apply Hout.
  intros d' e' Hd' He' Hpos.
  assert (reach (Z.to_nat d') (Z.to_nat e') = 0) as ->.
  { destruct (decide (e' = 0)) as [->|?]; [apply reach_zero_eggs|].
    by replace d' with 0 by lia. }
  split; [|lia]. unfold Classic.reach_at.
  destruct (tbl !! (d', e')) as [v|] eqn:Hv; [|done].
  simpl. revert Hv. unfold tbl.
  rewrite (foldl_insert_keys (fun d => (d, 0))), (foldl_insert_keys (fun e => (0, e))).
  apply classic_init_zero. apply classic_init_zero. intros k v'. by rewrite lookup_empty.
Qed.

End ClassicLimit.

(** ** The finished tables *)

Section Finished.

Context (F E : Z) (fuel : nat) (tb : bool) (V A : gmap tState Z).
Hypothesis HF : 1 <= F < int_max.
Hypothesis HE : 1 <= E < int_max.
Hypothesis Hfuel : F + 1 <= Z.of_nat fuel.
Hypothesis Hinv : table_inv fuel tb F E (E + 1) F (F + 1) V A.

Local Abbreviation value_of s := (opt (eggs s) (ub s - lb s - 1)).

Lemma finished_stored s :
  stored F E (E + 1) F (F + 1) s <-> in_table F E s /\ (ub s = lb s + 1 \/ 1 <= eggs s).
Proof. unfold stored, in_table. lia. Qed.

Lemma finished_lookup e l u :
  1 <= e <= E -> 0 <= l -> l < u <= F + 1 ->
  V !! mkState e l u = Some (opt e (u - l - 1)).
Proof.
  intros He Hl Hu. rewrite (inv_V _ _ _ _ _ _ _ _ _ Hinv).
  rewrite decide_True; [done|]. apply finished_stored. unfold in_table. simpl. lia.
Qed.

Lemma finished_terminal e f :
  0 <= e <= E -> 0 <= f <= F -> V !! mkState e f (f + 1) = Some 0.
Proof.
  intros He Hf. rewrite (inv_V _ _ _ _ _ _ _ _ _ Hinv).
  rewrite decide_True; [|apply finished_stored; unfold in_table; simpl; lia].
  simpl. replace (f + 1 - f - 1) with 0 by lia. done.
Qed.

Lemma finished_lookup_inv s v :
  V !! s = Some v ->
  stored F E (E + 1) F (F + 1) s /\ v = value_of s.
Proof.
  rewrite (inv_V _ _ _ _ _ _ _ _ _ Hinv).
  destruct (decide _) as [Hs|]; [|done]. intros [= <-]. done.
Qed.

Lemma finished_run e L :
  1 <= e <= E ->
  exists k tr, runs A L (mkState e 0 (F + 1)) k tr /\
    0 <= k <= opt e F /\ Forall (fun a => 0 < a < F + 1) tr /\
    run_policy_once fuel F e L A (Some []) = Ok (k, Some tr).
Proof.
  intros He.
  assert (stored F E (E + 1) F (F + 1) (mkState e 0 (F + 1))) as Hs.
  { apply finished_stored. unfold in_table. simpl. lia. }
  destruct (runs_from_stored F E HF HE fuel tb (E + 1) F (F + 1) V A
              (Z.to_nat (F + 1)) _ Hinv Hs ltac:(simpl; lia)) as [Hall _].
  destruct (Hall L) as (k & tr & Hr & Hk & Htr). simpl in Hk, Htr.
  replace (F + 1 - 0 - 1) with F in Hk by lia.
  exists k, tr. split; [done|]. split; [done|]. split; [done|].
  unfold run_policy_once. simpl.
  rewrite wrap_small by in_range.
  pose proof (runs_length _ _ _ _ _ Hr).
  pose proof (opt_bounds e F ltac:(lia)).
  rewrite (policy_loop_runs _ _ _ _ _ _ _ _ Hr)
    by (try lia; in_range).
  simpl. rewrite wrap_small by in_range. done.
Qed.

Lemma finished_worst e :
  1 <= e <= E ->
  exists L tr, 0 <= L <= F /\
    run_policy_once fuel F e L A (Some []) = Ok (opt e F, Some tr).
Proof.
  intros He.
  assert (stored F E (E + 1) F (F + 1) (mkState e 0 (F + 1))) as Hs.
  { apply finished_stored. unfold in_table. simpl. lia. }
  destruct (runs_from_stored F E HF HE fuel tb (E + 1) F (F + 1) V A
              (Z.to_nat (F + 1)) _ Hinv Hs ltac:(simpl; lia)) as [_ Hworst].
  destruct Hworst as (L & k & tr & HL & Hr & Hk). simpl in HL, Hk.
  replace (F + 1 - 0 - 1) with F in Hk by lia.
  destruct (finished_run e L He) as (k' & tr' & Hr' & _ & _ & Hrun).
  destruct (runs_deterministic _ _ _ _ _ _ _ Hr Hr') as [<- <-].
  exists L, tr. split; [lia|]. by rewrite <- Hk.
Qed.

End Finished.

(** ** The verifier *)

Lemma bump_all_ok d tr :
  Forall (fun a => 0 <= a < Z.of_nat (length d)) tr ->
  exists d', bump_all d tr = Ok d' /\ length d' = length d.
Proof.
  revert d. induction tr as [|a tr IH]; intros d Htr; [by exists d|].
  apply Forall_cons in Htr as [Ha Htr]. simpl.
  destruct (Z.ltb_spec a 0); [lia|].
  destruct (lookup_lt_is_Some_2 d (Z.to_nat a) ltac:(lia)) as [c Hc].
  unfold vec_at. rewrite Hc. cbn [bind].
  destruct (IH (<[Z.to_nat a := wrap (c + 1)]> d)) as (d' & Hd' & Hlen).
  - by rewrite length_insert.
  - exists d'. split; [done|]. by rewrite Hlen, length_insert.
Qed.

Lemma check_loop_spec fuel F e A v ls acc :
  (forall l, l ∈ ls -> exists k tr,
      run_policy_once fuel F e l A (Some []) = Ok (k, Some tr) /\
      0 <= k <= v /\ Forall (fun a => 0 < a < F + 1) tr) ->
  (forall d, acc_D acc = Some d -> Z.of_nat (length d) = F + 1) ->
  exists acc', check_loop fuel F e A ls acc = Ok acc' /\
    max_steps acc <= max_steps acc' /\
    (max_steps acc <= v -> max_steps acc' <= v) /\
    (forall l k q, l ∈ ls ->
       run_policy_once fuel F e l A (Some []) = Ok (k, q) -> k <= max_steps acc').
Proof.
  revert acc. induction ls as [|l ls IH]; intros acc Hruns HD.
  - exists acc. split; [done|]. split; [lia|]. split; [done|].
    intros l k q Hl. by apply elem_of_nil in Hl.
  - destruct (Hruns l) as (k & tr & Hrun & Hk & Htr); [apply list_elem_of_here|].
    cbn [check_loop]. rewrite Hrun. cbn [bind].
    set (mx := if max_steps acc <? k then k else max_steps acc).
    assert (exists D', match acc_D acc with
                       | None => Ok None
                       | Some d => do d' <- bump_all d (default [] (Some tr)); Ok (Some d')
                       end = Ok D' /\
              forall d, D' = Some d -> Z.of_nat (length d) = F + 1) as (D' & -> & HD').
    { destruct (acc_D acc) as [d|] eqn:Hd; [|by exists None].
      change (default [] (Some tr)) with tr.
      destruct (bump_all_ok d tr) as (d' & Hb & Hlen).
      - eapply Forall_impl; [exact Htr|]. simpl. intros a Ha.
        rewrite (HD d eq_refl). lia.
      - exists (Some d'). rewrite Hb. split; [done|].
        intros d'' [= <-]. rewrite Hlen. by apply HD. }
    cbn [bind].
    destruct (IH (mkAcc mx (wrap (sum_steps acc + k)) D'
                        ((fun h => <[k := wrap (default 0 (h !! k) + 1)]> h) <$> acc_H acc)))
      as (acc' & Hloop & Hge & Hle & Hall).
    + intros l' Hl'. apply Hruns. by apply list_elem_of_further.
    + done.
    + exists acc'. split; [done|]. cbn [max_steps] in Hge, Hle.
      assert (max_steps acc <= mx /\ k <= mx /\ (max_steps acc <= v -> mx <= v)) as (? & ? & ?).
      { unfold mx. destruct (Z.ltb_spec (max_steps acc) k); lia. }
      split; [lia|]. split; [auto|].
      intros l' k' q Hl' Hrun'. apply elem_of_cons in Hl' as [->|Hl'].
      * rewrite Hrun in Hrun'. injection Hrun' as <- _. lia.
      * by eapply Hall.
Qed.

(** * The claims *)

(** ** The round trip of the verifier *)

(** C1.  For every valid instance and every egg level [e] in [1 .. E],
    [check_policy] on the tables that [main] has built returns true: the
    largest step count of [run_policy_once] over the thresholds
    [0 .. F], which it reports as [max_drops], is the value stored for
    [(e, 0, F + 1)]. *)
Theorem check_policy_round_trip (F E : Z) (tb : bool) (fuel : nat) (e : Z)
    (D : option (list Z)) (H : option (gmap Z Z)) :
  valid_instance F E -> F + 1 <= Z.of_nat fuel -> 1 <= e <= E ->
  exists V A out,
    build_tables fuel F E tb = Ok (V, A) /\
    check_policy fuel F e V A D H = Ok out /\
    looks_ok out = true /\
    V !! mkState e 0 (F + 1) = Some (max_drops out) /\
    (forall L, 0 <= L <= F -> exists k tr,
       run_policy_once fuel F e L A (Some []) = Ok (k, Some tr) /\ k <= max_drops out) /\
    (exists L tr, 0 <= L <= F /\
       run_policy_once fuel F e L A (Some []) = Ok (max_drops out, Some tr)).
Proof.
  intros [HF HE]%valid_instance_range Hfuel He.
  destruct (build_tables_inv F E HF HE fuel tb Hfuel) as (V & A & Hb & Hinv).
  pose proof (finished_lookup F E fuel tb V A Hinv e 0 (F + 1) He ltac:(lia) ltac:(lia)) as HV.
  replace (F + 1 - 0 - 1) with F in HV by lia.
  pose proof (opt_bounds e F ltac:(lia)) as Hopt.
  destruct (finished_worst F E fuel tb V A HF HE Hfuel Hinv e He) as (Lw & trw & HLw & Hrunw).
  destruct (check_loop_spec fuel F e A (opt e F) (seqZ 0 (F + 1))
              (mkAcc 0 0 ((fun _ => (fun _ => 0) <$> seqZ 0 (F + 1)) <$> D)
                     ((fun _ => ∅) <$> H)))
    as (acc & Hloop & Hge & Hle & Hall).
  { intros l _.
    destruct (finished_run F E fuel tb V A HF HE Hfuel Hinv e l He)
      as (k & tr & _ & Hk & Htr & Hrun).
    by exists k, tr. }
  { simpl. intros d Hd. destruct D; [|done]. injection Hd as <-.
    rewrite length_fmap, length_seqZ. lia. }
  simpl in Hle, Hge.
  assert (max_steps acc = opt e F) as Hmax.
  { pose proof (Hall Lw _ _ ltac:(apply elem_of_seqZ; lia) Hrunw). lia. }
  exists V, A. eexists. split; [done|].
  unfold check_policy. rewrite wrap_small by in_range.
  unfold deref. rewrite HV. cbn [bind]. rewrite Hloop. cbn [bind].
  split; [done|]. cbn [looks_ok max_drops]. rewrite Hmax.
  split; [apply Z.eqb_refl|]. split; [done|]. split.
  - intros L HL.
    destruct (finished_run F E fuel tb V A HF HE Hfuel Hinv e L He)
      as (k & tr & _ & Hk & _ & Hrun).
    exists k, tr. split; [done|lia].
  - by exists Lw, trw.
Qed.

Lemma check_policy_round_trip_witness :
  valid_instance 3 2 /\ 3 + 1 <= Z.of_nat 4 /\ 1 <= 2 <= 2 /\
  exists V A out,
    build_tables 4 3 2 false = Ok (V, A) /\
    check_policy 4 3 2 V A (Some []) (Some ∅) = Ok out /\
    looks_ok out = true /\
    V !! mkState 2 0 (3 + 1) = Some (max_drops out) /\
    (forall L, 0 <= L <= 3 -> exists k tr,
       run_policy_once 4 3 2 L A (Some []) = Ok (k, Some tr) /\ k <= max_drops out) /\
    (exists L tr, 0 <= L <= 3 /\
       run_policy_once 4 3 2 L A (Some []) = Ok (max_drops out, Some tr)).
Proof.
  assert (valid_instance 3 2) as Hv by in_range.
  split; [exact Hv|]. split; [lia|]. split; [lia|].
  apply (check_policy_round_trip 3 2 false 4 2 (Some []) (Some ∅) Hv); lia.
Defined.

(** ** Agreement with the classical recurrence *)

(** C2.  For every valid instance the value that the finished table
    holds for [(E, 0, F + 1)] is the result of [classic_dpegg_limit F E],
    the least [d] whose reach [1 + reach (d-1) (E-1) + reach (d-1) E]
    attains [F]. *)
Theorem table_agrees_with_classic (F E : Z) (tb : bool) (fuel : nat) :
  valid_instance F E -> 2 * F - 1 <= int_max -> F + 1 <= Z.of_nat fuel ->
  exists V A,
    build_tables fuel F E tb = Ok (V, A) /\
    V !! mkState E 0 (F + 1) = Some (Classic.classic_dpegg_limit F E) /\
    1 <= Classic.classic_dpegg_limit F E <= F /\
    F <= reach (Z.to_nat (Classic.classic_dpegg_limit F E)) (Z.to_nat E) /\
    (forall d, (d < Z.to_nat (Classic.classic_dpegg_limit F E))%nat ->
       reach d (Z.to_nat E) < F).
Proof.
  intros [HF HE]%valid_instance_range HF2 Hfuel.
  destruct (build_tables_inv F E HF HE fuel tb Hfuel) as (V & A & Hb & Hinv).
  exists V, A. split; [done|].
  rewrite (classic_dpegg_limit_spec F E) by lia.
  pose proof (finished_lookup F E fuel tb V A Hinv E 0 (F + 1) ltac:(lia) ltac:(lia) ltac:(lia))
    as HV.
  replace (F + 1 - 0 - 1) with F in HV by lia.
  split; [done|].
  pose proof (opt_bounds E F ltac:(lia)) as Hb'.
  pose proof (optn_reaches (Z.to_nat E) F ltac:(lia) ltac:(lia)) as Hr.
  unfold opt in *. rewrite Nat2Z.id.
  split; [|split; [done|]].
  - split; [|lia].
    destruct (optn (Z.to_nat E) F) as [|d] eqn:Hd; [simpl in Hr; lia|lia].
  - intros d Hd. by apply optn_below.
Qed.

Lemma table_agrees_with_classic_witness :
  valid_instance 10 2 /\ 2 * 10 - 1 <= int_max /\ 10 + 1 <= Z.of_nat 11 /\
  exists V A,
    build_tables 11 10 2 false = Ok (V, A) /\
    V !! mkState 2 0 (10 + 1) = Some (Classic.classic_dpegg_limit 10 2) /\
    1 <= Classic.classic_dpegg_limit 10 2 <= 10 /\
    10 <= reach (Z.to_nat (Classic.classic_dpegg_limit 10 2)) (Z.to_nat 2) /\
    (forall d, (d < Z.to_nat (Classic.classic_dpegg_limit 10 2))%nat ->
       reach d (Z.to_nat 2) < 10).
Proof.
  assert (valid_instance 10 2) as Hv by in_range.
  assert (2 * 10 - 1 <= int_max) as Hr by in_range.
  split; [exact Hv|]. split; [exact Hr|]. split; [lia|].
  apply (table_agrees_with_classic 10 2 false 11 Hv Hr). lia.
Defined.

(** ** The optimality equation of the finished table *)

(** The worst case of a probe of a stored state in the finished table. *)
Lemma finished_worst_case F E fuel tb V A s p w :
  1 <= F < int_max -> 1 <= E < int_max ->
  table_inv fuel tb F E (E + 1) F (F + 1) V A ->
  stored F E (E + 1) F (F + 1) s -> lb s + 2 <= ub s -> lb s < p < ub s ->
  worst_case V s p w <->
  (2 <= eggs s \/ p = lb s + 1) /\ 1 + w = worst_after s p.
Proof.
  intros HF HE Hinv Hs Hw Hp.
  pose proof (stored_ready F E _ _ _ _ Hs Hw) as Hr.
  pose proof Hr as ((Hl & Hlu & Hu & He) & He1 & _ & _).
  assert (forall f, next s p f = if f <? p then mkState (eggs s - 1) (lb s) p
                                 else mkState (eggs s) p (ub s)) as Hnext.
  { intros f. rewrite next_cases by done.
    by rewrite (wrap_small (eggs s - 1)) by in_range. }
  pose proof (ready_break F E (E + 1) F (F + 1) s p Hr Hp) as Hb.
  pose proof (ready_hold F E (E + 1) F (F + 1) s p Hr Hp) as Hh.
  assert (V !! mkState (eggs s) p (ub s) = Some (opt (eggs s) (ub s - p - 1))) as HVh.
  { rewrite (inv_V _ _ _ _ _ _ _ _ _ Hinv). by rewrite decide_True. }
  unfold worst_case, worst_after. split.
  - intros [Hall (f0 & Hf0 & HVf0)].
    destruct (Hall (lb s) ltac:(lia)) as (vb & HVb & Hvb).
    destruct (Hall p ltac:(lia)) as (vh & HVh' & Hvh).
    rewrite Hnext in HVb, HVh', HVf0.
    destruct (Z.ltb_spec (lb s) p); [|lia]. destruct (Z.ltb_spec p p); [lia|].
    rewrite (inv_V _ _ _ _ _ _ _ _ _ Hinv) in HVb.
    destruct (decide (stored F E (E + 1) F (F + 1) (mkState (eggs s - 1) (lb s) p)))
      as [Hsb|]; [|done].
    simpl in HVb. injection HVb as <-. rewrite HVh in HVh'. injection HVh' as <-.
    split; [by apply Hb|].
    destruct (f0 <? p).
    + rewrite (inv_V _ _ _ _ _ _ _ _ _ Hinv), decide_True in HVf0 by done.
      simpl in HVf0. injection HVf0 as <-. lia.
    + rewrite HVh in HVf0. injection HVf0 as <-. lia.
  - intros [Hadm Hval].
    assert (V !! mkState (eggs s - 1) (lb s) p = Some (opt (eggs s - 1) (p - lb s - 1))) as HVb.
    { rewrite (inv_V _ _ _ _ _ _ _ _ _ Hinv). rewrite decide_True by by apply Hb. done. }
    split.
    + intros f Hf. rewrite Hnext. destruct (f <? p); eexists; (split; [done|lia]).
    + destruct (Z.le_ge_cases (opt (eggs s) (ub s - p - 1)) (opt (eggs s - 1) (p - lb s - 1))).
      * exists (lb s). split; [lia|]. rewrite Hnext.
        destruct (Z.ltb_spec (lb s) p); [|lia]. rewrite HVb. f_equal. lia.
      * exists p. split; [lia|]. rewrite Hnext.
        destruct (Z.ltb_spec p p); [lia|]. rewrite HVh. f_equal. lia.
Qed.

(** C3.  The finished value table holds 0 for every terminal state
    [(e, f, f + 1)], and the value of every other stored state is one more
    than the least, over the probes whose successors are all stored, of
    the largest successor value. *)
Theorem finished_table_bellman (F E : Z) (tb : bool) (fuel : nat) :
  valid_instance F E -> F + 1 <= Z.of_nat fuel ->
  exists V A,
    build_tables fuel F E tb = Ok (V, A) /\
    (forall e f, 0 <= e <= E -> 0 <= f <= F ->
       V !! mkState e f (f + 1) = Some 0) /\
    (forall s v, V !! s = Some v -> isterminal s = false -> bellman V s v).
Proof.
  intros [HF HE]%valid_instance_range Hfuel.
  destruct (build_tables_inv F E HF HE fuel tb Hfuel) as (V & A & Hb & Hinv).
  exists V, A. split; [done|]. split.
  - intros e f He Hf. by apply (finished_terminal F E fuel tb V A Hinv).
  - intros s v HV Hnt.
    destruct (finished_lookup_inv F E fuel tb V A Hinv s v HV) as [Hs ->].
    assert (lb s + 2 <= ub s) as Hw.
    { destruct (decide (ub s = lb s + 1)) as [Hw|Hw].
      - rewrite (stored_terminal F E HF _ _ _ _ Hs Hw) in Hnt. done.
      - destruct Hs as [(? & ? & ? & ?) _]. lia. }
    assert (1 <= eggs s) as He1.
    { destruct Hs as [_ [?|[? _]]]; lia. }
    split.
    + destruct (opt_bellman_attained (eggs s) (lb s) (ub s) He1 Hw) as (a & Ha & Hadm & Hle).
      pose proof (opt_bellman_lower (eggs s) (lb s) (ub s) a He1 Ha Hadm) as Hge.
      exists a, (worst_after s a - 1). split; [done|]. split.
      * apply (finished_worst_case F E fuel tb V A s a _ HF HE Hinv Hs Hw Ha).
        split; [done|lia].
      * unfold worst_after. lia.
    + intros p w Hp Hwc.
      apply (finished_worst_case F E fuel tb V A s p w HF HE Hinv Hs Hw Hp) in Hwc
        as [Hadm Hval].
      rewrite Hval. unfold worst_after. by apply opt_bellman_lower.
Qed.

Lemma finished_table_bellman_witness :
  valid_instance 4 2 /\ 4 + 1 <= Z.of_nat 5 /\
  exists V A,
    build_tables 5 4 2 false = Ok (V, A) /\
    (forall e f, 0 <= e <= 2 -> 0 <= f <= 4 ->
       V !! mkState e f (f + 1) = Some 0) /\
    (forall s v, V !! s = Some v -> isterminal s = false -> bellman V s v).
Proof.
  assert (valid_instance 4 2) as Hv by in_range.
  split; [exact Hv|]. split; [lia|].
  apply (finished_table_bellman 4 2 false 5 Hv). lia.
Defined.

(** ** Failed lookups *)

Lemma policy_loop_not_fatal fuel L A s steps aseq :
  policy_loop fuel L A s steps aseq <> Fatal.
Proof.
  revert s steps aseq. induction fuel as [|fuel IH]; intros s steps aseq; [done|].
  simpl. destruct (isterminal s); [done|].
  unfold deref. destruct (A !! s); [apply IH|done].
Qed.

Lemma total_loop_not_fatal fuel s a A ls tot :
  total_loop fuel s a A ls tot <> Fatal.
Proof.
  revert tot. induction ls as [|l ls IH]; intros tot; [done|].
  simpl. pose proof (policy_loop_not_fatal fuel l A (next s a l) 1 None) as Hp.
  destruct (policy_loop fuel l A (next s a l) 1 None) as [[k q]| | |]; try done.
  apply IH.
Qed.

Lemma policy_loop_arrives fuel L A s n s' steps aseq :
  arrives A L s n s' -> isterminal s' = false -> A !! s' = None ->
  (n < fuel)%nat ->
  policy_loop fuel L A s steps aseq = Undefined.
Proof.
  intros Harr Ht Hnone. revert fuel steps aseq.
  induction Harr as [s|s a n s' Hts Ha Harr IH]; intros fuel steps aseq Hfuel.
  - destruct fuel as [|fuel]; [lia|]. by apply policy_loop_undefined.
  - destruct fuel as [|fuel]; [lia|]. simpl. rewrite Hts. unfold deref. rewrite Ha.
    cbn [bind]. rewrite eggdrop_next. apply IH; [done..|lia].
Qed.

Lemma total_loop_undefined fuel s a A ls1 l ls2 tot n s' :
  (forall l', l' ∈ ls1 ->
     exists k tr, runs A l' (next s a l') k tr /\ (length tr < fuel)%nat) ->
  arrives A l (next s a l) n s' -> isterminal s' = false -> A !! s' = None ->
  (n < fuel)%nat ->
  total_loop fuel s a A (ls1 ++ l :: ls2) tot = Undefined.
Proof.
  intros Hpre Harr Ht Hnone Hfuel. revert tot Hpre.
  induction ls1 as [|l1 ls1 IH]; intros tot Hpre.
  - simpl. by rewrite (policy_loop_arrives _ _ _ _ _ _ _ _ Harr Ht Hnone Hfuel).
  - cbn [app total_loop].
    destruct (Hpre l1) as (k & tr & Hr & Hlen); [apply list_elem_of_here|].
    rewrite (policy_loop_runs _ _ _ _ _ _ _ _ Hr Hlen)
      by in_range.
    cbn [bind]. apply IH. intros l' Hl'. apply Hpre. by apply list_elem_of_further.
Qed.

Lemma finished_total F E fuel tb V A s a :
  1 <= F < int_max -> 1 <= E < int_max -> F + 1 <= Z.of_nat fuel ->
  table_inv fuel tb F E (E + 1) F (F + 1) V A ->
  stored F E (E + 1) F (F + 1) s -> lb s + 2 <= ub s ->
  lb s < a < ub s -> (2 <= eggs s \/ a = lb s + 1) ->
  exists t, total_policy_at fuel s a A = Ok t.
Proof.
  intros HF HE Hfuel Hinv Hs Hw Ha Hadm.
  pose proof (stored_ready F E _ _ _ _ Hs Hw) as Hr.
  pose proof Hr as ((Hl & Hlu & Hu & He) & He1 & _ & _).
  apply total_loop_ok. intros l _. rewrite next_cases by done.
  rewrite (wrap_small (eggs s - 1)) by in_range.
  destruct (l <? a).
  - eapply (runs_short F E HF HE fuel tb Hfuel); [done|].
    by apply (ready_break F E (E + 1) F (F + 1) s a Hr Ha).
  - eapply (runs_short F E HF HE fuel tb Hfuel); [done|]. by apply ready_hold.
Qed.

(** The claim of C4 fails on the source: a run that meets a non-terminal
    state without an entry in [A] is not aborted, it dereferences the end
    iterator.  With an empty table this happens at the first lookup of
    [run_policy_once] and at the threshold 1 of [total_policy_at]; with
    the single entry [(1, 0, 3) -> 1] it happens after one drop. *)
Lemma missing_action_not_fatal :
  isterminal (mkState 1 0 (wrap (1 + 1))) = false /\
  (∅ : gmap tState Z) !! mkState 1 0 (wrap (1 + 1)) = None /\
  run_policy_once 2 1 1 0 ∅ None = Undefined /\
  run_policy_once 2 1 1 0 ∅ None <> Fatal /\
  isterminal (next (mkState 2 0 3) 1 1) = false /\
  (∅ : gmap tState Z) !! next (mkState 2 0 3) 1 1 = None /\
  total_policy_at 2 (mkState 2 0 3) 1 ∅ = Undefined /\
  total_policy_at 2 (mkState 2 0 3) 1 ∅ <> Fatal /\
  run_policy_once 3 2 1 1 {[mkState 1 0 3 := 1]} (Some []) = Undefined /\
  run_policy_once 3 2 1 1 {[mkState 1 0 3 := 1]} (Some []) <> Fatal.
Proof. repeat split; done. Qed.

(** C4, amended.  A run of [run_policy_once] or [total_policy_at] that
    arrives at a non-terminal state without an entry in [A] dereferences
    the result of the failed lookup: its outcome is [Undefined], and
    neither function ever ends with a fatal error.  On the tables built
    for a valid instance every lookup of these runs succeeds. *)
Theorem missing_action_is_undefined :
  (forall fuel F E L A aseq n s',
     arrives A L (mkState E 0 (wrap (F + 1))) n s' ->
     isterminal s' = false -> A !! s' = None -> (n < fuel)%nat ->
     run_policy_once fuel F E L A aseq = Undefined) /\
  (forall fuel snaught action A ls1 l ls2 n s',
     seqZ (lb snaught) (ub snaught - lb snaught) = ls1 ++ l :: ls2 ->
     (forall l', l' ∈ ls1 ->
        exists k tr, runs A l' (next snaught action l') k tr /\ (length tr < fuel)%nat) ->
     arrives A l (next snaught action l) n s' ->
     isterminal s' = false -> A !! s' = None -> (n < fuel)%nat ->
     total_policy_at fuel snaught action A = Undefined) /\
  (forall fuel F E L A aseq snaught action,
     run_policy_once fuel F E L A aseq <> Fatal /\
     total_policy_at fuel snaught action A <> Fatal) /\
  (forall F E tb fuel,
     valid_instance F E -> F + 1 <= Z.of_nat fuel ->
     exists V A,
       build_tables fuel F E tb = Ok (V, A) /\
       (forall e L aseq, 1 <= e <= E ->
          exists r, run_policy_once fuel F e L A aseq = Ok r) /\
       (forall s v a, V !! s = Some v -> isterminal s = false ->
          lb s < a < ub s -> (2 <= eggs s \/ a = lb s + 1) ->
          exists t, total_policy_at fuel s a A = Ok t)).
Proof.
  split; [|split; [|split]].
  - intros fuel F E L A aseq n s' Harr Ht Hnone Hfuel.
    by apply (policy_loop_arrives _ _ _ _ _ _ _ _ Harr).
  - intros fuel snaught action A ls1 l ls2 n s' Hls Hpre Harr Ht Hnone Hfuel.
    unfold total_policy_at. rewrite Hls. by eapply total_loop_undefined.
  - intros fuel F E L A aseq snaught action. split.
    + apply policy_loop_not_fatal.
    + apply total_loop_not_fatal.
  - intros F E tb fuel [HF HE]%valid_instance_range Hfuel.
    destruct (build_tables_inv F E HF HE fuel tb Hfuel) as (V & A & Hb & Hinv).
    exists V, A. split; [done|]. split.
    + intros e L aseq He.
      destruct (finished_run F E fuel tb V A HF HE Hfuel Hinv e L He)
        as (k & tr & Hr & Hk & _ & _).
      unfold run_policy_once.
      rewrite wrap_small by in_range.
      pose proof (runs_length _ _ _ _ _ Hr).
      pose proof (opt_bounds e F ltac:(lia)).
      rewrite (policy_loop_runs _ _ _ _ _ _ _ _ Hr)
        by (try lia; in_range).
      by eexists.
    + intros s v a HV Hnt Ha Hadm.
      destruct (finished_lookup_inv F E fuel tb V A Hinv s v HV) as [Hs _].
      assert (lb s + 2 <= ub s) as Hw.
      { destruct (decide (ub s = lb s + 1)) as [Hw|Hw].
        - rewrite (stored_terminal F E HF _ _ _ _ Hs Hw) in Hnt. done.
        - destruct Hs as [(? & ? & ? & ?) _]. lia. }
      apply (finished_total F E fuel tb V A s a HF HE Hfuel Hinv Hs Hw Ha Hadm).
Qed.

Lemma missing_action_is_undefined_witness :
  (arrives ∅ 0 (mkState 1 0 (wrap (1 + 1))) 0 (mkState 1 0 2) /\
   isterminal (mkState 1 0 2) = false /\
   (∅ : gmap tState Z) !! mkState 1 0 2 = None /\
   run_policy_once 2 1 1 0 ∅ None = Undefined) /\
  (seqZ (lb (mkState 2 0 3)) (ub (mkState 2 0 3) - lb (mkState 2 0 3)) = [0] ++ 1 :: [2] /\
   runs ∅ 0 (next (mkState 2 0 3) 1 0) 0 [] /\
   arrives ∅ 1 (next (mkState 2 0 3) 1 1) 0 (mkState 2 1 3) /\
   isterminal (mkState 2 1 3) = false /\
   (∅ : gmap tState Z) !! mkState 2 1 3 = None /\
   total_policy_at 2 (mkState 2 0 3) 1 ∅ = Undefined) /\
  (valid_instance 3 2 /\ 3 + 1 <= Z.of_nat 4 /\
   exists V A,
     build_tables 4 3 2 true = Ok (V, A) /\
     (forall e L aseq, 1 <= e <= 2 ->
        exists r, run_policy_once 4 3 e L A aseq = Ok r) /\
     (forall s v a, V !! s = Some v -> isterminal s = false ->
        lb s < a < ub s -> (2 <= eggs s \/ a = lb s + 1) ->
        exists t, total_policy_at 4 s a A = Ok t)).
Proof.
  destruct missing_action_is_undefined as (Hrun & Htot & _ & Hbuilt).
  assert (arrives ∅ 0 (mkState 1 0 (wrap (1 + 1))) 0 (mkState 1 0 2)) as Ha1
    by constructor.
  assert (runs ∅ 0 (next (mkState 2 0 3) 1 0) 0 []) as Hr0
    by (by apply runs_terminal).
  assert (arrives ∅ 1 (next (mkState 2 0 3) 1 1) 0 (mkState 2 1 3)) as Ha2
    by constructor.
  assert (valid_instance 3 2) as Hv by in_range.
  split; [|split].
  - split; [exact Ha1|]. split; [reflexivity|]. split; [reflexivity|].
    apply (Hrun 2%nat 1 1 0 ∅ None 0%nat (mkState 1 0 2) Ha1);
      [reflexivity|reflexivity|lia].
  - split; [reflexivity|]. split; [exact Hr0|]. split; [exact Ha2|].
    split; [reflexivity|]. split; [reflexivity|].
    apply (Htot 2%nat (mkState 2 0 3) 1 ∅ [0] 1 [2] 0%nat (mkState 2 1 3));
      [reflexivity| |exact Ha2|reflexivity|reflexivity|lia].
    intros l' Hl'. apply list_elem_of_singleton in Hl' as ->.
    exists 0, []. split; [exact Hr0|simpl; lia].
  - split; [exact Hv|]. split; [lia|].
    apply (Hbuilt 3 2 true 4%nat Hv). lia.
Defined.

(** ** Termination of the builder *)

Lemma improves_refl st : improves st st.
Proof. split; [intros s v Hs; exists v; split; [done|lia]|done]. Qed.

Lemma improves_trans st1 st2 st3 :
  improves st1 st2 -> improves st2 st3 -> improves st1 st3.
Proof.
  intros [HV1 HA1] [HV2 HA2]. split.
  - intros s v Hs. destruct (HV1 s v Hs) as (v' & Hs' & Hle).
    destruct (HV2 s v' Hs') as (v'' & Hs'' & Hle'). exists v''. split; [done|lia].
  - intros s Hs. by apply HA2, HA1.
Qed.

Lemma improves_update st s value action i m old :
  tab_V st !! s = Some old -> value <= old ->
  improves st (mkScan (<[s := value]> (tab_V st)) (<[s := action]> (tab_A st)) i m).
Proof.
  intros Hold Hle. split; cbn [tab_V tab_A].
  - intros s' v Hs'. destruct (decide (s = s')) as [->|Hne].
    + rewrite lookup_insert_eq. exists value. split; [done|]. congruence.
    + rewrite lookup_insert_ne by done. exists v. split; [done|lia].
  - intros s' Hs'. destruct (decide (s = s')) as [->|Hne].
    + rewrite lookup_insert_eq. by eexists.
    + by rewrite lookup_insert_ne.
Qed.

Lemma umap_insert_keeps {K : Type} `{Countable K} (k : K) (x : Z) (m : gmap K Z) k' v :
  m !! k' = Some v -> umap_insert k x m !! k' = Some v.
Proof.
  intros Hk'. unfold umap_insert. destruct (m !! k) eqn:Hk; [done|].
  rewrite lookup_insert_ne; [done|]. congruence.
Qed.

Lemma scan_body_improves fuel tb e l u st st' :
  scan_body fuel tb e l u st = Ok st' -> improves st st'.
Proof.
  unfold scan_body.
  destruct (bool_decide _ && isterminal _); [intros [= <-]; apply improves_refl|].
  destruct (scan_choice fuel tb (mkState e l u) (tab_V st) (tab_A st))
    as [[[value action]|]| | |]; cbn [bind]; try done;
    [|intros [= <-]; apply improves_refl].
  destruct (tab_V st !! mkState e l u) as [old|] eqn:Hold.
  - destruct (Z.ltb_spec value old) as [Hlt|Hge].
    + destruct (deref (tab_A st) (mkState e l u)); cbn [bind]; try done.
      intros [= <-]. eapply improves_update; [done|lia].
    + destruct (Z.eqb_spec old value) as [Heq|Hne];
        [|intros [= <-]; apply improves_refl].
      destruct (deref (tab_A st) (mkState e l u)) as [old_a| | |]; cbn [bind]; try done.
      destruct (negb (old_a =? action)); intros [= <-]; [|apply improves_refl].
      eapply improves_update; [done|lia].
  - intros [= <-]. split; cbn [tab_V tab_A].
    + intros s v Hs. exists v. split; [by apply umap_insert_keeps|lia].
    + intros s [a Hs]. exists a. by apply umap_insert_keeps.
Qed.

Lemma scan_u_improves fuel tb e l us st st' :
  scan_u fuel tb e l us st = Ok st' -> improves st st'.
Proof.
  revert st. induction us as [|u us IH]; intros st; [intros [= <-]; apply improves_refl|].
  cbn [scan_u]. destruct (scan_body fuel tb e l u st) as [st1| | |] eqn:Hb; try done.
  cbn [bind]. intros Hrest. eapply improves_trans; [by eapply scan_body_improves|by apply IH].
Qed.

Lemma scan_l_improves fuel tb F e ls st st' :
  scan_l fuel tb F e ls st = Ok st' -> improves st st'.
Proof.
  revert st. induction ls as [|l ls IH]; intros st; [intros [= <-]; apply improves_refl|].
  cbn [scan_l]. destruct (scan_u fuel tb e l _ st) as [st1| | |] eqn:Hb; try done.
  cbn [bind]. intros Hrest. eapply improves_trans; [by eapply scan_u_improves|by apply IH].
Qed.

Lemma scan_e_improves fuel tb F es st st' :
  scan_e fuel tb F es st = Ok st' -> improves st st'.
Proof.
  revert st. induction es as [|e es IH]; intros st; [intros [= <-]; apply improves_refl|].
  cbn [scan_e]. destruct (scan_l fuel tb F e _ st) as [st1| | |] eqn:Hb; try done.
  cbn [bind]. intros Hrest. eapply improves_trans; [by eapply scan_l_improves|by apply IH].
Qed.

(** C5.  For every valid instance the table builder terminates.  Each egg
    level [e] starts from the tables left by the levels below it, its scan
    loop stops after at most two scans, a further scan of the level makes
    no insertion and no modification, and the next level starts from its
    tables.  A scan never removes an entry and never increases a value. *)
Theorem table_builder_terminates (F E : Z) (tb : bool) (fuel : nat) :
  valid_instance F E -> F + 1 <= Z.of_nat fuel ->
  (exists V A, build_tables fuel F E tb = Ok (V, A)) /\
  (forall e, 1 <= e <= E ->
     exists V0 A0 V1 A1 n,
       levels fuel F tb (seqZ 1 (e - 1)) (initialize_terminal_entries F E ∅) ∅
         = Ok (V0, A0) /\
       level_loop fuel fuel F e tb V0 A0 0 = Ok (V1, A1, n) /\
       1 <= n <= 2 /\
       single_scan fuel F e e (mkScan V1 A1 0 0) tb = Ok (mkScan V1 A1 0 0) /\
       levels fuel F tb (seqZ 1 e) (initialize_terminal_entries F E ∅) ∅
         = Ok (V1, A1)) /\
  (forall Emin Emax st st',
     single_scan fuel F Emin Emax st tb = Ok st' -> improves st st').
Proof.
  intros [HF HE]%valid_instance_range Hfuel. split; [|split].
  - destruct (build_tables_inv F E HF HE fuel tb Hfuel) as (V & A & Hb & _).
    by exists V, A.
  - intros e He. by apply build_level.
  - intros Emin Emax st st'. apply scan_e_improves.
Qed.

Lemma table_builder_terminates_witness :
  valid_instance 4 3 /\ 4 + 1 <= Z.of_nat 5 /\
  (exists V A, build_tables 5 4 3 true = Ok (V, A)) /\
  (forall e, 1 <= e <= 3 ->
     exists V0 A0 V1 A1 n,
       levels 5 4 true (seqZ 1 (e - 1)) (initialize_terminal_entries 4 3 ∅) ∅
         = Ok (V0, A0) /\
       level_loop 5 5 4 e true V0 A0 0 = Ok (V1, A1, n) /\
       1 <= n <= 2 /\
       single_scan 5 4 e e (mkScan V1 A1 0 0) true = Ok (mkScan V1 A1 0 0) /\
       levels 5 4 true (seqZ 1 e) (initialize_terminal_entries 4 3 ∅) ∅
         = Ok (V1, A1)) /\
  (forall Emin Emax st st',
     single_scan 5 4 Emin Emax st true = Ok st' -> improves st st').
Proof.
  assert (valid_instance 4 3) as Hv by in_range.
  split; [exact Hv|]. split; [lia|].
  apply (table_builder_terminates 4 3 true 5 Hv). lia.
Defined.

(** ** The early exit of find_admissible_actions *)

Lemma sorted_le_valley l : Sorted Z.le l -> valley l.
Proof.
  intros Hs. apply Sorted_StronglySorted in Hs; [|intros x y z; lia].
  induction Hs as [|x l Hl IH Hx]; [done|].
  destruct l as [|y l2]; [done|]. split; [|done].
  intros Hxy. apply StronglySorted_inv in Hl as [_ Hy].
  eapply Forall_impl; [exact Hy|]. simpl. lia.
Qed.

Lemma unimodal_valley l : unimodal l -> valley l.
Proof.
  intros (l1 & l2 & -> & H1 & H2).
  induction l1 as [|x l1 IH]; [by apply sorted_le_valley|].
  apply Sorted_inv in H1 as [H1 Hx]. specialize (IH H1).
  destruct l1 as [|y l1].
  - simpl in *. destruct l2 as [|y l2]; [done|]. split; [|done].
    intros Hxy. apply Sorted_StronglySorted in H2; [|intros a b c; lia].
    apply StronglySorted_inv in H2 as [_ Hy].
    eapply Forall_impl; [exact Hy|]. simpl. lia.
  - simpl in *. split; [|done]. intros Hxy. inversion Hx; subst. lia.
Qed.

Lemma prefix_fmap {T U : Type} (f : T -> U) (l1 l2 : list T) :
  l1 `prefix_of` l2 -> f <$> l1 `prefix_of` f <$> l2.
Proof. intros [k ->]. exists (f <$> k). apply fmap_app. Qed.

(** The list with the early exit is an initial part of the full list. *)
Lemma early_exit_prefix s V :
  (find_admissible_actions s V [] [] true).1
    `prefix_of` (find_admissible_actions s V [] [] false).1 /\
  (find_admissible_actions s V [] [] true).2
    `prefix_of` (find_admissible_actions s V [] [] false).2.
Proof.
  unfold find_admissible_actions.
  rewrite find_loop_full, find_loop_early by done. simpl.
  split; apply prefix_fmap, cut_prefix.
Qed.

Lemma early_exit_min s V :
  valley (find_admissible_actions s V [] [] false).2 ->
  min_of (find_admissible_actions s V [] [] true).2
  = min_of (find_admissible_actions s V [] [] false).2.
Proof.
  unfold find_admissible_actions.
  rewrite find_loop_full, find_loop_early by done. simpl.
  apply cut_min_of.
Qed.

(** The claim of C6 fails for an arbitrary value table: here the worst
    cases of the probes 1, 2, 3 are 2, 3, 1; the early exit stops after
    the increase from 2 to 3 and misses the minimum 1. *)
Lemma early_exit_misses_minimum :
  find_admissible_actions (mkState 2 0 4) zigzag_table [] [] false
    = ([1; 2; 3], [2; 3; 1]) /\
  find_admissible_actions (mkState 2 0 4) zigzag_table [] [] true
    = ([1; 2], [2; 3]) /\
  min_of (find_admissible_actions (mkState 2 0 4) zigzag_table [] [] true).2 = Some 2 /\
  min_of (find_admissible_actions (mkState 2 0 4) zigzag_table [] [] false).2 = Some 1 /\
  min_of (find_admissible_actions (mkState 2 0 4) zigzag_table [] [] true).2
  <> min_of (find_admissible_actions (mkState 2 0 4) zigzag_table [] [] false).2.
Proof. by vm_compute. Qed.

(** C6, amended.  The minimum over the list with the early exit equals
    the minimum over the full list whenever, in the full list of worst
    cases, no value after a strict increase between neighbours is below
    the value before that increase; in particular when the list is
    non-increasing and then non-decreasing.  This is the case at every
    non-terminal state stored in the finished tables of a valid instance,
    where both minima are the stored value. *)
Theorem early_exit_keeps_minimum :
  (forall s V,
     valley (find_admissible_actions s V [] [] false).2 ->
     (find_admissible_actions s V [] [] true).2
       `prefix_of` (find_admissible_actions s V [] [] false).2 /\
     min_of (find_admissible_actions s V [] [] true).2
     = min_of (find_admissible_actions s V [] [] false).2) /\
  (forall s V,
     unimodal (find_admissible_actions s V [] [] false).2 ->
     min_of (find_admissible_actions s V [] [] true).2
     = min_of (find_admissible_actions s V [] [] false).2) /\
  (forall F E tb fuel,
     valid_instance F E -> F + 1 <= Z.of_nat fuel ->
     exists V A,
       build_tables fuel F E tb = Ok (V, A) /\
       forall s v, V !! s = Some v -> isterminal s = false ->
         valley (find_admissible_actions s V [] [] false).2 /\
         min_of (find_admissible_actions s V [] [] true).2 = Some v /\
         min_of (find_admissible_actions s V [] [] false).2 = Some v).
Proof.
  split; [|split].
  - intros s V Hval. split; [apply early_exit_prefix|by apply early_exit_min].
  - intros s V Hu. by apply early_exit_min, unimodal_valley.
  - intros F E tb fuel [HF HE]%valid_instance_range Hfuel.
    destruct (build_tables_inv F E HF HE fuel tb Hfuel) as (V & A & Hb & Hinv).
    exists V, A. split; [done|]. intros s v HV Hnt.
    destruct (finished_lookup_inv F E fuel tb V A Hinv s v HV) as [Hs ->].
    assert (lb s + 2 <= ub s) as Hw.
    { destruct (decide (ub s = lb s + 1)) as [Hw|Hw].
      - rewrite (stored_terminal F E HF _ _ _ _ Hs Hw) in Hnt. done.
      - destruct Hs as [(? & ? & ? & ?) _]. lia. }
    pose proof (stored_ready F E _ _ _ _ Hs Hw) as Hr.
    pose proof Hr as ((Hl & Hlu & Hu & He) & _).
    pose proof (valley_ready F E HF HE fuel tb _ _ _ V A s Hinv Hr) as Hval.
    pose proof (min_of_ready F E HF HE fuel tb _ _ _ V A s Hinv Hr) as Hmin.
    assert (in_int (lb s + 1)) as Hint by in_range.
    assert (valley (find_admissible_actions s V [] [] false).2) as Hval'.
    { by rewrite find_admissible_actions_full. }
    split; [done|]. rewrite early_exit_min by done.
    rewrite find_admissible_actions_full by done. by split.
Qed.

Lemma early_exit_keeps_minimum_witness :
  (valley [3; 2; 3] /\
   (find_admissible_actions (mkState 2 0 4) valley_table [] [] false).2 = [3; 2; 3] /\
   (find_admissible_actions (mkState 2 0 4) valley_table [] [] true).2
   `prefix_of`
   (find_admissible_actions (mkState 2 0 4) valley_table [] [] false).2 /\
   min_of (find_admissible_actions (mkState 2 0 4) valley_table [] [] true).2
   = min_of (find_admissible_actions (mkState 2 0 4) valley_table [] [] false).2) /\
  (valid_instance 3 2 /\ 3 + 1 <= Z.of_nat 4 /\
   exists V A,
     build_tables 4 3 2 false = Ok (V, A) /\
     forall s v, V !! s = Some v -> isterminal s = false ->
       valley (find_admissible_actions s V [] [] false).2 /\
       min_of (find_admissible_actions s V [] [] true).2 = Some v /\
       min_of (find_admissible_actions s V [] [] false).2 = Some v).
Proof.
  destruct early_exit_keeps_minimum as (Hvalley & _ & Hbuilt).
  assert (valley [3; 2; 3]) as Hval.
  { simpl. split; [lia|]. split; [|done]. intros _. constructor. }
  assert (valid_instance 3 2) as Hv by in_range.
  split.
  - split; [exact Hval|]. split; [by vm_compute|].
    apply Hvalley.
    match goal with |- valley ?l => replace l with [3; 2; 3] by (by vm_compute) end.
    exact Hval.
  - split; [exact Hv|]. split; [lia|].
    apply (Hbuilt 3 2 false 4%nat Hv). lia.
Defined.

(** ** One egg *)

Lemma one_egg_runs F E fuel tb V A L (n : nat) l :
  1 <= F < int_max -> 1 <= E < int_max ->
  table_inv fuel tb F E (E + 1) F (F + 1) V A ->
  0 <= l <= L -> L <= F -> L - l = Z.of_nat n ->
  runs A L (mkState 1 l (F + 1))
       ((if L <? F then L + 1 else F) - l)
       (seqZ (l + 1) ((if L <? F then L + 1 else F) - l)).
Proof.
  intros HF HE Hinv. revert l. induction n as [|n IH]; intros l Hl HL Hn.
  - assert (l = L) as -> by lia.
    assert (stored F E (E + 1) F (F + 1) (mkState 1 L (F + 1))) as Hs.
    { unfold stored, in_table. simpl. lia. }
    destruct (Z.ltb_spec L F) as [HLF|HLF].
    + replace (L + 1 - L) with (0 + 1) by lia. change (seqZ (L + 1) (0 + 1)) with [L + 1].
      destruct (inv_A _ _ _ _ _ _ _ _ _ Hinv _ Hs ltac:(simpl; lia))
        as (a & HA & (Ha & Hadm & _) & _).
      simpl in Ha, Hadm. assert (a = L + 1) as -> by lia.
      apply runs_drop; [by rewrite (stored_nonterminal F E HF _ _ _ _ Hs) by (simpl; lia)|done|].
      rewrite next_cases by (simpl; lia). simpl.
      destruct (Z.ltb_spec L (L + 1)); [|lia].
      apply runs_terminal. change (wrap (1 - 1)) with 0.
      apply (stored_terminal F E HF (E + 1) F (F + 1)); [|done].
      unfold stored, in_table. simpl. lia.
    + assert (L = F) as -> by lia. replace (F - F) with 0 by lia.
      apply runs_terminal. by apply (stored_terminal F E HF _ _ _ _ Hs).
  - assert (stored F E (E + 1) F (F + 1) (mkState 1 l (F + 1))) as Hs.
    { unfold stored, in_table. simpl. lia. }
    destruct (inv_A _ _ _ _ _ _ _ _ _ Hinv _ Hs ltac:(simpl; lia))
      as (a & HA & (Ha & Hadm & _) & _).
    simpl in Ha, Hadm. assert (a = l + 1) as -> by lia.
    set (K := if L <? F then L + 1 else F).
    assert (L <= K) as HK by (unfold K; destruct (Z.ltb_spec L F); lia).
    replace (K - l) with ((K - (l + 1)) + 1) by lia.
    rewrite (seqZ_cons (l + 1)) by lia.
    replace (Z.pred (K - (l + 1) + 1)) with (K - (l + 1)) by lia.
    apply runs_drop; [by rewrite (stored_nonterminal F E HF _ _ _ _ Hs) by (simpl; lia)|done|].
    rewrite next_cases by (simpl; lia). simpl.
    destruct (Z.ltb_spec L (l + 1)); [lia|].
    replace (Z.succ (l + 1)) with (l + 1 + 1) by lia.
    apply IH; lia.
Qed.

(** C7.  With one egg the run for a threshold [L] drops at the floors
    [1, 2, ...] in ascending order and stops when the state is terminal:
    after the drop at [L + 1] when [L < F], after the drop at [F] when
    [L = F]. *)
Theorem one_egg_linear_search (F : Z) (tb : bool) (fuel : nat) :
  valid_instance F 1 -> F + 1 <= Z.of_nat fuel ->
  exists V A,
    build_tables fuel F 1 tb = Ok (V, A) /\
    forall L, 0 <= L <= F ->
      let steps := if L <? F then L + 1 else F in
      run_policy_once fuel F 1 L A (Some []) = Ok (steps, Some (seqZ 1 steps)).
Proof.
  intros [HF HE]%valid_instance_range Hfuel.
  destruct (build_tables_inv F 1 HF HE fuel tb Hfuel) as (V & A & Hb & Hinv).
  exists V, A. split; [done|]. intros L HL steps.
  pose proof (one_egg_runs F 1 fuel tb V A L (Z.to_nat L) 0 HF HE Hinv
                ltac:(lia) ltac:(lia) ltac:(lia)) as Hr.
  fold steps in Hr. replace (steps - 0) with steps in Hr by lia.
  assert (0 <= steps <= F) as Hsteps by (unfold steps; destruct (Z.ltb_spec L F); lia).
  unfold run_policy_once. simpl.
  rewrite wrap_small by in_range.
  rewrite (policy_loop_runs _ _ _ _ _ _ _ _ Hr).
  - simpl. rewrite wrap_small by in_range. done.
  - rewrite length_seqZ. lia.
  - in_range.
Qed.

Lemma one_egg_linear_search_witness :
  valid_instance 5 1 /\ 5 + 1 <= Z.of_nat 6 /\
  exists V A,
    build_tables 6 5 1 false = Ok (V, A) /\
    forall L, 0 <= L <= 5 ->
      let steps := if L <? 5 then L + 1 else 5 in
      run_policy_once 6 5 1 L A (Some []) = Ok (steps, Some (seqZ 1 steps)).
Proof.
  assert (valid_instance 5 1) as Hv by in_range.
  split; [exact Hv|]. split; [lia|].
  apply (one_egg_linear_search 5 false 6 Hv). lia.
Defined.

(** ** The transition *)

(** C8.  A drop at [p] with threshold [L] breaks when [p > L]: the egg
    count goes down by one, [ub] becomes [min ub p] and [lb] stays; else
    the egg count and [ub] stay and [lb] becomes [max lb p].  [next]
    returns this state as a new value, computed by [eggdrop] on a copy
    of [s]; the cost of the transition is 1. *)
Theorem next_transition (s : tState) (p L : Z) :
  int_min < eggs s <= int_max ->
  next s p L = (if L <? p
                then mkState (eggs s - 1) (lb s) (Z.min (ub s) p)
                else mkState (eggs s) (Z.max (lb s) p) (ub s)) /\
  next s p L = fst (eggdrop (mkState (eggs s) (lb s) (ub s)) p L) /\
  snd (eggdrop s p L) = (L <? p) /\
  cost s p L = 1.
Proof.
  intros He. split; [|split; [done|split; [|done]]].
  - unfold next, eggdrop. simpl. destruct (L <? p); simpl.
    + rewrite wrap_small by in_range.
      f_equal. destruct (Z.ltb_spec p (ub s)); lia.
    + f_equal. destruct (Z.ltb_spec (lb s) p); lia.
  - unfold eggdrop. by destruct (L <? p).
Qed.

Lemma next_transition_witness :
  int_min < eggs (mkState 2 0 11) <= int_max /\
  next (mkState 2 0 11) 4 3 = mkState 1 0 4 /\
  next (mkState 2 0 11) 4 4 = mkState 2 4 11 /\
  cost (mkState 2 0 11) 4 3 = 1.
Proof.
  assert (int_min < eggs (mkState 2 0 11) <= int_max) as He by (simpl; in_range).
  split; [exact He|].
  destruct (next_transition (mkState 2 0 11) 4 3 He) as (H1 & _ & _ & H3).
  destruct (next_transition (mkState 2 0 11) 4 4 He) as (H2 & _).
  split; [exact H1|]. split; [exact H2|exact H3].
Defined.

(** ** Monotonicity of the nominal value *)

(** C9.  In the finished table the value of [(e, 0, F + 1)] does not
    increase with the egg count [e]; for a fixed [e] the values of
    [(e, 0, f + 1)] do not decrease with the floor count [f], within one
    table and between the tables of two instances. *)
Theorem nominal_value_monotone (F F' E : Z) (tb : bool) (fuel : nat) :
  valid_instance F E -> valid_instance F' E -> F <= F' ->
  F' + 1 <= Z.of_nat fuel ->
  exists V A V' A',
    build_tables fuel F E tb = Ok (V, A) /\
    build_tables fuel F' E tb = Ok (V', A') /\
    (forall e e', 1 <= e <= e' -> e' <= E ->
       exists v v', V !! mkState e 0 (F + 1) = Some v /\
                    V !! mkState e' 0 (F + 1) = Some v' /\ v' <= v) /\
    (forall e f f', 1 <= e <= E -> 1 <= f <= f' -> f' <= F ->
       exists v v', V !! mkState e 0 (f + 1) = Some v /\
                    V !! mkState e 0 (f' + 1) = Some v' /\ v <= v') /\
    (forall e, 1 <= e <= E ->
       exists v v', V !! mkState e 0 (F + 1) = Some v /\
                    V' !! mkState e 0 (F' + 1) = Some v' /\ v <= v').
Proof.
  intros [HF HE]%valid_instance_range [HF' _]%valid_instance_range HFF Hfuel.
  destruct (build_tables_inv F E HF HE fuel tb ltac:(lia)) as (V & A & Hb & Hinv).
  destruct (build_tables_inv F' E HF' HE fuel tb Hfuel) as (V' & A' & Hb' & Hinv').
  exists V, A, V', A'. split; [done|]. split; [done|].
  split; [|split].
  - intros e e' He He'.
    exists (opt e (F + 1 - 0 - 1)), (opt e' (F + 1 - 0 - 1)).
    split; [apply (finished_lookup F E fuel tb V A Hinv); lia|].
    split; [apply (finished_lookup F E fuel tb V A Hinv); lia|].
    apply opt_mono_eggs; lia.
  - intros e f f' He Hf Hf'.
    exists (opt e (f + 1 - 0 - 1)), (opt e (f' + 1 - 0 - 1)).
    split; [apply (finished_lookup F E fuel tb V A Hinv); lia|].
    split; [apply (finished_lookup F E fuel tb V A Hinv); lia|].
    apply opt_mono_floors; lia.
  - intros e He.
    exists (opt e (F + 1 - 0 - 1)), (opt e (F' + 1 - 0 - 1)).
    split; [apply (finished_lookup F E fuel tb V A Hinv); lia|].
    split; [apply (finished_lookup F' E fuel tb V' A' Hinv'); lia|].
    apply opt_mono_floors; lia.
Qed.

Lemma nominal_value_monotone_witness :
  valid_instance 3 2 /\ valid_instance 5 2 /\ 3 <= 5 /\ 5 + 1 <= Z.of_nat 6 /\
  exists V A V' A',
    build_tables 6 3 2 true = Ok (V, A) /\
    build_tables 6 5 2 true = Ok (V', A') /\
    (forall e e', 1 <= e <= e' -> e' <= 2 ->
       exists v v', V !! mkState e 0 (3 + 1) = Some v /\
                    V !! mkState e' 0 (3 + 1) = Some v' /\ v' <= v) /\
    (forall e f f', 1 <= e <= 2 -> 1 <= f <= f' -> f' <= 3 ->
       exists v v', V !! mkState e 0 (f + 1) = Some v /\
                    V !! mkState e 0 (f' + 1) = Some v' /\ v <= v') /\
    (forall e, 1 <= e <= 2 ->
       exists v v', V !! mkState e 0 (3 + 1) = Some v /\
                    V' !! mkState e 0 (5 + 1) = Some v' /\ v <= v').
Proof.
  assert (valid_instance 3 2) as Hv by in_range.
  assert (valid_instance 5 2) as Hv' by in_range.
  split; [exact Hv|]. split; [exact Hv'|]. split; [lia|]. split; [lia|].
  apply (nominal_value_monotone 3 5 2 true 6 Hv Hv'); lia.
Defined.

(** ** Shrinking intervals *)

Lemma next_interval s p L :
  lb s < p < ub s ->
  lb (next s p L) = (if L <? p then lb s else p) /\
  ub (next s p L) = (if L <? p then p else ub s).
Proof.
  intros Hp. rewrite next_cases by done. by destruct (L <? p).
Qed.

Lemma probes_from_shrinks s run s' :
  probes_from s run s' -> 0 <= lb s < ub s ->
  0 <= lb s' < ub s' /\ lb s <= lb s' /\ ub s' <= ub s /\
  Z.of_nat (length run) + (ub s' - lb s') <= ub s - lb s.
Proof.
  induction 1 as [s|s p L run s' Hp Hrun IH]; intros Hs.
  - simpl. lia.
  - destruct (next_interval s p L Hp) as [Hl Hu].
    destruct IH as (Hs' & Hlb & Hub & Hlen).
    + rewrite Hl, Hu. destruct (L <? p); lia.
    + split; [done|]. rewrite Hl, Hu in Hlen. rewrite Hl in Hlb. rewrite Hu in Hub.
      cbn [length]. destruct (L <? p); lia.
Qed.

Lemma drive_spec pick L (n : nat) s :
  (forall t, lb t + 1 < ub t -> lb t < pick t < ub t) ->
  0 <= lb s < ub s -> ub s - lb s - 1 <= Z.of_nat n ->
  exists run,
    probes_from s run (drive pick L n s).1 /\
    (drive pick L n s).2 = Z.of_nat (length run) /\
    ub (drive pick L n s).1 = lb (drive pick L n s).1 + 1.
Proof.
  intros Hpick. revert s. induction n as [|n IH]; intros s Hs Hn.
  - exists []. simpl. split; [constructor|]. split; [done|lia].
  - cbn [drive]. destruct (Z.eqb_spec (ub s) (lb s + 1)) as [Hw|Hw].
    + exists []. simpl. split; [constructor|]. done.
    + pose proof (Hpick s ltac:(lia)) as Hp.
      destruct (next_interval s (pick s) L Hp) as [Hl Hu].
      destruct (IH (next s (pick s) L)) as (run & Hrun & Hk & Hend).
      * rewrite Hl, Hu. destruct (L <? pick s); lia.
      * rewrite Hl, Hu. destruct (L <? pick s); lia.
      * destruct (drive pick L n (next s (pick s) L)) as [s' k]. simpl in *.
        exists ((pick s, L) :: run). split; [by constructor|].
        split; [|done]. cbn [length]. lia.
Qed.

(** C10.  A drop at a floor strictly inside the interval keeps
    [0 <= lb < ub] and makes the interval strictly narrower.  Hence a
    run of such drops has at most [ub - lb - 1] of them, it can be
    continued exactly as long as the width is above one, and driving any
    choice of in-range floors ends at [ub = lb + 1] within
    [ub - lb - 1] drops.  Such a state is terminal for [isterminal]
    when no egg is owed. *)
Theorem interval_shrinks_to_terminal (s : tState) :
  0 <= lb s < ub s ->
  (forall p L, lb s < p < ub s ->
     0 <= lb (next s p L) < ub (next s p L) /\
     ub (next s p L) - lb (next s p L) < ub s - lb s) /\
  (forall run s', probes_from s run s' ->
     0 <= lb s' < ub s' /\
     Z.of_nat (length run) <= ub s - lb s - 1 /\
     (ub s' = lb s' + 1 <-> ~ exists p, lb s' < p < ub s') /\
     (ub s <= int_max -> ub s' = lb s' + 1 -> isterminal s' = (0 <=? eggs s'))) /\
  (forall pick L (n : nat),
     (forall t, lb t + 1 < ub t -> lb t < pick t < ub t) ->
     ub s - lb s - 1 <= Z.of_nat n ->
     ub (drive pick L n s).1 = lb (drive pick L n s).1 + 1 /\
     0 <= (drive pick L n s).2 <= ub s - lb s - 1).
Proof.
  intros Hs. split; [|split].
  - intros p L Hp. destruct (next_interval s p L Hp) as [-> ->].
    destruct (L <? p); lia.
  - intros run s' Hrun.
    destruct (probes_from_shrinks s run s' Hrun Hs) as (Hs' & Hlb & Hub & Hlen).
    split; [done|]. split; [lia|]. split.
    + split.
      * intros Hw [p Hp]. lia.
      * intros Hno. destruct (decide (ub s' = lb s' + 1)) as [|Hw]; [done|].
        exfalso. apply Hno. exists (lb s' + 1). lia.
    + intros Hmax Hw. unfold isterminal.
      rewrite wrap_small by in_range.
      rewrite Hw, Z.eqb_refl. destruct (Z.leb_spec 0 (lb s')); [done|lia].
  - intros pick L n Hpick Hn.
    destruct (drive_spec pick L n s Hpick Hs Hn) as (run & Hrun & Hk & Hend).
    split; [done|]. rewrite Hk.
    destruct (probes_from_shrinks s run _ Hrun Hs) as (Hs' & _ & _ & Hlen). lia.
Qed.

Lemma interval_shrinks_to_terminal_witness :
  0 <= lb (mkState 1 0 11) < ub (mkState 1 0 11) /\
  (forall p L, 0 < p < 11 ->
     0 <= lb (next (mkState 1 0 11) p L) < ub (next (mkState 1 0 11) p L) /\
     ub (next (mkState 1 0 11) p L) - lb (next (mkState 1 0 11) p L) < 11 - 0) /\
  ub (drive (fun t => lb t + 1) 7 10 (mkState 1 0 11)).1
  = lb (drive (fun t => lb t + 1) 7 10 (mkState 1 0 11)).1 + 1 /\
  0 <= (drive (fun t => lb t + 1) 7 10 (mkState 1 0 11)).2 <= 11 - 0 - 1.
Proof.
  assert (0 <= lb (mkState 1 0 11) < ub (mkState 1 0 11)) as Hs by (simpl; lia).
  split; [exact Hs|].
  destruct (interval_shrinks_to_terminal (mkState 1 0 11) Hs) as (Hnext & _ & Hdrive).
  split; [exact Hnext|].
  apply (Hdrive (fun t => lb t + 1) 7 10%nat).
  - intros t Ht. lia.
  - simpl. lia.
Defined.

(** * Further properties of the code *)

(** ** States *)

Lemma isterminal_spec s :
  0 <= lb s -> lb s < int_max ->
  isterminal s = true <-> ub s = lb s + 1 /\ 0 <= eggs s.
Proof.
  intros Hl Hu. unfold isterminal. rewrite wrap_small by in_range.
  rewrite !andb_true_iff, Z.eqb_eq, !Z.leb_le. lia.
Qed.

Lemma isfailed_spec s :
  lb s < int_max -> int_min <= lb s ->
  isfailed s = true <-> eggs s < 0 \/ (eggs s = 0 /\ lb s + 1 < ub s).
Proof.
  intros Hl Hu. unfold isfailed. rewrite wrap_small by in_range.
  rewrite orb_true_iff, andb_true_iff, !Z.ltb_lt, Z.eqb_eq. lia.
Qed.

Lemma terminal_not_failed s : isterminal s = true -> isfailed s = false.
Proof.
  unfold isterminal, isfailed. rewrite !andb_true_iff, Z.eqb_eq, !Z.leb_le.
  intros [[Hu Hl] He].
  destruct (Z.ltb_spec (eggs s) 0); [lia|]. simpl.
  destruct (Z.ltb_spec (wrap (lb s + 1)) (ub s)); [lia|]. apply andb_false_r.
Qed.

(** ** The threshold stays between the bounds *)

Lemma eggdrop_brackets s p L :
  lb s <= L < ub s ->
  lb (eggdrop s p L).1 <= L < ub (eggdrop s p L).1 /\
  lb s <= lb (eggdrop s p L).1 /\ ub (eggdrop s p L).1 <= ub s.
Proof.
  intros HL. unfold eggdrop. destruct (Z.ltb_spec L p); simpl.
  - destruct (Z.ltb_spec p (ub s)); lia.
  - destruct (Z.ltb_spec (lb s) p); lia.
Qed.

Lemma next_brackets s p L :
  lb s <= L < ub s ->
  lb (next s p L) <= L < ub (next s p L) /\
  lb s <= lb (next s p L) /\ ub (next s p L) <= ub s.
Proof. rewrite <- eggdrop_next. apply eggdrop_brackets. Qed.

Lemma arrives_brackets A L s n s' :
  arrives A L s n s' -> lb s <= L < ub s ->
  lb s' <= L < ub s' /\ lb s <= lb s' /\ ub s' <= ub s.
Proof.
  induction 1 as [s|s a n s' Ht Ha Harr IH]; intros HL; [lia|].
  destruct (next_brackets s a L HL) as (H1 & H2 & H3).
  destruct (IH H1) as (H4 & H5 & H6). lia.
Qed.

(** ** Runs and the policy loop *)

Lemma runs_arrives A L s k tr :
  runs A L s k tr ->
  exists s', arrives A L s (length tr) s' /\ isterminal s' = true.
Proof.
  induction 1 as [s Ht|s a k tr Ht Ha Hr (s' & Harr & Ht')].
  - exists s. split; [constructor|done].
  - exists s'. split; [|done]. simpl. by eapply arrives_drop.
Qed.

(** What a run of the loop that ends has computed. *)
Lemma policy_loop_result A L fuel s steps aseq k' q :
  in_int steps ->
  policy_loop fuel L A s steps aseq = Ok (k', q) ->
  exists k tr, runs A L s k tr /\ (length tr < fuel)%nat /\
    k' = wrap (steps + k) /\ q = (fun l => l ++ tr) <$> aseq.
Proof.
  revert s steps aseq. induction fuel as [|fuel IH]; intros s steps aseq Hsteps; [done|].
  simpl. destruct (isterminal s) eqn:Ht.
  - intros [= <- <-]. exists 0, []. split; [by apply runs_terminal|].
    split; [simpl; lia|]. split.
    + by rewrite Z.add_0_r, wrap_small.
    + destruct aseq as [l|]; simpl; [|done]. by rewrite app_nil_r.
  - unfold deref. destruct (A !! s) as [a|] eqn:Ha; [|done]. cbn [bind].
    rewrite eggdrop_next. intros Hr.
    apply IH in Hr as (k & tr & Hr & Hlen & -> & ->); [|apply wrap_range].
    exists (k + 1), (a :: tr). split; [by apply runs_drop|].
    split; [simpl; lia|]. split.
    + rewrite wrap_add_l. f_equal. lia.
    + destruct aseq as [l|]; simpl; [|done]. by rewrite <- app_assoc.
Qed.

Lemma runs_drop_inv A L s k tr :
  runs A L s k tr -> isterminal s = false ->
  exists a k' tr', A !! s = Some a /\ k = k' + 1 /\ tr = a :: tr' /\
    runs A L (next s a L) k' tr'.
Proof.
  intros Hr Ht. inversion Hr as [s0 Ht0|s0 a k' tr' Ht0 Ha Hr']; subst; [congruence|].
  by exists a, k', tr'.
Qed.

Lemma runs_nonneg A L s k tr : runs A L s k tr -> 0 <= k.
Proof. intros Hr. rewrite (runs_length _ _ _ _ _ Hr). lia. Qed.

(** ** No action table needs fewer drops *)

(** If an action table localizes every threshold of the interval of [s]
    within [n] drops, then [n] is at least the least number of drops of
    [s], and [s] has an egg for every drop it still needs. *)
Lemma runs_lower_bound (n : nat) A s :
  0 <= lb s < ub s -> ub s <= int_max ->
  int_min + Z.of_nat n <= eggs s <= int_max ->
  (forall L, lb s <= L < ub s -> exists k tr, runs A L s k tr /\ k <= Z.of_nat n) ->
  (1 <= eggs s \/ ub s = lb s + 1) /\ 0 <= eggs s /\
  opt (eggs s) (ub s - lb s - 1) <= Z.of_nat n.
Proof.
  revert s. induction n as [|n IH]; intros s Hs Hu He Hall.
  - destruct (Hall (lb s) ltac:(lia)) as (k & tr & Hr & Hk).
    pose proof (runs_nonneg _ _ _ _ _ Hr).
    destruct (isterminal s) eqn:Ht.
    + apply isterminal_spec in Ht as [Hw He0]; [|lia|in_range].
      replace (ub s - lb s - 1) with 0 by lia. rewrite opt_zero_floors. lia.
    + destruct (runs_drop_inv _ _ _ _ _ Hr Ht) as (a & k' & tr' & _ & -> & _ & Hr').
      pose proof (runs_nonneg _ _ _ _ _ Hr'). lia.
  - destruct (isterminal s) eqn:Ht.
    { apply isterminal_spec in Ht as [Hw He0]; [|lia|in_range].
      replace (ub s - lb s - 1) with 0 by lia. rewrite opt_zero_floors. lia. }
    destruct (Hall (lb s) ltac:(lia)) as (k0 & tr0 & Hr0 & Hk0).
    destruct (runs_drop_inv _ _ _ _ _ Hr0 Ht) as (a & k0' & tr0' & Ha & -> & _ & Hr0').
    assert (forall L, lb s <= L < ub s ->
              exists k tr, runs A L (next s a L) k tr /\ k <= Z.of_nat n) as Hsucc.
    { intros L HL. destruct (Hall L HL) as (k & tr & Hr & Hk).
      destruct (runs_drop_inv _ _ _ _ _ Hr Ht) as (a' & k' & tr' & Ha' & -> & _ & Hr').
      assert (a' = a) as -> by congruence. exists k', tr'. split; [done|lia]. }
    assert (wrap (eggs s - 1) = eggs s - 1) as Hwrap by (apply wrap_small; in_range).
    destruct (Z.le_gt_cases a (lb s)) as [Hlow|Hlow].
    { (* the drop changes nothing: the run could not end *)
      assert (next s a (lb s) = s) as Hsame.
      { unfold next, eggdrop. simpl.
        destruct (Z.ltb_spec (lb s) a); [lia|]. simpl.
        destruct (Z.ltb_spec (lb s) a); [lia|]. by destruct s. }
      rewrite Hsame in Hr0'.
      destruct (runs_deterministic _ _ _ _ _ _ _ Hr0 Hr0') as [Hk _]. lia. }
    destruct (Z.le_gt_cases (ub s) a) as [Hhigh|Hhigh].
    { (* every threshold breaks the egg and the interval stays *)
      set (s1 := mkState (eggs s - 1) (lb s) (ub s)).
      assert (forall L, lb s <= L < ub s -> next s a L = s1) as Hnext.
      { intros L HL. unfold next, eggdrop. simpl.
        destruct (Z.ltb_spec L a); [|lia]. simpl. rewrite Hwrap.
        destruct (Z.ltb_spec a (ub s)); [lia|done]. }
      destruct (IH s1) as (He1 & He0 & Hopt); [simpl; lia|simpl; lia|simpl; lia| |].
      { intros L HL. simpl in HL. rewrite <- (Hnext L HL). by apply Hsucc. }
      simpl in He1, He0, Hopt.
      assert (ub s <> lb s + 1) as Hw.
      { intros Hw. assert (isterminal s = true); [|congruence].
        apply isterminal_spec; [lia|in_range|]. lia. }
      split; [lia|]. split; [lia|].
      pose proof (opt_mono_eggs (eggs s - 1) (eggs s) (ub s - lb s - 1) ltac:(lia) ltac:(lia)).
      lia. }
    set (s1 := mkState (eggs s - 1) (lb s) a).
    set (s2 := mkState (eggs s) a (ub s)).
    assert (forall L, next s a L = if L <? a then s1 else s2) as Hnext.
    { intros L. rewrite next_cases by lia. by rewrite Hwrap. }
    destruct (IH s1) as (He1 & He0 & Hopt1); [simpl; lia|simpl; lia|simpl; lia| |].
    { intros L HL. simpl in HL. specialize (Hsucc L ltac:(lia)). rewrite Hnext in Hsucc.
      destruct (Z.ltb_spec L a); [done|lia]. }
    destruct (IH s2) as (_ & _ & Hopt2); [simpl; lia|simpl; lia|simpl; lia| |].
    { intros L HL. simpl in HL. specialize (Hsucc L ltac:(lia)). rewrite Hnext in Hsucc.
      destruct (Z.ltb_spec L a); [lia|done]. }
    simpl in He1, He0, Hopt1, Hopt2.
    split; [lia|]. split; [lia|].
    pose proof (opt_bellman_lower (eggs s) (lb s) (ub s) a ltac:(lia) ltac:(lia) ltac:(lia)).
    lia.
Qed.

Lemma runs_lower_bound_Z A s n :
  0 <= lb s < ub s -> ub s <= int_max -> 0 <= eggs s <= int_max ->
  (forall L, lb s <= L < ub s -> exists k tr, runs A L s k tr /\ k <= n) ->
  opt (eggs s) (ub s - lb s - 1) <= n.
Proof.
  intros Hs Hu He Hall.
  pose proof (opt_bounds (eggs s) (ub s - lb s - 1) ltac:(lia)) as Hb.
  destruct (Z.le_gt_cases (ub s - lb s - 1) n) as [Hbig|Hsmall]; [lia|].
  assert (0 <= n) as Hn.
  { destruct (Hall (lb s) ltac:(lia)) as (k & tr & Hr & Hk).
    pose proof (runs_nonneg _ _ _ _ _ Hr). lia. }
  destruct (runs_lower_bound (Z.to_nat n) A s Hs Hu) as (_ & _ & Hopt).
  - in_range.
  - intros L HL. destruct (Hall L HL) as (k & tr & Hr & Hk). exists k, tr. split; [done|lia].
  - lia.
Qed.

(** ** Closed forms of the least number of drops *)

Lemma reach_pow d e : (d <= e)%nat -> reach d e = 2 ^ Z.of_nat d - 1.
Proof.
  revert e. induction d as [|d IH]; intros e Hde; [done|].
  destruct e as [|e]; [lia|].
  change (reach (S d) (S e)) with (1 + reach d e + reach d (S e)).
  rewrite (IH e), (IH (S e)) by lia.
  rewrite Nat2Z.inj_succ, Z.pow_succ_r by lia. lia.
Qed.

Lemma reach_le_pow d e : reach d e <= 2 ^ Z.of_nat d - 1.
Proof.
  rewrite <- (reach_pow d (Nat.max d e)) by lia.
  apply reach_mono_eggs. lia.
Qed.

Lemma reach_two d : 2 * reach d 2 = Z.of_nat d * (Z.of_nat d + 1).
Proof.
  induction d as [|d IH]; [done|].
  change (reach (S d) 2) with (1 + reach d 1 + reach d 2).
  rewrite reach_one_egg. lia.
Qed.

Lemma opt_binary e m :
  0 <= m -> Z.log2_up (m + 1) <= e -> opt e m = Z.log2_up (m + 1).
Proof.
  intros Hm He. unfold opt.
  pose proof (Z.log2_up_nonneg (m + 1)) as Hnn.
  rewrite (optn_unique (Z.to_nat e) m (Z.to_nat (Z.log2_up (m + 1)))); [lia| |].
  - pose proof (reach_mono_eggs (Z.to_nat (Z.log2_up (m + 1)))
                  (Z.to_nat (Z.log2_up (m + 1))) (Z.to_nat e) ltac:(lia)) as Hmono.
    rewrite reach_pow in Hmono by lia. rewrite Z2Nat.id in Hmono by lia.
    destruct (decide (m = 0)) as [->|Hne].
    + pose proof (reach_nonneg (Z.to_nat (Z.log2_up (0 + 1))) (Z.to_nat e)). lia.
    + pose proof (Z.log2_up_spec (m + 1) ltac:(lia)). lia.
  - intros d' Hd'. pose proof (reach_le_pow d' (Z.to_nat e)) as Hle.
    assert (m <> 0) as Hne.
    { intros ->. change (Z.log2_up (0 + 1)) with 0 in Hd'. simpl in Hd'. lia. }
    pose proof (Z.log2_up_spec (m + 1) ltac:(lia)) as [Hlow _].
    assert (2 ^ Z.of_nat d' <= 2 ^ Z.pred (Z.log2_up (m + 1))); [|lia].
    apply Z.pow_le_mono_r; lia.
Qed.

Lemma opt_two_eggs m :
  0 <= m ->
  0 <= opt 2 m /\ 2 * m <= opt 2 m * (opt 2 m + 1) /\
  (1 <= opt 2 m -> (opt 2 m - 1) * opt 2 m < 2 * m).
Proof.
  intros Hm. unfold opt. change (Z.to_nat 2) with 2%nat.
  pose proof (optn_reaches 2 m ltac:(lia) Hm) as Hr.
  pose proof (reach_two (optn 2 m)) as Ht.
  split; [lia|]. split; [lia|]. intros Hv.
  pose proof (optn_below 2 m (optn 2 m - 1) ltac:(lia)) as Hb.
  pose proof (reach_two (optn 2 m - 1)) as Ht'.
  replace (Z.of_nat (optn 2 m - 1)) with (Z.of_nat (optn 2 m) - 1) in Ht' by lia.
  lia.
Qed.

(** ** The state that a trace leads to *)

Lemma runs_replay A L s k tr : runs A L s k tr -> isterminal (replay L s tr) = true.
Proof. induction 1; done. Qed.

Lemma replay_brackets L tr s :
  lb s <= L < ub s ->
  lb (replay L s tr) <= L < ub (replay L s tr) /\
  lb s <= lb (replay L s tr) /\ ub (replay L s tr) <= ub s.
Proof.
  revert s. induction tr as [|a tr IH]; intros s HL; [simpl; lia|].
  destruct (next_brackets s a L HL) as (H1 & H2 & H3).
  destruct (IH _ H1) as (H4 & H5 & H6). simpl. unfold replay in *. lia.
Qed.

Lemma next_bounds_from s a L :
  (lb (next s a L) = lb s \/ lb (next s a L) = a) /\
  (ub (next s a L) = ub s \/ ub (next s a L) = a).
Proof.
  unfold next, eggdrop. simpl. destruct (L <? a); simpl.
  - destruct (a <? ub s); auto.
  - destruct (lb s <? a); auto.
Qed.

Lemma replay_bounds_from L tr s :
  (lb (replay L s tr) = lb s \/ lb (replay L s tr) ∈ tr) /\
  (ub (replay L s tr) = ub s \/ ub (replay L s tr) ∈ tr).
Proof.
  revert s. induction tr as [|a tr IH]; intros s; [by split; left|].
  destruct (IH (next s a L)) as [Hl Hu].
  destruct (next_bounds_from s a L) as [Hl' Hu'].
  change (replay L s (a :: tr)) with (replay L (next s a L) tr).
  split.
  - destruct Hl as [Hl|Hl]; [|right; by apply list_elem_of_further].
    rewrite Hl. destruct Hl' as [->| ->]; [by left|right; apply list_elem_of_here].
  - destruct Hu as [Hu|Hu]; [|right; by apply list_elem_of_further].
    rewrite Hu. destruct Hu' as [->| ->]; [by left|right; apply list_elem_of_here].
Qed.

(** A run that ends has found the threshold, whatever the table. *)
Lemma run_policy_once_certified fuel F E L A aseq k q :
  0 <= F < int_max -> 0 <= L <= F ->
  run_policy_once fuel F E L A aseq = Ok (k, q) ->
  exists tr,
    q = (fun _ => tr) <$> aseq /\ (length tr < fuel)%nat /\
    k = wrap (Z.of_nat (length tr)) /\
    run_policy_once fuel F E L A None = Ok (k, None) /\
    replay L (mkState E 0 (F + 1)) tr = mkState (eggs (replay L (mkState E 0 (F + 1)) tr)) L (L + 1) /\
    0 <= eggs (replay L (mkState E 0 (F + 1)) tr) /\
    (1 <= L -> L ∈ tr) /\ (L < F -> L + 1 ∈ tr).
Proof.
  intros HF HL. unfold run_policy_once. rewrite wrap_small by in_range.
  intros Hrun. apply policy_loop_result in Hrun as (k0 & tr & Hr & Hlen & -> & ->);
    [|in_range].
  exists tr. split; [by destruct aseq|]. split; [done|].
  pose proof (runs_length _ _ _ _ _ Hr) as ->. split; [done|]. split.
  { rewrite (policy_loop_runs _ _ _ _ _ _ _ _ Hr) by (try done; in_range). done. }
  set (s0 := mkState E 0 (F + 1)) in *.
  pose proof (runs_replay _ _ _ _ _ Hr) as Ht.
  destruct (replay_brackets L tr s0 ltac:(simpl; lia)) as (Hb & Hlb & Hub).
  simpl in Hlb, Hub.
  apply isterminal_spec in Ht as [Hw He]; [|lia|in_range].
  destruct (replay_bounds_from L tr s0) as [Hl Hu]. simpl in Hl, Hu.
  assert (lb (replay L s0 tr) = L) as HlL by lia.
  assert (ub (replay L s0 tr) = L + 1) as HuL by lia.
  split; [|split; [done|split]].
  - destruct (replay L s0 tr) as [e' l' u']. simpl in *. by subst.
  - intros HL1. rewrite HlL in Hl. destruct Hl as [?|?]; [lia|done].
  - intros HLF. rewrite HuL in Hu. destruct Hu as [?|?]; [lia|done].
Qed.

(** ** Traces with every drop strictly inside the interval *)

Lemma inside_forall L s tr : inside L s tr -> Forall (fun a => lb s < a < ub s) tr.
Proof.
  revert s. induction tr as [|a tr IH]; intros s; [done|].
  intros [Ha Htr]. constructor; [done|].
  destruct (next_interval s a L Ha) as [Hl Hu].
  eapply Forall_impl; [apply (IH _ Htr)|]. simpl. intros b. rewrite Hl, Hu.
  destruct (L <? a); lia.
Qed.

Lemma inside_nodup L s tr : inside L s tr -> NoDup tr.
Proof.
  revert s. induction tr as [|a tr IH]; intros s; [constructor|].
  intros [Ha Htr]. constructor; [|by eapply IH].
  intros Hin. pose proof (inside_forall _ _ _ Htr) as Hall.
  rewrite Forall_forall in Hall. specialize (Hall a Hin).
  destruct (next_interval s a L Ha) as [Hl Hu]. rewrite Hl, Hu in Hall.
  destruct (L <? a); lia.
Qed.

Lemma breaks_cons L a tr :
  breaks L (a :: tr) = (if L <? a then 1 else 0) + breaks L tr.
Proof.
  unfold breaks. rewrite filter_cons.
  destruct (Z.ltb_spec L a).
  - rewrite decide_True by done. simpl. lia.
  - rewrite decide_False by lia. lia.
Qed.

Lemma breaks_bounds L tr : 0 <= breaks L tr <= Z.of_nat (length tr).
Proof.
  unfold breaks. pose proof (length_filter (fun a => L < a) tr). lia.
Qed.

Lemma replay_eggs L tr s :
  int_min + Z.of_nat (length tr) <= eggs s <= int_max ->
  eggs (replay L s tr) = eggs s - breaks L tr.
Proof.
  revert s. induction tr as [|a tr IH]; intros s He.
  - simpl. unfold breaks. simpl. lia.
  - change (replay L s (a :: tr)) with (replay L (next s a L) tr).
    simpl in He. rewrite breaks_cons.
    assert (eggs (next s a L) = eggs s - (if L <? a then 1 else 0)) as Hn.
    { unfold next, eggdrop. simpl. destruct (L <? a); simpl; [|lia].
      apply wrap_small. in_range. }
    rewrite IH; rewrite Hn; destruct (L <? a); lia.
Qed.

Lemma runs_stored_inside fuel tb F E ec l0 u0 V A L s k tr :
  1 <= F < int_max -> 1 <= E < int_max ->
  table_inv fuel tb F E ec l0 u0 V A -> stored F E ec l0 u0 s ->
  runs A L s k tr -> inside L s tr.
Proof.
  intros HF HE Hinv Hs Hr. induction Hr as [s Ht|s a k tr Ht Ha Hr IH]; [done|].
  assert (lb s + 2 <= ub s) as Hw.
  { destruct (decide (ub s = lb s + 1)) as [Hw|Hw].
    - rewrite (stored_terminal F E HF _ _ _ _ Hs Hw) in Ht. done.
    - destruct Hs as [(? & ? & ? & ?) _]. lia. }
  destruct (inv_A _ _ _ _ _ _ _ _ _ Hinv s Hs Hw) as (a' & Ha' & Hg & _).
  assert (a' = a) as -> by congruence.
  destruct (stored_next F E HE ec l0 u0 s a L Hs Hw Hg) as [_ Hs'].
  split; [apply Hg|]. by apply IH.
Qed.

(** The runs of the finished tables. *)
Lemma finished_trace F E fuel tb V A e L :
  1 <= F < int_max -> 1 <= E < int_max -> F + 1 <= Z.of_nat fuel ->
  table_inv fuel tb F E (E + 1) F (F + 1) V A ->
  1 <= e <= E -> 0 <= L <= F ->
  exists k tr,
    run_policy_once fuel F e L A (Some []) = Ok (k, Some tr) /\
    k = Z.of_nat (length tr) /\
    NoDup tr /\ Forall (fun a => 1 <= a <= F) tr /\
    breaks L tr <= e /\
    replay L (mkState e 0 (F + 1)) tr = mkState (e - breaks L tr) L (L + 1).
Proof.
  intros HF HE Hfuel Hinv He HL.
  destruct (finished_run F E fuel tb V A HF HE Hfuel Hinv e L He)
    as (k & tr & Hr & Hk & Htr & Hrun).
  exists k, tr. split; [done|]. split; [by apply runs_length in Hr|].
  assert (stored F E (E + 1) F (F + 1) (mkState e 0 (F + 1))) as Hs.
  { unfold stored, in_table. simpl. lia. }
  pose proof (runs_stored_inside _ _ _ _ _ _ _ _ _ _ _ _ _ HF HE Hinv Hs Hr) as Hin.
  split; [by eapply inside_nodup|]. split.
  { eapply Forall_impl; [exact Htr|]. simpl. lia. }
  destruct (run_policy_once_certified fuel F e L A (Some []) k (Some tr) ltac:(lia) HL Hrun)
    as (tr' & Hq & _ & _ & _ & Hfin & He0 & _).
  simpl in Hq. injection Hq as <-.
  pose proof (runs_length _ _ _ _ _ Hr) as Hlen.
  pose proof (opt_bounds e F ltac:(lia)) as Hopt.
  rewrite replay_eggs in Hfin, He0 by (simpl; in_range). simpl in Hfin, He0.
  split; [lia|done].
Qed.

(** ** argmin returns the first smallest element *)

Lemma argmin_from_first v i best_i best pre :
  length pre = i -> (best_i < i)%nat -> pre !! best_i = Some best ->
  (forall j x, pre !! j = Some x -> best <= x) ->
  (forall j x, (j < best_i)%nat -> pre !! j = Some x -> best < x) ->
  exists m, (pre ++ v) !! argmin_from v i best_i best = Some m /\
    (forall j x, (pre ++ v) !! j = Some x -> m <= x) /\
    (forall j x, (j < argmin_from v i best_i best)%nat -> (pre ++ v) !! j = Some x -> m < x).
Proof.
  revert i best_i best pre.
  induction v as [|x v IH]; intros i best_i best pre Hlen Hlt Hbest Hall Hfirst; simpl.
  - rewrite app_nil_r. by exists best.
  - replace (pre ++ x :: v) with ((pre ++ [x]) ++ v) by by rewrite <- app_assoc.
    destruct (Z.ltb_spec x best) as [Hx|Hx].
    + apply IH.
      * rewrite length_app. simpl. lia.
      * lia.
      * rewrite lookup_app_r by lia. by replace (i - length pre)%nat with 0%nat by lia.
      * intros j y Hj. apply lookup_app_Some in Hj as [Hj|[_ Hj]].
        -- pose proof (Hall j y Hj). lia.
        -- apply list_lookup_singleton_Some in Hj as [_ <-]. lia.
      * intros j y Hji Hj. rewrite lookup_app_l in Hj by lia.
        pose proof (Hall j y Hj). lia.
    + apply IH.
      * rewrite length_app. simpl. lia.
      * lia.
      * rewrite lookup_app_l by lia. done.
      * intros j y Hj. apply lookup_app_Some in Hj as [Hj|[_ Hj]].
        -- by apply (Hall j).
        -- apply list_lookup_singleton_Some in Hj as [_ <-]. lia.
      * intros j y Hji Hj. rewrite lookup_app_l in Hj by lia. by apply (Hfirst j).
Qed.

Lemma argmin_first v :
  v <> [] ->
  exists m, v !! argmin v = Some m /\
    (forall j x, v !! j = Some x -> m <= x) /\
    (forall j x, (j < argmin v)%nat -> v !! j = Some x -> m < x).
Proof.
  destruct v as [|x v]; [done|]. intros _. simpl.
  apply (argmin_from_first v 1 0 x [x]); [done|lia|done| |].
  - intros [|j] y Hj; [|done]. injection Hj as <-. lia.
  - intros j y Hj. lia.
Qed.

(** ** Ascending lists of floors *)

Lemma sublist_strongly_sorted {T : Type} (R : T -> T -> Prop) (l1 l2 : list T) :
  l1 `sublist_of` l2 -> StronglySorted R l2 -> StronglySorted R l1.
Proof.
  induction 1 as [|x l1 l2 Hsub IH|x l1 l2 Hsub IH]; intros Hs; [constructor| |].
  - apply StronglySorted_inv in Hs as [Hs Hx]. constructor; [by apply IH|].
    rewrite Forall_forall in Hx |- *. intros y Hy. apply Hx.
    by eapply elem_of_sublist.
  - apply StronglySorted_inv in Hs as [Hs _]. by apply IH.
Qed.

Lemma seqZ_strongly_sorted m (n : nat) : StronglySorted Z.lt (seqZ m (Z.of_nat n)).
Proof.
  revert m. induction n as [|n IH]; intros m; [constructor|].
  rewrite seqZ_cons by lia. replace (Z.pred (Z.of_nat (S n))) with (Z.of_nat n) by lia.
  constructor; [apply IH|]. apply Forall_seqZ. lia.
Qed.

Lemma seqZ_sorted m n : StronglySorted Z.lt (seqZ m n).
Proof.
  destruct (Z.le_gt_cases n 0) as [Hn|Hn].
  - rewrite seqZ_nil by done. constructor.
  - rewrite <- (Z2Nat.id n) by lia. apply seqZ_strongly_sorted.
Qed.

Lemma strongly_sorted_lookup (l : list Z) i j x y :
  StronglySorted Z.lt l -> (i < j)%nat -> l !! i = Some x -> l !! j = Some y -> x < y.
Proof.
  intros Hs. revert i j. induction Hs as [|a l Hs IH Ha]; intros i j Hij Hi Hj; [done|].
  destruct j as [|j]; [lia|]. simpl in Hj. destruct i as [|i].
  - injection Hi as <-. rewrite Forall_forall in Ha. apply Ha.
    by eapply list_elem_of_lookup_2.
  - simpl in Hi. apply (IH i j); [lia|done..].
Qed.

Lemma admissible_at_fst s V a y : admissible_at s V a = Some y -> y.1 = a.
Proof.
  unfold admissible_at. destruct (calc_maximum_value s a V) as [mx ok].
  destruct (negb ok || (mx =? -1)); [done|]. by intros [= <-].
Qed.

Lemma admissible_list_sublist s V cands :
  (admissible_list s V cands).*1 `sublist_of` cands.
Proof.
  induction cands as [|a cands IH]; [done|].
  rewrite admissible_list_cons.
  destruct (admissible_at s V a) as [y|] eqn:Hy.
  - apply admissible_at_fst in Hy. rewrite fmap_cons, Hy. by apply sublist_skip.
  - by apply sublist_cons.
Qed.

Lemma prefix_sublist {T : Type} (l1 l2 : list T) : l1 `prefix_of` l2 -> l1 `sublist_of` l2.
Proof. intros [k ->]. by apply sublist_inserts_r. Qed.

Lemma sublist_fmap_fst {T U : Type} (l1 l2 : list (T * U)) :
  l1 `sublist_of` l2 -> l1.*1 `sublist_of` l2.*1.
Proof.
  induction 1 as [|x l1 l2 Hsub IH|x l1 l2 Hsub IH]; [done| |].
  - rewrite !fmap_cons. by apply sublist_skip.
  - rewrite fmap_cons. by apply sublist_cons.
Qed.

(** ** The list that find_admissible_actions appends *)


(** ** The tie rules *)

Lemma collect_ties_inv fuel tb s A value Y :
  forall X0 ties totals r,
  collect_ties fuel tb s A (X0 ++ Y).*1 (X0 ++ Y).*2 value
    (seq (length X0) (length Y)) ties totals = Ok r ->
  exists totals',
    r = (ties ++ (tied value Y).*1, totals ++ totals') /\
    if tb then Forall2 (fun a t => total_policy_at fuel s a A = Ok t) (tied value Y).*1 totals'
    else totals' = [].
Proof.
  induction Y as [|p Y IH]; intros X0 ties totals r.
  - simpl. intros [= <-]. exists []. rewrite !app_nil_r. split; [done|].
    destruct tb; [constructor|done].
  - cbn [length seq collect_ties]. rewrite vec_at_snd. cbn [bind].
    assert (forall ties totals r,
      collect_ties fuel tb s A (X0 ++ p :: Y).*1 (X0 ++ p :: Y).*2 value
        (seq (S (length X0)) (length Y)) ties totals = Ok r ->
      exists totals',
        r = (ties ++ (tied value Y).*1, totals ++ totals') /\
        if tb then Forall2 (fun a t => total_policy_at fuel s a A = Ok t)
                           (tied value Y).*1 totals'
        else totals' = []) as IH'.
    { intros ties' totals' r' Hc. apply (IH (X0 ++ [p])).
      rewrite <- app_assoc, length_app. simpl.
      by replace (length X0 + 1)%nat with (S (length X0)) by lia. }
    unfold tied. rewrite filter_cons.
    destruct (Z.eqb_spec p.2 value) as [Hv|Hv].
    + rewrite decide_True by done. rewrite vec_at_fst. cbn [bind].
      destruct tb.
      * destruct (total_policy_at fuel s p.1 A) as [t| | |] eqn:Ht; try done.
        cbn [bind]. intros Hc. apply IH' in Hc as (totals' & -> & Hall).
        exists (t :: totals'). rewrite <- !app_assoc. split; [done|].
        rewrite fmap_cons. by constructor.
      * intros Hc. apply IH' in Hc as (totals' & -> & ->).
        exists []. rewrite <- !app_assoc. done.
    + rewrite decide_False by done. apply IH'.
Qed.

(** What a successful choice is: its value is the least of the kept
    list, and its action is taken from the kept actions tied at that value
    by the tie rule in force. *)
Lemma scan_choice_inv fuel tb s V A value action :
  in_int (lb s + 1) ->
  scan_choice fuel tb s V A = Ok (Some (value, action)) ->
  min_of (kept s V).*2 = Some value /\
  if tb then
    exists totals,
      Forall2 (fun a t => total_policy_at fuel s a A = Ok t)
              (tied value (kept s V)).*1 totals /\
      (tied value (kept s V)).*1 !! argmin totals = Some action
  else
    (tied value (kept s V)).*1 !! Nat.shiftr (length (tied value (kept s V)).*1) 1
    = Some action.
Proof.
  intros Hl. unfold scan_choice.
  rewrite find_admissible_actions_early by done. fold (kept s V).
  set (X := kept s V).
  destruct (Nat.eqb_spec (length X.*2) 0) as [Hz|Hnz]; [done|].
  assert (X.*2 <> []) as Hne by (intros Heq; rewrite Heq in Hnz; done).
  destruct (vec_at X.*1 (argmin X.*2)) as [a0| | |]; [|done..]. cbn [bind].
  unfold vec_at at 1.
  destruct (X.*2 !! argmin X.*2) as [v0|] eqn:Hv0; [|done]. cbn [bind].
  pose proof (collect_ties_inv fuel tb s A v0 X [] [] []) as Hinv.
  simpl in Hinv. rewrite length_fmap.
  destruct (collect_ties fuel tb s A X.*1 X.*2 v0 (seq 0 (length X)) [] [])
    as [[ties totals]| | |] eqn:Hc; [|done..].
  destruct (Hinv _ eq_refl) as (totals' & [= -> ->] & Htot). cbn [bind].
  assert (min_of X.*2 = Some v0) as Hmin.
  { destruct X.*2 as [|x l] eqn:HX; [done|]. simpl.
    destruct (argmin_spec (x :: l) (lmin x l) eq_refl) as [_ Hm]. congruence. }
  destruct tb.
  - unfold vec_at. destruct (_ !! argmin totals') as [a|] eqn:Ha; [|done].
    intros [= <- <-]. split; [done|]. by exists totals'.
  - unfold vec_at. destruct (_ !! Nat.shiftr _ 1) as [a|] eqn:Ha; [|done].
    intros [= <- <-]. done.
Qed.

Lemma kept_fst_sorted s V : StronglySorted Z.lt (kept s V).*1.
Proof.
  unfold kept. eapply sublist_strongly_sorted; [|apply seqZ_sorted].
  etrans; [|apply admissible_list_sublist].
  apply sublist_fmap_fst, prefix_sublist, cut_prefix.
Qed.

Lemma tied_fst_sorted value s V : StronglySorted Z.lt (tied value (kept s V)).*1.
Proof.
  eapply sublist_strongly_sorted; [|apply kept_fst_sorted].
  apply sublist_fmap_fst. unfold tied. apply sublist_filter.
Qed.

Lemma Forall2_lookup_both {T U : Type} (P : T -> U -> Prop) l k i x :
  Forall2 P l k -> l !! i = Some x -> exists y, k !! i = Some y /\ P x y.
Proof.
  intros HF Hx. destruct (Forall2_lookup_l _ _ _ _ _ HF Hx) as (y & Hy & HP). by exists y.
Qed.

(** The action that the tie rule takes. *)
Lemma scan_choice_tie_rule fuel tb s V A value action :
  in_int (lb s + 1) ->
  scan_choice fuel tb s V A = Ok (Some (value, action)) ->
  let T := (tied value (kept s V)).*1 in
  min_of (kept s V).*2 = Some value /\ action ∈ T /\
  (tb = false -> T !! (length T / 2)%nat = Some action) /\
  (tb = true ->
     exists t, total_policy_at fuel s action A = Ok t /\
       forall a', a' ∈ T ->
         exists t', total_policy_at fuel s a' A = Ok t' /\ t <= t' /\
                    (t' = t -> action <= a')).
Proof.
  intros Hl Hc T. destruct (scan_choice_inv fuel tb s V A value action Hl Hc) as [Hmin Hrule].
  split; [done|]. destruct tb.
  - destruct Hrule as (totals & Htot & Ha). fold T in Htot, Ha.
    split; [by eapply list_elem_of_lookup_2|]. split; [done|]. intros _.
    destruct (Forall2_lookup_both _ _ _ _ _ Htot Ha) as (t & Ht & Htotal).
    exists t. split; [done|]. intros a' Ha'.
    apply list_elem_of_lookup in Ha' as [j Hj].
    destruct (Forall2_lookup_both _ _ _ _ _ Htot Hj) as (t' & Ht' & Htotal').
    exists t'. split; [done|].
    assert (totals <> []) as Hne by (intros ->; done).
    destruct (argmin_first totals Hne) as (m & Hm & Hleast & Hfirst).
    assert (m = t) as -> by congruence.
    split; [by apply (Hleast j)|]. intros ->.
    destruct (lt_eq_lt_dec j (argmin totals)) as [[Hlt|Heq]|Hgt].
    + pose proof (Hfirst j t Hlt Ht'). lia.
    + subst j. assert (a' = action) by congruence. lia.
    + pose proof (strongly_sorted_lookup T _ _ _ _ (tied_fst_sorted value s V) Hgt Ha Hj). lia.
  - fold T in Hrule. rewrite Nat.shiftr_div_pow2 in Hrule.
    change (2 ^ 1)%nat with 2%nat in Hrule.
    split; [by eapply list_elem_of_lookup_2|]. split; [done|]. done.
Qed.

(** ** calc_maximum_value is the largest successor value plus the cost *)

Lemma calc_loop_spec s a V fs mx0 :
  ((calc_loop s a V fs mx0).2 = true <-> forall f, f ∈ fs -> is_Some (V !! next s a f)) /\
  ((calc_loop s a V fs mx0).2 = true ->
     mx0 <= (calc_loop s a V fs mx0).1 /\
     (forall f v, f ∈ fs -> V !! next s a f = Some v ->
        wrap (1 + v) <= (calc_loop s a V fs mx0).1) /\
     ((calc_loop s a V fs mx0).1 = mx0 \/
      exists f v, f ∈ fs /\ V !! next s a f = Some v /\
        (calc_loop s a V fs mx0).1 = wrap (1 + v))).
Proof.
  revert mx0. induction fs as [|f fs IH]; intros mx0.
  - simpl. split; [split; [intros _ f Hf; by apply elem_of_nil in Hf|done]|].
    intros _. split; [lia|]. split; [|by left].
    intros f v Hf. by apply elem_of_nil in Hf.
  - cbn [calc_loop]. destruct (V !! next s a f) as [v|] eqn:Hv.
    + unfold cost.
      set (mx1 := if mx0 <? wrap (1 + v) then wrap (1 + v) else mx0).
      assert (mx0 <= mx1 /\ wrap (1 + v) <= mx1 /\ (mx1 = mx0 \/ mx1 = wrap (1 + v)))
        as (Hm0 & Hm1 & Hm2).
      { unfold mx1. destruct (Z.ltb_spec mx0 (wrap (1 + v))); lia. }
      destruct (IH mx1) as [Hok Hmax]. split.
      * rewrite Hok. split.
        -- intros Hall g Hg. apply elem_of_cons in Hg as [->|Hg]; [by eexists|by apply Hall].
        -- intros Hall g Hg. apply Hall. by apply list_elem_of_further.
      * intros Htrue. destruct (Hmax Htrue) as (Hge & Hall & Hatt).
        split; [lia|]. split.
        -- intros g w Hg Hw. apply elem_of_cons in Hg as [->|Hg]; [|by eapply Hall].
           assert (w = v) as -> by congruence. lia.
        -- destruct Hatt as [Heq|(g & w & Hg & Hw & Heq)].
           ++ destruct Hm2 as [Hm2|Hm2]; [left; lia|right].
              exists f, v. split; [apply list_elem_of_here|]. split; [done|lia].
           ++ right. exists g, w. split; [by apply list_elem_of_further|done].
    + simpl. split; [|done]. split; [done|].
      intros Hall. destruct (Hall f) as [v Hv']; [apply list_elem_of_here|congruence].
Qed.



(** ** Loops that collect values *)

Lemma for_each_ok {T U : Type} (f : T -> result U) (l : list T) :
  (forall x, x ∈ l -> exists y, f x = Ok y) ->
  exists ys, for_each f l = Ok ys /\ Forall2 (fun x y => f x = Ok y) l ys.
Proof.
  induction l as [|x l IH]; intros Hall; [exists []; split; [done|constructor]|].
  destruct (Hall x) as [y Hy]; [apply list_elem_of_here|].
  destruct IH as (ys & Hys & HF); [intros z Hz; apply Hall; by apply list_elem_of_further|].
  exists (y :: ys). simpl. rewrite Hy. cbn [bind]. rewrite Hys. cbn [bind].
  split; [done|]. by constructor.
Qed.

Lemma for_each_inv {T U : Type} (f : T -> result U) (l : list T) ys :
  for_each f l = Ok ys -> Forall2 (fun x y => f x = Ok y) l ys.
Proof.
  revert ys. induction l as [|x l IH]; intros ys; simpl.
  - intros [= <-]. constructor.
  - destruct (f x) as [y| | |] eqn:Hy; try done. cbn [bind].
    destruct (for_each f l) as [ys'| | |]; try done. cbn [bind].
    intros [= <-]. constructor; [done|]. by apply IH.
Qed.

(** ** The accumulators of check_policy *)

Lemma bump_all_app d t1 t2 :
  bump_all d (t1 ++ t2) = do d' <- bump_all d t1; bump_all d' t2.
Proof.
  revert d. induction t1 as [|a t1 IH]; intros d; [done|].
  simpl. destruct (a <? 0); [done|].
  destruct (vec_at d (Z.to_nat a)) as [c| | |]; try done. cbn [bind]. apply IH.
Qed.

Lemma bump_all_length d tr d' : bump_all d tr = Ok d' -> length d' = length d.
Proof.
  revert d. induction tr as [|a tr IH]; intros d; simpl; [by intros [= <-]|].
  destruct (a <? 0); [done|].
  destruct (vec_at d (Z.to_nat a)) as [c| | |]; try done. cbn [bind].
  intros Hb. apply IH in Hb. by rewrite length_insert in Hb.
Qed.

(** The loop of [check_policy] in one step, from the step counts and the
    traces of its runs. *)
Lemma check_loop_full fuel F e A ls R acc :
  Forall2 (fun l r => run_policy_once fuel F e l A (Some []) = Ok (r.1, Some r.2)) ls R ->
  check_loop fuel F e A ls acc =
  do D <- match acc_D acc with
          | None => Ok None
          | Some d => do d' <- bump_all d (concat R.*2); Ok (Some d')
          end;
  Ok (mkAcc (foldl Z.max (max_steps acc) R.*1)
            (foldl (fun s k => wrap (s + k)) (sum_steps acc) R.*1)
            D
            ((fun h => foldl hist_bump h R.*1) <$> acc_H acc)).
Proof.
  intros HR. revert acc. induction HR as [|l [k tr] ls R Hrun HR IH]; intros acc.
  - simpl. destruct acc as [mx sm [d|] [h|]]; done.
  - cbn [check_loop]. simpl in Hrun. rewrite Hrun. cbn [bind].
    change (default [] (Some tr)) with tr.
    rewrite !fmap_cons. cbn [fst snd concat foldl].
    destruct (acc_D acc) as [d|] eqn:Hd.
    + rewrite bump_all_app.
      destruct (bump_all d tr) as [d1| | |] eqn:Hb; cbn [bind]; try done.
      rewrite IH. cbn [acc_D max_steps sum_steps acc_H].
      destruct (bump_all d1 (concat R.*2)) as [d2| | |]; cbn [bind]; try done.
      f_equal. f_equal.
      * f_equal. destruct (Z.ltb_spec (max_steps acc) k); lia.
      * by destruct (acc_H acc).
    + cbn [bind]. rewrite IH. cbn [acc_D max_steps sum_steps acc_H bind].
      f_equal. f_equal.
      * f_equal. destruct (Z.ltb_spec (max_steps acc) k); lia.
      * by destruct (acc_H acc).
Qed.

Lemma foldl_max_le (x m : Z) (l : list Z) :
  x <= m -> Forall (fun k => k <= m) l -> foldl Z.max x l <= m.
Proof.
  intros Hx Hl. revert x Hx. induction Hl as [|k l Hk _ IH]; intros x Hx; [done|].
  simpl. apply IH. lia.
Qed.

Lemma foldl_max_ge (x : Z) (l : list Z) :
  x <= foldl Z.max x l /\ Forall (fun k => k <= foldl Z.max x l) l.
Proof.
  revert x. induction l as [|k l IH]; intros x; [split; [simpl; lia|constructor]|].
  simpl. destruct (IH (Z.max x k)) as [H1 H2]. split; [lia|].
  constructor; [lia|done].
Qed.

Lemma foldl_max_eq (x m : Z) (l : list Z) :
  x <= m -> Forall (fun k => k <= m) l -> m ∈ l -> foldl Z.max x l = m.
Proof.
  intros Hx Hl Hm. pose proof (foldl_max_le x m l Hx Hl).
  destruct (foldl_max_ge x l) as [_ Hge]. rewrite Forall_forall in Hge.
  specialize (Hge m Hm). lia.
Qed.

Lemma foldl_wrap_sum (x : Z) (l : list Z) :
  Forall (fun k => 0 <= k) l -> in_int x -> 0 <= x -> x + sumZ l <= int_max ->
  foldl (fun s k => wrap (s + k)) x l = x + sumZ l.
Proof.
  intros Hl. revert x. induction Hl as [|k l Hk Hl IH]; intros x Hx Hx0 Hsum.
  - simpl. lia.
  - simpl in *. assert (0 <= sumZ l) as Hnn.
    { clear -Hl. induction Hl; simpl; [done|]. fold (sumZ l). lia. }
    fold (sumZ l) in Hsum.
    rewrite wrap_small by in_range. rewrite IH; [fold (sumZ l); lia|in_range|lia|lia].
Qed.

(** ** The verifier on the finished tables, for every floor count up to F *)

Section Verified.

Context (F E : Z) (fuel : nat) (tb : bool) (V A : gmap tState Z).
Hypothesis HF : 1 <= F < int_max.
Hypothesis HE : 1 <= E < int_max.
Hypothesis Hfuel : F + 1 <= Z.of_nat fuel.
Hypothesis Hinv : table_inv fuel tb F E (E + 1) F (F + 1) V A.

Local Abbreviation run_of := (run_of fuel A).
Local Abbreviation run_facts := (run_facts fuel A).

Lemma finished_run_from f e L :
  0 <= f <= F -> 1 <= e <= E ->
  exists k tr,
    runs A L (mkState e 0 (f + 1)) k tr /\ 0 <= k <= opt e f /\
    inside L (mkState e 0 (f + 1)) tr /\
    run_policy_once fuel f e L A (Some []) = Ok (k, Some tr).
Proof.
  intros Hf He.
  assert (stored F E (E + 1) F (F + 1) (mkState e 0 (f + 1))) as Hs.
  { unfold stored, in_table. simpl. lia. }
  destruct (runs_from_stored F E HF HE fuel tb (E + 1) F (F + 1) V A
              (Z.to_nat (f + 1)) _ Hinv Hs ltac:(simpl; lia)) as [Hall _].
  destruct (Hall L) as (k & tr & Hr & Hk & _). simpl in Hk.
  replace (f + 1 - 0 - 1) with f in Hk by lia.
  exists k, tr. split; [done|]. split; [done|].
  split; [by eapply (runs_stored_inside fuel tb F E)|].
  unfold run_policy_once. simpl. rewrite wrap_small by in_range.
  pose proof (runs_length _ _ _ _ _ Hr).
  pose proof (opt_bounds e f ltac:(lia)).
  rewrite (policy_loop_runs _ _ _ _ _ _ _ _ Hr) by (try lia; in_range).
  simpl. rewrite wrap_small by in_range. done.
Qed.

Lemma finished_worst_from f e :
  0 <= f <= F -> 1 <= e <= E ->
  exists L tr, 0 <= L <= f /\
    run_policy_once fuel f e L A (Some []) = Ok (opt e f, Some tr).
Proof.
  intros Hf He.
  assert (stored F E (E + 1) F (F + 1) (mkState e 0 (f + 1))) as Hs.
  { unfold stored, in_table. simpl. lia. }
  destruct (runs_from_stored F E HF HE fuel tb (E + 1) F (F + 1) V A
              (Z.to_nat (f + 1)) _ Hinv Hs ltac:(simpl; lia)) as [_ Hworst].
  destruct Hworst as (L & k & tr & HL & Hr & Hk). simpl in HL, Hk.
  replace (f + 1 - 0 - 1) with f in Hk by lia.
  destruct (finished_run_from f e L Hf He) as (k' & tr' & Hr' & _ & _ & Hrun).
  destruct (runs_deterministic _ _ _ _ _ _ _ Hr Hr') as [<- <-].
  exists L, tr. split; [lia|]. by rewrite <- Hk.
Qed.

Lemma finished_run_facts f e l :
  0 <= f <= F -> 1 <= e <= E -> 0 <= l <= f -> run_facts f e l (run_of f e l).
Proof.
  intros Hf He Hl.
  destruct (finished_run_from f e l Hf He) as (k & tr & Hr & Hk & Hin & Hrun).
  unfold run_of, run_facts. rewrite Hrun. simpl.
  split; [done|]. pose proof (runs_length _ _ _ _ _ Hr) as Hlen.
  split; [done|]. split; [done|]. split; [by eapply inside_nodup|].
  split.
  { eapply Forall_impl; [by eapply inside_forall|]. simpl. lia. }
  destruct (run_policy_once_certified fuel f e l A (Some []) k (Some tr) ltac:(lia) Hl Hrun)
    as (tr' & Hq & _ & _ & _ & Hfin & He0 & HlL & HlR).
  simpl in Hq. injection Hq as <-.
  pose proof (opt_bounds e f ltac:(lia)) as Hopt.
  rewrite replay_eggs in Hfin, He0 by (simpl; in_range). simpl in Hfin, He0.
  split; [lia|]. done.
Qed.

Lemma finished_runs_list f e :
  0 <= f <= F -> 1 <= e <= E ->
  Forall2 (run_facts f e) (seqZ 0 (f + 1)) (run_of f e <$> seqZ 0 (f + 1)) /\
  opt e f ∈ (run_of f e <$> seqZ 0 (f + 1)).*1.
Proof.
  intros Hf He. split.
  - apply Forall2_fmap_r, Forall_Forall2_diag, Forall_seqZ.
    intros l Hl. apply finished_run_facts; lia.
  - destruct (finished_worst_from f e Hf He) as (L & tr & HL & Hrun).
    apply list_elem_of_fmap. exists (run_of f e L). split.
    + unfold run_of. by rewrite Hrun.
    + apply list_elem_of_fmap. exists L. split; [done|]. apply elem_of_seqZ. lia.
Qed.

(** [check_policy] for [f] floors and [e] eggs on the tables built for
    [F] floors. *)
Lemma finished_check f e D H :
  0 <= f <= F -> 1 <= e <= E ->
  let R := run_of f e <$> seqZ 0 (f + 1) in
  exists d',
    bump_all ((fun _ => 0) <$> seqZ 0 (f + 1)) (concat R.*2) = Ok d' /\
    Z.of_nat (length d') = f + 1 /\
    check_policy fuel f e V A D H =
    Ok (mkOut true (opt e f) (foldl (fun s k => wrap (s + k)) 0 R.*1) (f + 1)
              ((fun _ => d') <$> D) ((fun _ => foldl hist_bump ∅ R.*1) <$> H)).
Proof.
  intros Hf He R. destruct (finished_runs_list f e Hf He) as [HR Hmax]. fold R in HR, Hmax.
  destruct (bump_all_ok ((fun _ => 0) <$> seqZ 0 (f + 1)) (concat R.*2)) as (d' & Hb & Hlen).
  { apply Forall_concat, Forall_fmap. eapply Forall2_Forall_r; [exact HR|].
    apply Forall_seqZ. intros l Hl r (_ & _ & _ & _ & Htr & _). simpl.
    eapply Forall_impl; [exact Htr|]. simpl. intros a Ha.
    rewrite length_fmap, length_seqZ. lia. }
  exists d'. split; [done|]. rewrite length_fmap, length_seqZ in Hlen. split; [lia|].
  unfold check_policy. rewrite wrap_small by in_range.
  unfold deref.
  rewrite (finished_lookup F E fuel tb V A Hinv e 0 (f + 1)) by lia.
  replace (f + 1 - 0 - 1) with f by lia. cbn [bind].
  rewrite (check_loop_full fuel f e A (seqZ 0 (f + 1)) R).
  2:{ eapply Forall2_impl; [exact HR|]. by intros l r [Hrun _]. }
  cbn [acc_D max_steps sum_steps acc_H].
  assert (foldl Z.max 0 R.*1 = opt e f) as ->.
  { pose proof (opt_bounds e f ltac:(lia)). apply foldl_max_eq; [lia| |done].
    apply Forall_fmap. eapply Forall2_Forall_r; [exact HR|].
    apply Forall_seqZ. intros l Hl r (_ & _ & Hk & _). simpl. lia. }
  destruct D as [d|]; simpl.
  - rewrite Hb. cbn [bind max_steps sum_steps acc_D acc_H].
    rewrite Z.eqb_refl. by destruct H.
  - rewrite Z.eqb_refl. by destruct H.
Qed.

End Verified.

(** ** Counting *)

Lemma count_of_nil k : count_of k [] = 0.
Proof. done. Qed.

Lemma count_of_cons k x l :
  count_of k (x :: l) = (if decide (x = k) then 1 else 0) + count_of k l.
Proof.
  unfold count_of. rewrite filter_cons. destruct (decide (x = k)); simpl; lia.
Qed.

Lemma count_of_app k l1 l2 : count_of k (l1 ++ l2) = count_of k l1 + count_of k l2.
Proof. unfold count_of. rewrite filter_app, length_app. lia. Qed.

Lemma count_of_bounds k l : 0 <= count_of k l <= Z.of_nat (length l).
Proof. unfold count_of. pose proof (length_filter (fun x => x = k) l). lia. Qed.

Lemma count_of_elem k l : k ∈ l <-> 1 <= count_of k l.
Proof.
  induction l as [|x l IH]; [rewrite elem_of_nil, count_of_nil; lia|].
  rewrite elem_of_cons, count_of_cons. pose proof (count_of_bounds k l).
  destruct (decide (x = k)) as [->|Hne]; [split; [lia|by left]|].
  rewrite IH. split; [intros [?|?]; [congruence|lia]|right; lia].
Qed.

Lemma count_of_nodup k l : NoDup l -> count_of k l <= 1.
Proof.
  induction 1 as [|x l Hx Hl IH]; [rewrite count_of_nil; lia|].
  rewrite count_of_cons. destruct (decide (x = k)) as [->|Hne]; [|lia].
  assert (~ 1 <= count_of k l) by (by rewrite <- count_of_elem). lia.
Qed.

Lemma sumZ_app l1 l2 : sumZ (l1 ++ l2) = sumZ l1 + sumZ l2.
Proof. induction l1 as [|x l1 IH]; simpl; [done|]. unfold sumZ in *. simpl. lia. Qed.

Lemma sumZ_cons x l : sumZ (x :: l) = x + sumZ l.
Proof. done. Qed.

Lemma sumZ_fmap_add {T : Type} (g h : T -> Z) (l : list T) :
  sumZ ((fun x => g x + h x) <$> l) = sumZ (g <$> l) + sumZ (h <$> l).
Proof. induction l as [|x l IH]; [done|]. rewrite !fmap_cons, !sumZ_cons, IH. lia. Qed.

Lemma sumZ_fmap_ext {T : Type} (g h : T -> Z) (l : list T) :
  (forall x, x ∈ l -> g x = h x) -> sumZ (g <$> l) = sumZ (h <$> l).
Proof.
  induction l as [|x l IH]; intros Hext; [done|].
  rewrite !fmap_cons, !sumZ_cons, IH, (Hext x); [done|apply list_elem_of_here|].
  intros y Hy. apply Hext. by apply list_elem_of_further.
Qed.

Lemma sumZ_zero {T : Type} (l : list T) : sumZ ((fun _ => 0) <$> l) = 0.
Proof. induction l as [|x l IH]; [done|]. rewrite fmap_cons, sumZ_cons, IH. lia. Qed.

Lemma sumZ_nonneg l : Forall (fun x => 0 <= x) l -> 0 <= sumZ l.
Proof. induction 1 as [|x l Hx _ IH]; [done|]. rewrite sumZ_cons. lia. Qed.

Lemma sumZ_le_length (m : Z) l :
  Forall (fun x => x <= m) l -> sumZ l <= m * Z.of_nat (length l).
Proof. induction 1 as [|x l Hx _ IH]; [simpl; lia|]. rewrite sumZ_cons. simpl length. lia. Qed.

Lemma sumZ_ge_length (m : Z) l :
  Forall (fun x => m <= x) l -> m * Z.of_nat (length l) <= sumZ l.
Proof. induction 1 as [|x l Hx _ IH]; [simpl; lia|]. rewrite sumZ_cons. simpl length. lia. Qed.

(** One cell of a range holds a given member of the range. *)
Lemma sumZ_indicator (w : Z -> Z) lo (n : nat) x :
  lo <= x < lo + Z.of_nat n ->
  sumZ ((fun k => if decide (x = k) then w k else 0) <$> seqZ lo (Z.of_nat n)) = w x.
Proof.
  revert lo. induction n as [|n IH]; intros lo Hx; [lia|].
  rewrite seqZ_cons by lia. replace (Z.pred (Z.of_nat (S n))) with (Z.of_nat n) by lia.
  rewrite fmap_cons, sumZ_cons. destruct (decide (x = lo)) as [->|Hne].
  - rewrite (sumZ_fmap_ext _ (fun _ => 0)), sumZ_zero; [lia|].
    intros k Hk. apply elem_of_seqZ in Hk. destruct (decide (lo = k)); [lia|done].
  - rewrite IH by lia. lia.
Qed.

Lemma sumZ_counts (w : Z -> Z) lo (n : nat) l :
  Forall (fun x => lo <= x < lo + Z.of_nat n) l ->
  sumZ ((fun k => w k * count_of k l) <$> seqZ lo (Z.of_nat n)) = sumZ (w <$> l).
Proof.
  induction 1 as [|x l Hx _ IH].
  - rewrite (sumZ_fmap_ext _ (fun _ => 0)), sumZ_zero; [done|].
    intros k _. rewrite count_of_nil. lia.
  - rewrite fmap_cons, sumZ_cons, <- IH, <- (sumZ_indicator w lo n x Hx), <- sumZ_fmap_add.
    apply sumZ_fmap_ext. intros k _. rewrite count_of_cons.
    destruct (decide (x = k)); lia.
Qed.

(** ** The histogram of step counts *)

Lemma hist_fold_lookup ks : forall h k,
  (forall k, 0 <= default 0 (h !! k) /\
             default 0 (h !! k) + Z.of_nat (length ks) <= int_max) ->
  default 0 (foldl hist_bump h ks !! k) = default 0 (h !! k) + count_of k ks /\
  (foldl hist_bump h ks !! k = None <-> h !! k = None /\ k ∉ ks).
Proof.
  induction ks as [|x ks IH]; intros h k Hh.
  - simpl. rewrite count_of_nil. split; [lia|]. split; [|tauto].
    intros Hn. split; [done|]. apply not_elem_of_nil.
  - cbn [foldl].
    assert (forall k, 0 <= default 0 (hist_bump h x !! k) /\
              default 0 (hist_bump h x !! k) + Z.of_nat (length ks) <= int_max) as Hh'.
    { intros k'. unfold hist_bump. pose proof (Hh x) as Hx. specialize (Hh k').
      simpl in Hh, Hx.
      destruct (decide (x = k')) as [->|Hne].
      - rewrite lookup_insert_eq. simpl. rewrite wrap_small by in_range. lia.
      - rewrite lookup_insert_ne by done. lia. }
    destruct (IH (hist_bump h x) k Hh') as [Hval Hnone].
    rewrite Hval, Hnone, count_of_cons. unfold hist_bump.
    pose proof (Hh x) as Hx. simpl in Hx.
    destruct (decide (x = k)) as [->|Hne].
    + rewrite lookup_insert_eq. simpl. rewrite wrap_small by in_range.
      split; [lia|]. split; [intros [? _]; done|].
      intros [_ Hk]. exfalso. apply Hk, list_elem_of_here.
    + rewrite lookup_insert_ne by done. split; [lia|].
      rewrite not_elem_of_cons. split; [intros [? ?]; done|intros [? [_ ?]]; done].
Qed.

Lemma hist_from_empty ks k :
  Z.of_nat (length ks) <= int_max ->
  default 0 (foldl hist_bump ∅ ks !! k) = count_of k ks /\
  (foldl hist_bump ∅ ks !! k = None <-> k ∉ ks).
Proof.
  intros Hlen. destruct (hist_fold_lookup ks ∅ k) as [Hval Hnone].
  - intros k'. rewrite lookup_empty. simpl. lia.
  - rewrite lookup_empty in Hval, Hnone. simpl in Hval. split; [lia|].
    rewrite Hnone. tauto.
Qed.

(** ** The histogram of drops *)

Lemma sumZ_insert (d : list Z) i c x :
  d !! i = Some c -> sumZ (<[i := x]> d) = sumZ d - c + x.
Proof.
  revert i. induction d as [|y d IH]; intros i Hi; [done|].
  destruct i as [|i]; simpl in *.
  - injection Hi as ->. unfold sumZ. simpl. lia.
  - specialize (IH i Hi). unfold sumZ in *. simpl. lia.
Qed.

Lemma bump_all_lookup tr : forall d d',
  Forall (fun c => 0 <= c /\ c + Z.of_nat (length tr) <= int_max) d ->
  bump_all d tr = Ok d' ->
  forall i c, d !! i = Some c -> d' !! i = Some (c + count_of (Z.of_nat i) tr).
Proof.
  induction tr as [|a tr IH]; intros d d' Hd; simpl.
  - intros [= <-] i c Hi. rewrite count_of_nil, Z.add_0_r. done.
  - destruct (Z.ltb_spec a 0) as [|Ha]; [done|].
    unfold vec_at. destruct (d !! Z.to_nat a) as [ca|] eqn:Hca; [|done]. cbn [bind].
    intros Hb i c Hi. rewrite count_of_cons.
    rewrite Forall_forall in Hd.
    pose proof (Hd ca (list_elem_of_lookup_2 _ _ _ Hca)) as Hcab. simpl in Hcab.
    assert (wrap (ca + 1) = ca + 1) as Hw by (apply wrap_small; in_range).
    rewrite Hw in Hb.
    assert (Forall (fun c => 0 <= c /\ c + Z.of_nat (length tr) <= int_max)
                   (<[Z.to_nat a := ca + 1]> d)) as Hd'.
    { apply Forall_insert; [|lia].
      apply Forall_forall. intros y Hy. specialize (Hd y Hy). simpl in Hd. lia. }
    destruct (decide (a = Z.of_nat i)) as [->|Hne].
    + rewrite Nat2Z.id in Hca, Hb, Hd'. assert (ca = c) as -> by congruence.
      rewrite (IH _ _ Hd' Hb i (c + 1)); [f_equal; lia|].
      rewrite list_lookup_insert_eq; [done|]. by eapply lookup_lt_Some.
    + rewrite (IH _ _ Hd' Hb i c); [f_equal; lia|].
      rewrite list_lookup_insert_ne; [done|lia].
Qed.

Lemma bump_all_sum tr : forall d d',
  Forall (fun c => 0 <= c /\ c + Z.of_nat (length tr) <= int_max) d ->
  bump_all d tr = Ok d' -> sumZ d' = sumZ d + Z.of_nat (length tr).
Proof.
  induction tr as [|a tr IH]; intros d d' Hd; simpl.
  - intros [= <-]. lia.
  - destruct (Z.ltb_spec a 0) as [|Ha]; [done|].
    unfold vec_at. destruct (d !! Z.to_nat a) as [ca|] eqn:Hca; [|done]. cbn [bind].
    intros Hb. rewrite Forall_forall in Hd.
    pose proof (Hd ca (list_elem_of_lookup_2 _ _ _ Hca)) as Hcab. simpl in Hcab.
    assert (wrap (ca + 1) = ca + 1) as Hw by (apply wrap_small; in_range).
    rewrite Hw in Hb.
    assert (Forall (fun c => 0 <= c /\ c + Z.of_nat (length tr) <= int_max)
                   (<[Z.to_nat a := ca + 1]> d)) as Hd'.
    { apply Forall_insert; [|lia].
      apply Forall_forall. intros y Hy. specialize (Hd y Hy). simpl in Hd. lia. }
    rewrite (IH _ _ Hd' Hb), (sumZ_insert d _ ca) by done. simpl length. lia.
Qed.

Lemma count_of_concat k (ls : list (list Z)) :
  count_of k (concat ls) = sumZ (count_of k <$> ls).
Proof.
  induction ls as [|l ls IH]; [done|].
  simpl. rewrite count_of_app, IH. done.
Qed.

Lemma length_concat_sum (ls : list (list Z)) :
  Z.of_nat (length (concat ls)) = sumZ ((fun l => Z.of_nat (length l)) <$> ls).
Proof.
  induction ls as [|l ls IH]; [done|].
  simpl. rewrite length_app, Nat2Z.inj_add, IH. done.
Qed.

Lemma sumZ_ones {T : Type} (l : list T) : sumZ ((fun _ => 1) <$> l) = Z.of_nat (length l).
Proof. induction l as [|x l IH]; [done|]. rewrite fmap_cons, sumZ_cons, IH. simpl length. lia. Qed.

(** ** The report of check_policy on the finished tables *)

Section Report.

Context (F E : Z) (fuel : nat) (tb : bool) (V A : gmap tState Z).
Hypothesis HF : 1 <= F < int_max.
Hypothesis HE : 1 <= E < int_max.
Hypothesis Hfuel : F + 1 <= Z.of_nat fuel.
Hypothesis Hinv : table_inv fuel tb F E (E + 1) F (F + 1) V A.

Local Abbreviation run_of := (run_of fuel A).
Local Abbreviation run_facts := (run_facts fuel A).

Lemma finished_steps f e :
  1 <= f <= F -> 1 <= e <= E ->
  let ks := (run_of f e <$> seqZ 0 (f + 1)).*1 in
  Forall (fun k => 1 <= k <= opt e f) ks /\ Z.of_nat (length ks) = f + 1 /\
  opt e f ∈ ks /\ 1 <= opt e f <= f /\
  f + 1 <= sumZ ks <= opt e f * (f + 1) /\
  ks = (fun l => Z.of_nat (length (run_of f e l).2)) <$> seqZ 0 (f + 1).
Proof.
  intros Hf He ks.
  destruct (finished_runs_list F E fuel tb V A HF HE Hfuel Hinv f e ltac:(lia) He) as [_ Hmax].
  fold ks in Hmax.
  assert (Forall (fun k => 1 <= k <= opt e f) ks) as Hks.
  { unfold ks. rewrite <- list_fmap_compose. apply Forall_fmap, Forall_seqZ.
    intros l Hl. simpl.
    destruct (finished_run_facts F E fuel tb V A HF HE Hfuel Hinv f e l ltac:(lia) He ltac:(lia))
      as (_ & Hlen & Hk & _ & _ & _ & _ & HlL & HlR).
    split; [|lia]. rewrite Hlen.
    destruct (decide (1 <= l)) as [H1|H1].
    - specialize (HlL H1). destruct (run_of f e l).2; [by apply elem_of_nil in HlL|simpl; lia].
    - specialize (HlR ltac:(lia)).
      destruct (run_of f e l).2; [by apply elem_of_nil in HlR|simpl; lia]. }
  assert (Z.of_nat (length ks) = f + 1) as Hlen.
  { unfold ks. rewrite !length_fmap, length_seqZ. lia. }
  pose proof (opt_bounds e f ltac:(lia)) as Hopt.
  assert (1 <= opt e f) as Hopt1.
  { rewrite Forall_forall in Hks. specialize (Hks _ Hmax). lia. }
  split; [done|]. split; [done|]. split; [done|]. split; [lia|]. split.
  - split.
    + rewrite <- Hlen. replace (Z.of_nat (length ks)) with (1 * Z.of_nat (length ks)) by lia.
      apply sumZ_ge_length. eapply Forall_impl; [exact Hks|]. simpl. lia.
    + rewrite <- Hlen. apply sumZ_le_length.
      eapply Forall_impl; [exact Hks|]. simpl. lia.
  - unfold ks. rewrite <- list_fmap_compose. apply list_fmap_ext.
    intros i l Hl. apply lookup_seqZ in Hl as [-> Hi]. simpl.
    by destruct (finished_run_facts F E fuel tb V A HF HE Hfuel Hinv f e (0 + Z.of_nat i)
                   ltac:(lia) He ltac:(lia)) as (_ & Hlen' & _).
Qed.

Lemma finished_drop_counts f e a :
  1 <= f <= F -> 1 <= e <= E -> 0 <= a <= f ->
  let tr := concat (run_of f e <$> seqZ 0 (f + 1)).*2 in
  (a = 0 -> count_of a tr = 0) /\ (1 <= a -> 2 <= count_of a tr <= f + 1).
Proof.
  intros Hf He Ha tr. unfold tr. rewrite count_of_concat, <- !list_fmap_compose.
  assert (forall l, 0 <= l <= f -> run_facts f e l (run_of f e l)) as Hfacts.
  { intros l Hl.
    by apply (finished_run_facts F E fuel tb V A HF HE Hfuel Hinv f e l ltac:(lia) He). }
  split.
  - intros ->. rewrite (sumZ_fmap_ext _ (fun _ => 0)), sumZ_zero; [done|].
    intros l Hl. apply elem_of_seqZ in Hl. simpl.
    destruct (Hfacts l ltac:(lia)) as (_ & _ & _ & _ & Htr & _).
    pose proof (count_of_bounds 0 (run_of f e l).2).
    destruct (decide (1 <= count_of 0 (run_of f e l).2)) as [Hc|Hc]; [|lia].
    apply count_of_elem in Hc. rewrite Forall_forall in Htr. specialize (Htr 0 Hc). lia.
  - intros Ha1. split.
    + replace (f + 1) with ((a - 1) + (2 + (f - a))) by lia.
      rewrite seqZ_app by lia. rewrite fmap_app, sumZ_app.
      rewrite (seqZ_cons (0 + (a - 1))) by lia. rewrite fmap_cons, sumZ_cons.
      rewrite (seqZ_cons (Z.succ _)) by lia. rewrite fmap_cons, sumZ_cons.
      assert (forall ls, 0 <= sumZ ((count_of a ∘ snd ∘ run_of f e) <$> ls)) as Hnn.
      { intros ls. apply sumZ_nonneg, Forall_fmap, Forall_forall. intros l _. simpl.
        apply count_of_bounds. }
      pose proof (Hnn (seqZ 0 (a - 1))).
      destruct (Hfacts (0 + (a - 1)) ltac:(lia)) as (_ & _ & _ & _ & _ & _ & _ & _ & HR).
      destruct (Hfacts (Z.succ (0 + (a - 1))) ltac:(lia)) as (_ & _ & _ & _ & _ & _ & _ & HL & _).
      specialize (HR ltac:(lia)). specialize (HL ltac:(lia)).
      replace (0 + (a - 1) + 1) with a in HR by lia.
      replace (Z.succ (0 + (a - 1))) with a in HL |- * by lia.
      apply count_of_elem in HR, HL. simpl.
      match goal with
      | |- context [sumZ (_ <$> seqZ (Z.succ a) ?n)] =>
          pose proof (Hnn (seqZ (Z.succ a) n))
      end. lia.
    + pose proof (sumZ_le_length 1 ((count_of a ∘ snd ∘ run_of f e) <$> seqZ 0 (f + 1))) as Hle.
      rewrite length_fmap, length_seqZ in Hle.
      assert (forall x y : Z, x <= 1 * y -> y = f + 1 -> x <= f + 1) as Hstep by (intros; lia).
      eapply Hstep; [apply Hle|lia].
      apply Forall_fmap, Forall_seqZ. intros l Hl. simpl.
      destruct (Hfacts l ltac:(lia)) as (_ & _ & _ & Hnd & _).
      by apply count_of_nodup.
Qed.

Lemma finished_report f e d0 h0 :
  1 <= f <= F -> 1 <= e <= E -> f * (f + 1) <= int_max ->
  exists out d h,
    check_policy fuel f e V A (Some d0) (Some h0) = Ok out /\
    looks_ok out = true /\ max_drops out = opt e f /\ mean_den out = f + 1 /\
    out_D out = Some d /\ out_H out = Some h /\
    f + 1 <= mean_num out <= max_drops out * (f + 1) /\
    Z.of_nat (length d) = f + 1 /\ d !! 0%nat = Some 0 /\
    (forall a, 1 <= a <= f -> exists c, d !! Z.to_nat a = Some c /\ 2 <= c <= f + 1) /\
    sumZ d = mean_num out /\
    (forall k c, h !! k = Some c -> 1 <= k <= max_drops out /\ 1 <= c <= f + 1) /\
    is_Some (h !! max_drops out) /\
    sumZ ((fun k => default 0 (h !! k)) <$> seqZ 0 (max_drops out + 1)) = f + 1 /\
    sumZ ((fun k => k * default 0 (h !! k)) <$> seqZ 0 (max_drops out + 1)) = mean_num out.
Proof.
  intros Hf He Hsmall.
  destruct (finished_check F E fuel tb V A HF HE Hfuel Hinv f e (Some d0) (Some h0)
              ltac:(lia) He) as (d & Hb & Hdlen & Hcheck).
  destruct (finished_steps f e Hf He) as (Hks & Hlen & Hmax & Hopt & Hsum & Hkl).
  set (R := run_of f e <$> seqZ 0 (f + 1)) in *. set (ks := R.*1) in *.
  assert (sumZ ks <= int_max) as Hsmall' by nia.
  assert (foldl (fun s k => wrap (s + k)) 0 ks = sumZ ks) as Hfold.
  { rewrite foldl_wrap_sum; [lia| |in_range|lia|lia].
    eapply Forall_impl; [exact Hks|]. simpl. lia. }
  assert (Z.of_nat (length (concat R.*2)) = sumZ ks) as Htr.
  { rewrite length_concat_sum. rewrite Hkl. unfold R.
    rewrite <- !list_fmap_compose. done. }
  assert (Forall (fun c => 0 <= c /\ c + Z.of_nat (length (concat R.*2)) <= int_max)
                 ((fun _ : Z => 0) <$> seqZ 0 (f + 1))) as Hzero.
  { apply Forall_fmap, Forall_forall. intros l _. simpl. lia. }
  eexists. exists d, (foldl hist_bump ∅ ks). split; [exact Hcheck|].
  cbn [looks_ok max_drops mean_den mean_num out_D out_H fmap option_fmap option_map].
  rewrite Hfold.
  split; [done|]. split; [done|]. split; [done|]. split; [done|]. split; [done|].
  split; [done|]. split; [done|].
  assert (forall a, 0 <= a <= f -> d !! Z.to_nat a = Some (count_of a (concat R.*2))) as Hd.
  { intros a Ha.
    rewrite (bump_all_lookup _ _ _ Hzero Hb (Z.to_nat a) 0).
    - rewrite Z2Nat.id by lia. done.
    - rewrite list_lookup_fmap, lookup_seqZ_lt by lia. done. }
  split.
  { pose proof (Hd 0 ltac:(lia)) as Hd0. change (Z.to_nat 0) with 0%nat in Hd0.
    rewrite Hd0. f_equal.
    by apply (finished_drop_counts f e 0 Hf He ltac:(lia)). }
  split.
  { intros a Ha. exists (count_of a (concat R.*2)). split; [apply Hd; lia|].
    apply (finished_drop_counts f e a Hf He ltac:(lia)). lia. }
  split.
  { rewrite (bump_all_sum _ _ _ Hzero Hb), sumZ_zero. lia. }
  assert (forall k, default 0 (foldl hist_bump ∅ ks !! k) = count_of k ks /\
            (foldl hist_bump ∅ ks !! k = None <-> k ∉ ks)) as Hh.
  { intros k. apply hist_from_empty. in_range. }
  rewrite Forall_forall in Hks.
  split.
  { intros k c Hk. destruct (Hh k) as [Hval Hnone]. rewrite Hk in Hval, Hnone. simpl in Hval.
    assert (k ∈ ks) as Hin.
    { destruct (decide (k ∈ ks)); [done|]. assert (Some c = None) by by apply Hnone. done. }
    split; [by apply Hks|]. subst c. pose proof (count_of_bounds k ks).
    apply count_of_elem in Hin. lia. }
  split.
  { destruct (Hh (opt e f)) as [_ Hnone].
    destruct (foldl hist_bump ∅ ks !! opt e f) eqn:Hl; [by eexists|].
    exfalso. by apply Hnone. }
  assert (Forall (fun k => 0 <= k < 0 + Z.of_nat (Z.to_nat (opt e f + 1))) ks) as Hrange.
  { apply Forall_forall. intros k Hk. specialize (Hks k Hk). lia. }
  split.
  - rewrite (sumZ_fmap_ext _ (fun k => 1 * count_of k ks)).
    2:{ intros k _. destruct (Hh k) as [-> _]. lia. }
    replace (opt e f + 1) with (Z.of_nat (Z.to_nat (opt e f + 1))) by lia.
    rewrite (sumZ_counts (fun _ => 1) 0 _ ks Hrange), sumZ_ones. done.
  - rewrite (sumZ_fmap_ext _ (fun k => k * count_of k ks)).
    2:{ intros k _. destruct (Hh k) as [-> _]. lia. }
    replace (opt e f + 1) with (Z.of_nat (Z.to_nat (opt e f + 1))) by lia.
    rewrite (sumZ_counts (fun k => k) 0 _ ks Hrange), list_fmap_id. done.
Qed.

End Report.

(** ** The mean of check_policy and total_policy_at *)

Lemma policy_loop_no_trace fuel L A s steps aseq :
  policy_loop fuel L A s steps None =
  match policy_loop fuel L A s steps aseq with
  | Ok (k, _) => Ok (k, None)
  | Fatal => Fatal
  | Undefined => Undefined
  | OutOfFuel => OutOfFuel
  end.
Proof.
  revert s steps aseq. induction fuel as [|fuel IH]; intros s steps aseq; [done|].
  simpl. destruct (isterminal s); [done|].
  destruct (deref A s) as [a| | |]; try done. cbn [bind]. apply IH.
Qed.

Lemma run_policy_once_first fuel F E L A a aseq :
  isterminal (mkState E 0 (wrap (F + 1))) = false ->
  A !! mkState E 0 (wrap (F + 1)) = Some a ->
  run_policy_once (S fuel) F E L A aseq
  = policy_loop fuel L A (next (mkState E 0 (wrap (F + 1))) a L) 1 ((fun _ => [a]) <$> aseq).
Proof.
  intros Ht Ha. unfold run_policy_once. cbn [policy_loop]. rewrite Ht.
  unfold deref. rewrite Ha. cbn [bind]. rewrite eggdrop_next.
  change (wrap (0 + 1)) with 1. by destruct aseq.
Qed.

Lemma check_loop_total fuel F E A a ls acc acc' :
  isterminal (mkState E 0 (wrap (F + 1))) = false ->
  A !! mkState E 0 (wrap (F + 1)) = Some a ->
  check_loop (S fuel) F E A ls acc = Ok acc' ->
  total_loop fuel (mkState E 0 (wrap (F + 1))) a A ls (sum_steps acc) = Ok (sum_steps acc').
Proof.
  intros Ht Ha. revert acc. induction ls as [|l ls IH]; intros acc.
  - simpl. by intros [= <-].
  - cbn [check_loop total_loop].
    rewrite (run_policy_once_first fuel F E l A a (Some []) Ht Ha).
    rewrite (policy_loop_no_trace fuel l A _ 1 ((fun _ => [a]) <$> Some (@nil Z))).
    destruct (policy_loop fuel l A _ 1 ((fun _ => [a]) <$> Some (@nil Z))) as [[k q]| | |];
      try done.
    cbn [bind].
    destruct (match acc_D acc with
              | Some d => do d' <- bump_all d (default [] q); Ok (Some d')
              | None => Ok None
              end) as [D'| | |]; try done.
    cbn [bind]. intros Hc. by apply IH in Hc.
Qed.

Lemma check_policy_total fuel F E V A D H out a :
  0 <= F < int_max ->
  isterminal (mkState E 0 (F + 1)) = false ->
  A !! mkState E 0 (F + 1) = Some a ->
  check_policy (S fuel) F E V A D H = Ok out ->
  total_policy_at fuel (mkState E 0 (F + 1)) a A = Ok (mean_num out) /\
  mean_den out = F + 1.
Proof.
  intros HF Ht Ha. unfold check_policy. rewrite wrap_small by in_range.
  destruct (deref V (mkState E 0 (F + 1))) as [v| | |]; try done. cbn [bind].
  destruct (check_loop (S fuel) F E A (seqZ 0 (F + 1)) _) as [acc| | |] eqn:Hc; try done.
  cbn [bind]. intros [= <-]. cbn [mean_num mean_den]. split; [|done].
  unfold total_policy_at. simpl. replace (F + 1 - 0) with (F + 1) by lia.
  pose proof (fun Ht Ha => check_loop_total fuel F E A a (seqZ 0 (F + 1)) _ acc Ht Ha Hc) as Ht'.
  rewrite wrap_small in Ht' by in_range. by apply Ht'.
Qed.

Lemma policy_loop_fuel fuel L A s steps aseq r :
  policy_loop fuel L A s steps aseq = Ok r ->
  policy_loop (S fuel) L A s steps aseq = Ok r.
Proof.
  revert s steps aseq. induction fuel as [|fuel IH]; intros s steps aseq; [done|].
  intros Hp. cbn [policy_loop] in Hp |- *. destruct (isterminal s); [done|].
  destruct (deref A s) as [a| | |]; try done. cbn [bind] in Hp |- *. by apply IH.
Qed.

Lemma total_loop_fuel fuel s a A ls tot r :
  total_loop fuel s a A ls tot = Ok r -> total_loop (S fuel) s a A ls tot = Ok r.
Proof.
  revert tot. induction ls as [|l ls IH]; intros tot; [done|].
  cbn [total_loop].
  destruct (policy_loop fuel l A (next s a l) 1 None) as [[k q]| | |] eqn:Hp; try done.
  rewrite (policy_loop_fuel _ _ _ _ _ _ _ Hp). cbn [bind]. apply IH.
Qed.

(** ** print_all_admissible and main on the finished tables *)

Section Reported.

Context (F E : Z) (fuel : nat) (tb : bool) (V A : gmap tState Z).
Hypothesis HF : 1 <= F < int_max.
Hypothesis HE : 1 <= E < int_max.
Hypothesis Hfuel : F + 1 <= Z.of_nat fuel.
Hypothesis Hinv : table_inv fuel tb F E (E + 1) F (F + 1) V A.

Lemma finished_admissible s :
  stored F E (E + 1) F (F + 1) s -> lb s + 2 <= ub s ->
  let floors := if decide (2 <= eggs s) then seqZ (lb s + 1) (ub s - lb s - 1)
                else [lb s + 1] in
  find_admissible_actions s V [] [] false = (floors, worst_after s <$> floors).
Proof.
  intros Hs Hw floors.
  pose proof (stored_ready F E _ _ _ _ Hs Hw) as Hr.
  pose proof Hr as ((Hl & Hlu & Hu & He) & _).
  rewrite find_admissible_actions_full by in_range.
  rewrite (admissible_list_ready F E HF HE fuel tb _ _ _ V A s Hinv Hr).
  unfold floors. destruct (decide (2 <= eggs s)); [|done].
  rewrite <- !list_fmap_compose. f_equal. by rewrite list_fmap_id.
Qed.

Lemma finished_print s :
  stored F E (E + 1) F (F + 1) s -> lb s + 2 <= ub s ->
  let floors := if decide (2 <= eggs s) then seqZ (lb s + 1) (ub s - lb s - 1)
                else [lb s + 1] in
  exists means,
    print_all_admissible fuel s V (Some A)
    = Ok (mkReport floors (worst_after s <$> floors) (Some means)) /\
    Forall2 (fun a m => total_policy_at fuel s a A = Ok m.1 /\ m.2 = ub s - lb s)
            floors means.
Proof.
  intros Hs Hw floors. unfold print_all_admissible.
  rewrite (finished_admissible s Hs Hw). fold floors.
  pose proof Hs as [(Hl & Hlu & Hu & He) _].
  destruct (for_each_ok (fun a_ => do t <- total_policy_at fuel s a_ A;
                                   Ok (t, wrap (ub s - lb s))) floors)
    as (means & Hmeans & Hall).
  { intros a Ha.
    destruct (finished_total F E fuel tb V A s a HF HE Hfuel Hinv Hs Hw) as [t Ht].
    - unfold floors in Ha. destruct (decide (2 <= eggs s)).
      + apply elem_of_seqZ in Ha. lia.
      + apply list_elem_of_singleton in Ha. lia.
    - unfold floors in Ha. destruct (decide (2 <= eggs s)); [by left|right].
      by apply list_elem_of_singleton in Ha.
    - rewrite Ht. by eexists. }
  exists means. rewrite Hmeans. cbn [bind]. split; [done|].
  eapply Forall2_impl; [exact Hall|]. intros a m Hm. simpl in Hm.
  destruct (total_policy_at fuel s a A) as [t| | |]; try done.
  cbn [bind] in Hm. injection Hm as <-. simpl.
  split; [done|]. apply wrap_small. in_range.
Qed.

(** The loop of [main] over the egg levels ends without [return 1], with
    a drop histogram of [F + 1] cells for every level. *)
Lemma main_levels_ok (n : nat) ec drops histo :
  1 <= ec -> ec + Z.of_nat n = E + 1 -> Z.of_nat (length drops) = ec ->
  (forall e d, 1 <= e -> drops !! Z.to_nat e = Some d -> Z.of_nat (length d) = F + 1) ->
  exists drops',
    main_levels fuel F V A (seqZ ec (Z.of_nat n)) drops histo = Ok (inr drops') /\
    Z.of_nat (length drops') = E + 1 /\
    (forall e d, 1 <= e -> drops' !! Z.to_nat e = Some d -> Z.of_nat (length d) = F + 1).
Proof.
  revert ec drops histo. induction n as [|n IH]; intros ec drops histo Hec Hn Hlen Hall.
  - exists drops. split; [done|]. split; [lia|done].
  - rewrite seqZ_cons by lia. replace (Z.pred (Z.of_nat (S n))) with (Z.of_nat n) by lia.
    cbn [main_levels]. unfold vec_at_int, vec_at.
    destruct (Z.ltb_spec ec 0); [lia|].
    rewrite lookup_app_r by lia. replace (Z.to_nat ec - length drops)%nat with 0%nat by lia.
    cbn [lookup list_lookup bind].
    destruct (finished_check F E fuel tb V A HF HE Hfuel Hinv F ec (Some []) (Some histo)
                ltac:(lia) ltac:(lia)) as (d' & _ & Hd' & ->).
    cbn [bind out_D out_H looks_ok max_drops negb fmap option_fmap option_map default].
    assert (stored F E (E + 1) F (F + 1) (mkState ec 0 (F + 1))) as Hs.
    { unfold stored, in_table. simpl. lia. }
    destruct (finished_print (mkState ec 0 (F + 1)) Hs ltac:(simpl; lia)) as (means & Hp & _).
    rewrite wrap_small by in_range. rewrite Hp. cbn [bind].
    apply IH.
    + lia.
    + lia.
    + rewrite length_insert, length_app. simpl. lia.
    + intros e d He Hd. destruct (decide (e = ec)) as [->|Hne].
      * rewrite list_lookup_insert_eq in Hd by (rewrite length_app; simpl; lia).
        by injection Hd as <-.
      * rewrite list_lookup_insert_ne in Hd by lia.
        apply lookup_app_Some in Hd as [Hd|[Hge Hd]]; [by eapply Hall|].
        assert (Z.to_nat e - length drops = 0)%nat as Hz.
        { destruct (Z.to_nat e - length drops)%nat; [done|]. done. }
        lia.
Qed.

Lemma main_tables_ok drops :
  Z.of_nat (length drops) = E + 1 ->
  (forall e d, 1 <= e -> drops !! Z.to_nat e = Some d -> Z.of_nat (length d) = F + 1) ->
  main_tables fuel F E V A drops = Ok tt.
Proof.
  intros Hlen Hall. unfold main_tables.
  destruct (for_each_ok (fun f =>
              for_each (fun e => deref V (mkState e 0 (wrap (f + 1)))) (seqZ 1 E)) (seqZ 1 F))
    as (r1 & -> & _).
  { intros f Hf. apply elem_of_seqZ in Hf.
    destruct (for_each_ok (fun e => deref V (mkState e 0 (wrap (f + 1)))) (seqZ 1 E))
      as (r & Hr & _); [|by eexists].
    intros e He. apply elem_of_seqZ in He. rewrite wrap_small by in_range.
    unfold deref.
    rewrite (finished_lookup F E fuel tb V A Hinv e 0 (f + 1)) by lia. by eexists. }
  cbn [bind].
  destruct (for_each_ok (fun f =>
              for_each (fun e => do out <- check_policy fuel f e V A None None;
                                 Ok (mean_num out, mean_den out)) (seqZ 1 E)) (seqZ 1 F))
    as (r2 & -> & _).
  { intros f Hf. apply elem_of_seqZ in Hf.
    destruct (for_each_ok (fun e => do out <- check_policy fuel f e V A None None;
                                    Ok (mean_num out, mean_den out)) (seqZ 1 E))
      as (r & Hr & _); [|by eexists].
    intros e He. apply elem_of_seqZ in He.
    destruct (finished_check F E fuel tb V A HF HE Hfuel Hinv f e None None
                ltac:(lia) ltac:(lia)) as (d' & _ & _ & ->).
    by eexists. }
  cbn [bind].
  destruct (for_each_ok (fun f =>
              for_each (fun e => do d <- vec_at_int drops e; vec_at_int d f) (seqZ 1 E))
              (seqZ 1 F))
    as (r3 & -> & _).
  { intros f Hf. apply elem_of_seqZ in Hf.
    destruct (for_each_ok (fun e => do d <- vec_at_int drops e; vec_at_int d f) (seqZ 1 E))
      as (r & Hr & _); [|by eexists].
    intros e He. apply elem_of_seqZ in He. unfold vec_at_int, vec_at.
    destruct (Z.ltb_spec e 0); [lia|].
    destruct (lookup_lt_is_Some_2 drops (Z.to_nat e) ltac:(lia)) as [d Hd].
    rewrite Hd. cbn [bind]. destruct (Z.ltb_spec f 0); [lia|].
    pose proof (Hall e d ltac:(lia) Hd).
    destruct (lookup_lt_is_Some_2 d (Z.to_nat f) ltac:(lia)) as [c Hc].
    rewrite Hc. by eexists. }
  cbn [bind].
  destruct (for_each_ok (fun x => run_policy_once fuel F E x A (Some [])) (seqZ 0 (F + 1)))
    as (r4 & -> & _); [|done].
  intros x Hx.
  destruct (finished_run_from F E fuel tb V A HF HE Hfuel Hinv F E x ltac:(lia) ltac:(lia))
    as (k & tr & _ & _ & _ & Hrun).
  by eexists.
Qed.

End Reported.

(** ** The exit status of main *)

Lemma main_accepts as_integer fuel argv prog a1 a2 tbk :
  argv = [prog; a1; a2] ++ (if tbk : bool then ["--tiebreak"%string] else []) ->
  1 <= as_integer a1 < int_max -> 1 <= as_integer a2 < int_max ->
  as_integer a1 + 1 <= Z.of_nat fuel ->
  main as_integer fuel argv = Ok 0.
Proof.
  intros -> HF HE Hfuel. unfold main.
  destruct (build_tables_inv _ _ HF HE fuel tbk Hfuel) as (V & A & Hb & Hinv).
  assert (forall drops, main_tables fuel (as_integer a1) (as_integer a2) V A drops = Ok tt ->
            (do _ <- main_tables fuel (as_integer a1) (as_integer a2) V A drops; Ok 0)
            = @Ok Z 0) as Hfin by (by intros drops ->).
  destruct (main_levels_ok _ _ fuel tbk V A HF HE Hfuel Hinv (Z.to_nat (as_integer a2)) 1
              [[]] ∅) as (drops & Hl & Hlen & Hall).
  { lia. }
  { lia. }
  { done. }
  { intros e d He Hd. destruct (Z.to_nat e) as [|k] eqn:Hk; [lia|]. done. }
  rewrite Z2Nat.id in Hl by lia.
  pose proof (main_tables_ok _ _ fuel tbk V A HF HE Hfuel Hinv drops Hlen Hall) as Ht.
  destruct (Z.leb_spec (as_integer a1) 0); [lia|].
  destruct (Z.leb_spec (as_integer a2) 0); [lia|].
  destruct tbk; simpl.
  - destruct (Z.leb_spec (as_integer a1) 0); [lia|].
    destruct (Z.leb_spec (as_integer a2) 0); [lia|]. simpl.
    rewrite Hb. cbn [bind]. rewrite Hl. cbn [bind]. by apply Hfin.
  - destruct (Z.leb_spec (as_integer a1) 0); [lia|].
    destruct (Z.leb_spec (as_integer a2) 0); [lia|]. simpl.
    rewrite Hb. cbn [bind]. rewrite Hl. cbn [bind]. by apply Hfin.
Qed.

Lemma main_rejects as_integer fuel argv :
  argv <> [] ->
  (length argv <> 3%nat -> length argv <> 4%nat -> main as_integer fuel argv = Ok 1) /\
  (forall prog a1 a2 rest, argv = prog :: a1 :: a2 :: rest -> (length rest <= 1)%nat ->
     as_integer a1 <= 0 \/ as_integer a2 <= 0 -> main as_integer fuel argv = Ok 1) /\
  (forall prog a1 a2 a3, argv = [prog; a1; a2; a3] -> a3 <> "--tiebreak"%string ->
     main as_integer fuel argv = Ok 1).
Proof.
  intros Hne. split; [|split].
  - intros H3 H4. unfold main.
    destruct (Z.eqb_spec (Z.of_nat (length argv)) 3); [lia|].
    destruct (Z.eqb_spec (Z.of_nat (length argv)) 4); [lia|]. simpl.
    destruct argv; done.
  - intros prog a1 a2 rest -> Hrest Hbad. unfold main.
    destruct rest as [|a3 [|? ?]]; [| |simpl in Hrest; lia].
    + simpl. destruct (Z.leb_spec (as_integer a1) 0); [done|].
      destruct (Z.leb_spec (as_integer a2) 0); [done|lia].
    + simpl. destruct (Z.leb_spec (as_integer a1) 0); [done|].
      destruct (Z.leb_spec (as_integer a2) 0); [done|lia].
  - intros prog a1 a2 a3 -> Ha3. unfold main. simpl.
    destruct ((as_integer a1 <=? 0) || (as_integer a2 <=? 0)); [done|].
    rewrite bool_decide_eq_false_2 by done. done.
Qed.

(** ** The keys of the finished tables *)

Lemma elem_of_terminal_keys F E s :
  s ∈ terminal_keys F E <->
  0 <= eggs s <= E /\ 0 <= lb s <= F /\ ub s = lb s + 1.
Proof.
  unfold terminal_keys. rewrite list_elem_of_bind. split.
  - intros (e & Hs & He). apply list_elem_of_fmap in Hs as (f & -> & Hf).
    apply elem_of_seqZ in He, Hf. simpl. lia.
  - intros (He & Hl & Hu). exists (eggs s). rewrite list_elem_of_fmap, elem_of_seqZ.
    split; [|lia]. exists (lb s). rewrite elem_of_seqZ. split; [|lia].
    destruct s; simpl in *. by subst.
Qed.

Lemma elem_of_inner_keys F E s :
  s ∈ inner_keys F E <->
  1 <= eggs s <= E /\ 0 <= lb s /\ lb s + 2 <= ub s <= F + 1.
Proof.
  unfold inner_keys. rewrite list_elem_of_bind. split.
  - intros (e & Hs & He). apply list_elem_of_bind in Hs as (l & Hs & Hl).
    apply list_elem_of_fmap in Hs as (u & -> & Hu).
    apply elem_of_seqZ in He, Hl, Hu. simpl. lia.
  - intros (He & Hl & Hu). exists (eggs s). rewrite list_elem_of_bind, elem_of_seqZ.
    split; [|lia]. exists (lb s). rewrite list_elem_of_fmap, elem_of_seqZ.
    split; [|lia]. exists (ub s). rewrite elem_of_seqZ. split; [|lia].
    by destruct s.
Qed.

Lemma NoDup_terminal_keys F E : NoDup (terminal_keys F E).
Proof.
  unfold terminal_keys. apply NoDup_bind; [| |apply NoDup_seqZ].
  - intros e1 e2 s _ _ H1 H2.
    apply list_elem_of_fmap in H1 as (f1 & -> & _).
    apply list_elem_of_fmap in H2 as (f2 & [= -> _] & _). done.
  - intros e _. apply NoDup_fmap_2_strong; [|apply NoDup_seqZ].
    intros f1 f2 _ _ [= ->]. done.
Qed.

Lemma NoDup_inner_keys F E : NoDup (inner_keys F E).
Proof.
  unfold inner_keys. apply NoDup_bind; [| |apply NoDup_seqZ].
  - intros e1 e2 s _ _ H1 H2.
    apply list_elem_of_bind in H1 as (l1 & H1 & _).
    apply list_elem_of_fmap in H1 as (u1 & -> & _).
    apply list_elem_of_bind in H2 as (l2 & H2 & _).
    apply list_elem_of_fmap in H2 as (u2 & [= -> _ _] & _). done.
  - intros e _. apply NoDup_bind; [| |apply NoDup_seqZ].
    + intros l1 l2 s _ _ H1 H2.
      apply list_elem_of_fmap in H1 as (u1 & -> & _).
      apply list_elem_of_fmap in H2 as (u2 & [= -> _] & _). done.
    + intros l _. apply NoDup_fmap_2_strong; [|apply NoDup_seqZ].
      intros u1 u2 _ _ [= ->]. done.
Qed.

Lemma length_bind_sum {T U : Type} (f : T -> list U) (l : list T) :
  Z.of_nat (length (l ≫= f)) = sumZ ((fun x => Z.of_nat (length (f x))) <$> l).
Proof.
  induction l as [|x l IH]; [done|].
  rewrite bind_cons, length_app, Nat2Z.inj_add, IH. done.
Qed.

Lemma sumZ_const {T : Type} (c : Z) (l : list T) :
  sumZ ((fun _ => c) <$> l) = c * Z.of_nat (length l).
Proof. induction l as [|x l IH]; [simpl; lia|]. rewrite fmap_cons, sumZ_cons, IH. simpl length. lia. Qed.

Lemma sumZ_descending (c : Z) (n : nat) :
  2 * sumZ ((fun l => c - l) <$> seqZ 0 (Z.of_nat n))
  = Z.of_nat n * (2 * c - Z.of_nat n + 1).
Proof.
  induction n as [|n IH]; [done|].
  rewrite seqZ_S, fmap_app, sumZ_app.
  change (sumZ ((fun l => c - l) <$> [0 + Z.of_nat n])) with (c - (0 + Z.of_nat n) + 0).
  lia.
Qed.

Lemma length_terminal_keys F E :
  0 <= F -> 0 <= E -> Z.of_nat (length (terminal_keys F E)) = (E + 1) * (F + 1).
Proof.
  intros HF HE. unfold terminal_keys. rewrite length_bind_sum.
  rewrite (sumZ_fmap_ext _ (fun _ => F + 1)).
  - rewrite sumZ_const, length_seqZ. lia.
  - intros e _. rewrite length_fmap, length_seqZ. lia.
Qed.

Lemma length_inner_keys F E :
  0 <= F -> 0 <= E -> 2 * Z.of_nat (length (inner_keys F E)) = E * (F * (F + 1)).
Proof.
  intros HF HE. unfold inner_keys. rewrite length_bind_sum.
  rewrite (sumZ_fmap_ext _ (fun _ => sumZ ((fun l => F - l) <$> seqZ 0 (F + 1)))).
  - rewrite sumZ_const, length_seqZ.
    pose proof (sumZ_descending F (Z.to_nat (F + 1))) as Hs.
    rewrite Z2Nat.id in Hs by lia. nia.
  - intros e _. rewrite length_bind_sum. apply sumZ_fmap_ext.
    intros l Hl. apply elem_of_seqZ in Hl. rewrite length_fmap, length_seqZ. lia.
Qed.

Lemma stored_keys F E s :
  0 <= F -> 0 <= E ->
  stored F E (E + 1) F (F + 1) s <-> s ∈ terminal_keys F E ++ inner_keys F E.
Proof.
  intros HF HE. rewrite elem_of_app, elem_of_terminal_keys, elem_of_inner_keys.
  unfold stored, in_table. lia.
Qed.

Lemma NoDup_all_keys F E : NoDup (terminal_keys F E ++ inner_keys F E).
Proof.
  apply NoDup_app. split; [apply NoDup_terminal_keys|]. split; [|apply NoDup_inner_keys].
  intros s. rewrite elem_of_terminal_keys, elem_of_inner_keys. lia.
Qed.

Lemma size_of_keys (m : gmap tState Z) (keys : list tState) :
  NoDup keys -> (forall s, is_Some (m !! s) <-> s ∈ keys) -> size m = length keys.
Proof.
  intros Hnd Hdom. rewrite <- (size_dom (D := gset tState)).
  rewrite <- (size_list_to_set (C := gset tState) keys Hnd). f_equal.
  apply set_eq. intros s. rewrite elem_of_dom, elem_of_list_to_set. apply Hdom.
Qed.

Lemma finished_domains F E fuel tb V A :
  1 <= F < int_max -> 1 <= E < int_max ->
  table_inv fuel tb F E (E + 1) F (F + 1) V A ->
  (forall s, is_Some (V !! s) <-> s ∈ terminal_keys F E ++ inner_keys F E) /\
  (forall s, is_Some (A !! s) <-> s ∈ inner_keys F E).
Proof.
  intros HF HE Hinv. split.
  - intros s. rewrite <- stored_keys by lia. rewrite (inv_V _ _ _ _ _ _ _ _ _ Hinv).
    destruct (decide _); [split; [done|by eexists]|split; [by intros [? ?]|done]].
  - intros s. rewrite elem_of_inner_keys. split.
    + intros Hs. destruct (inv_A_dom _ _ _ _ _ _ _ _ _ Hinv s Hs) as [Hst Hw].
      unfold stored, in_table in Hst. lia.
    + intros Hs.
      destruct (inv_A _ _ _ _ _ _ _ _ _ Hinv s) as (a & Ha & _); [|lia|by eexists].
      unfold stored, in_table. lia.
Qed.

Lemma finished_sizes F E fuel tb V A :
  1 <= F < int_max -> 1 <= E < int_max ->
  table_inv fuel tb F E (E + 1) F (F + 1) V A ->
  2 * Z.of_nat (size A) = E * (F * (F + 1)) /\
  Z.of_nat (size V) = (E + 1) * (F + 1) + Z.of_nat (size A).
Proof.
  intros HF HE Hinv. destruct (finished_domains F E fuel tb V A HF HE Hinv) as [HV HA].
  rewrite (size_of_keys A _ (NoDup_inner_keys F E) HA).
  rewrite (size_of_keys V _ (NoDup_all_keys F E) HV).
  rewrite length_app, Nat2Z.inj_add, length_terminal_keys by lia.
  split; [apply length_inner_keys; lia|done].
Qed.

(** ** initialize_terminal_entries on any table *)

Lemma initialize_terminal_entries_lookup F E V s :
  0 <= F < int_max ->
  initialize_terminal_entries F E V !! s =
  match V !! s with
  | Some x => Some x
  | None => if decide (0 <= eggs s <= E /\ 0 <= lb s <= F /\ ub s = lb s + 1)
            then Some 0 else None
  end.
Proof.
  intros HF. unfold initialize_terminal_entries.
  assert ((exists e f, e ∈ seqZ 0 (E + 1) /\ f ∈ seqZ 0 (F + 1) /\
                       s = mkState e f (wrap (f + 1)))
          <-> 0 <= eggs s <= E /\ 0 <= lb s <= F /\ ub s = lb s + 1) as Hkey.
  { split.
    - intros (e & f & He & Hf & ->). apply elem_of_seqZ in He, Hf.
      rewrite wrap_small by in_range. simpl. lia.
    - intros (He & Hl & Hu). exists (eggs s), (lb s). rewrite !elem_of_seqZ.
      split; [lia|]. split; [lia|]. rewrite wrap_small by in_range.
      destruct s; simpl in *. by subst. }
  match goal with |- ?m !! s = _ => destruct (m !! s) as [x|] eqn:Hx end.
  - apply init_lookup in Hx as [Hx|(Hn & -> & Hex)]; [by rewrite Hx|].
    rewrite Hn. apply Hkey in Hex. by rewrite decide_True.
  - destruct (V !! s) as [y|] eqn:Hy.
    + assert (Some y = None) as Hc; [|done]. rewrite <- Hx. symmetry.
      apply init_lookup. by left.
    + destruct (decide _) as [Hd|]; [|done].
      assert (Some 0 = None) as Hc; [|done]. rewrite <- Hx. symmetry.
      apply init_lookup. right. split; [done|]. split; [done|]. by apply Hkey.
Qed.

Lemma initialize_terminal_entries_twice F E V :
  0 <= F < int_max ->
  initialize_terminal_entries F E (initialize_terminal_entries F E V)
  = initialize_terminal_entries F E V.
Proof.
  intros HF. apply map_eq. intros s.
  rewrite !(initialize_terminal_entries_lookup F E) by done.
  destruct (V !! s); [done|]. by destruct (decide _).
Qed.

(** ** The counters of single_scan *)

Lemma counted_refl N st :
  0 <= N -> in_int (inserts st) -> in_int (modifies st) -> counted N st st.
Proof.
  intros HN Hi Hm. exists 0%nat, 0%nat. rewrite !Z.add_0_r, !wrap_small by done.
  split; [simpl; lia|]. split; [done|]. split; [done|]. split; [lia|done].
Qed.

Lemma counted_trans N1 N2 st1 st2 st3 :
  counted N1 st1 st2 -> counted N2 st2 st3 -> counted (N1 + N2) st1 st3.
Proof.
  intros (i1 & m1 & HN1 & Hi1 & Hm1 & Hs1 & He1) (i2 & m2 & HN2 & Hi2 & Hm2 & Hs2 & He2).
  exists (i1 + i2)%nat, (m1 + m2)%nat. split; [lia|].
  split; [rewrite Hi2, Hi1, wrap_add_l; f_equal; lia|].
  split; [rewrite Hm2, Hm1, wrap_add_l; f_equal; lia|].
  split; [lia|].
  intros Hi Hm. destruct (He1 ltac:(lia) ltac:(lia)) as [<- <-]. apply He2; lia.
Qed.

Lemma counted_in_int N st st' :
  counted N st st' -> in_int (inserts st') /\ in_int (modifies st').
Proof.
  intros (i & m & _ & -> & -> & _). split; apply wrap_range.
Qed.

Lemma scan_body_counted fuel tb e l u st st' :
  in_int (inserts st) -> in_int (modifies st) ->
  scan_body fuel tb e l u st = Ok st' -> counted 1 st st'.
Proof.
  intros Hi Hm. unfold scan_body.
  assert (counted 1 st st) as Hrefl by (by apply counted_refl).
  destruct (bool_decide _ && isterminal _); [by intros [= <-]|].
  destruct (scan_choice fuel tb (mkState e l u) (tab_V st) (tab_A st))
    as [[[value action]|]| | |]; cbn [bind]; try done; [|by intros [= <-]].
  assert (forall old, tab_V st !! mkState e l u = Some old ->
            counted 1 st (mkScan (<[mkState e l u := value]> (tab_V st))
                                 (<[mkState e l u := action]> (tab_A st))
                                 (inserts st) (wrap (modifies st + 1)))) as Hmod.
  { intros old Hold. exists 0%nat, 1%nat. cbn [inserts modifies tab_V tab_A].
    split; [lia|]. split; [by rewrite Z.add_0_r, wrap_small|]. split; [done|].
    split; [|done]. rewrite map_size_insert_Some by by eexists. lia. }
  destruct (tab_V st !! mkState e l u) as [old|] eqn:Hold.
  - destruct (value <? old).
    + destruct (deref (tab_A st) (mkState e l u)); cbn [bind]; try done.
      intros [= <-]. by eapply Hmod.
    + destruct (old =? value); [|by intros [= <-]].
      destruct (deref (tab_A st) (mkState e l u)) as [old_a| | |]; cbn [bind]; try done.
      destruct (negb (old_a =? action)); intros [= <-]; [by eapply Hmod|done].
  - intros [= <-]. exists 1%nat, 0%nat. cbn [inserts modifies tab_V tab_A].
    split; [lia|]. split; [done|]. split; [by rewrite Z.add_0_r, wrap_small|].
    split; [|done]. unfold umap_insert. rewrite Hold.
    rewrite map_size_insert_None by done. lia.
Qed.

Lemma scan_u_counted fuel tb e l us st st' :
  in_int (inserts st) -> in_int (modifies st) ->
  scan_u fuel tb e l us st = Ok st' -> counted (Z.of_nat (length us)) st st'.
Proof.
  revert st. induction us as [|u us IH]; intros st Hi Hm.
  - intros [= <-]. apply counted_refl; [simpl; lia|done..].
  - cbn [scan_u]. destruct (scan_body fuel tb e l u st) as [st1| | |] eqn:Hb; try done.
    cbn [bind]. intros Hrest.
    pose proof (scan_body_counted _ _ _ _ _ _ _ Hi Hm Hb) as H1.
    destruct (counted_in_int _ _ _ H1) as [Hi1 Hm1].
    pose proof (counted_trans _ _ _ _ _ H1 (IH _ Hi1 Hm1 Hrest)) as Hc.
    replace (Z.of_nat (length (u :: us))) with (1 + Z.of_nat (length us))
      by (simpl length; lia). done.
Qed.

Lemma scan_l_counted fuel tb F e ls st st' :
  0 <= F < int_max -> Forall (fun l => 0 <= l <= F) ls ->
  in_int (inserts st) -> in_int (modifies st) ->
  scan_l fuel tb F e ls st = Ok st' ->
  counted (sumZ ((fun l => F + 1 - l) <$> ls)) st st'.
Proof.
  intros HF Hls. revert st. induction Hls as [|l ls Hl _ IH]; intros st Hi Hm.
  - intros [= <-]. apply counted_refl; [done..].
  - cbn [scan_l].
    destruct (scan_u fuel tb e l _ st) as [st1| | |] eqn:Hb; try done.
    cbn [bind]. intros Hrest.
    pose proof (scan_u_counted _ _ _ _ _ _ _ Hi Hm Hb) as H1.
    rewrite !wrap_small, length_seqZ in H1 by in_range.
    destruct (counted_in_int _ _ _ H1) as [Hi1 Hm1].
    pose proof (counted_trans _ _ _ _ _ H1 (IH _ Hi1 Hm1 Hrest)) as Hc.
    rewrite fmap_cons, sumZ_cons.
    replace (F + 1 - l) with (Z.of_nat (Z.to_nat (F + 1 - (l + 1) + 1))) by lia. done.
Qed.

Lemma sumZ_reverse l : sumZ (reverse l) = sumZ l.
Proof.
  induction l as [|x l IH]; [done|].
  rewrite reverse_cons, sumZ_app, IH, !sumZ_cons. unfold sumZ at 2. simpl. lia.
Qed.

(** One scan of one level, as [main] runs it. *)
Lemma single_scan_counted fuel F e tb V A st' :
  0 <= F < int_max ->
  single_scan fuel F e e (mkScan V A 0 0) tb = Ok st' ->
  exists i m : nat,
    2 * (Z.of_nat i + Z.of_nat m) <= (F + 1) * (F + 2) /\
    inserts st' = wrap (Z.of_nat i) /\ modifies st' = wrap (Z.of_nat m) /\
    size (tab_V st') = (size V + i)%nat /\
    (i = 0%nat -> m = 0%nat -> tab_V st' = V /\ tab_A st' = A).
Proof.
  intros HF. rewrite single_scan_one. intros Hscan.
  apply scan_l_counted in Hscan as (i & m & HN & Hi & Hm & Hs & He);
    [|done| |done..].
  2:{ apply Forall_forall. intros l Hl. apply elem_of_reverse, elem_of_seqZ in Hl. lia. }
  exists i, m. split; [|done].
  rewrite fmap_reverse, sumZ_reverse in HN.
  pose proof (sumZ_descending (F + 1) (Z.to_nat (F + 1))) as Hsum.
  rewrite Z2Nat.id in Hsum by lia. nia.
Qed.

(** ** The shape of the lists of find_admissible_actions *)


(** ** classic_dpegg_limit without floors or without eggs *)

Lemma classic_outer_no_eggs F E ds tbl :
  E <= 0 -> Classic.outer F E ds tbl = -1.
Proof.
  intros HE. revert tbl. induction ds as [|d ds IH]; intros tbl; [done|].
  simpl. rewrite seqZ_nil by lia. simpl. apply IH.
Qed.

Lemma classic_degenerate F E :
  F <= 0 \/ E <= 0 -> Classic.classic_dpegg_limit F E = -1.
Proof.
  intros [HF|HE]; unfold Classic.classic_dpegg_limit.
  - by rewrite (seqZ_nil 1 F) by lia.
  - by apply classic_outer_no_eggs.
Qed.

(** ** histogram_to_string *)

Lemma string_app_assoc (a b c : string) : (a +:+ b) +:+ c = a +:+ (b +:+ c).
Proof.
  induction a as [|x a IH]; [done|].
  change (String x ((a +:+ b) +:+ c) = String x (a +:+ (b +:+ c))). by f_equal.
Qed.

Lemma string_app_nil_r (a : string) : a +:+ "" = a.
Proof.
  induction a as [|x a IH]; [done|].
  change (String x (a +:+ "") = String x a). by f_equal.
Qed.

Lemma histogram_loop_acc H ks s :
  histogram_loop H ks s = s +:+ histogram_loop H ks "".
Proof.
  revert s. induction ks as [|k ks IH]; intros s.
  - simpl. by rewrite string_app_nil_r.
  - cbn [histogram_loop]. destruct (H !! k) as [c|].
    + rewrite IH, (IH ("" +:+ (pretty c +:+ " "))). by rewrite string_app_assoc.
    + rewrite IH, (IH ("" +:+ "0 ")). by rewrite string_app_assoc.
Qed.

Lemma histogram_loop_cat H ks1 ks2 :
  histogram_loop H (ks1 ++ ks2) "" = histogram_loop H ks1 "" +:+ histogram_loop H ks2 "".
Proof.
  induction ks1 as [|k ks1 IH]; [done|].
  cbn [app histogram_loop]. destruct (H !! k) as [c|].
  - rewrite histogram_loop_acc, IH, (histogram_loop_acc H ks1 ("" +:+ (pretty c +:+ " "))).
    symmetry. apply string_app_assoc.
  - rewrite histogram_loop_acc, IH, (histogram_loop_acc H ks1 ("" +:+ "0 ")).
    symmetry. apply string_app_assoc.
Qed.

Lemma histogram_loop_ext H H' ks :
  (forall k, k ∈ ks -> default 0 (H !! k) = default 0 (H' !! k)) ->
  histogram_loop H ks "" = histogram_loop H' ks "".
Proof.
  induction ks as [|k ks IH]; intros Hext; [done|].
  cbn [histogram_loop].
  rewrite (histogram_loop_acc H), (histogram_loop_acc H').
  rewrite IH by (intros k' Hk'; apply Hext; by apply list_elem_of_further).
  f_equal. specialize (Hext k (list_elem_of_here _ _)).
  destruct (H !! k) as [c|], (H' !! k) as [c'|]; simpl in Hext; by subst.
Qed.

(** ** The states that the runs of the finished tables visit *)

Lemma arrives_stored fuel tb F E V A L s n s' :
  1 <= F < int_max -> 1 <= E < int_max ->
  table_inv fuel tb F E (E + 1) F (F + 1) V A ->
  stored F E (E + 1) F (F + 1) s -> arrives A L s n s' ->
  stored F E (E + 1) F (F + 1) s'.
Proof.
  intros HF HE Hinv Hs Harr. induction Harr as [s|s a n s' Ht Ha Harr IH]; [done|].
  apply IH.
  assert (lb s + 2 <= ub s) as Hw.
  { destruct (decide (ub s = lb s + 1)) as [Hw|Hw].
    - rewrite (stored_terminal F E HF _ _ _ _ Hs Hw) in Ht. done.
    - destruct Hs as [(? & ? & ? & ?) _]. lia. }
  destruct (inv_A _ _ _ _ _ _ _ _ _ Hinv s Hs Hw) as (a' & Ha' & Hg & _).
  assert (a' = a) as -> by congruence.
  by destruct (stored_next F E HE (E + 1) F (F + 1) s a L Hs Hw Hg).
Qed.

Lemma stored_not_failed F E ec l0 u0 s :
  1 <= F < int_max -> stored F E ec l0 u0 s -> isfailed s = false.
Proof.
  intros HF [(Hl & Hlu & Hu & He) Hc].
  destruct (isfailed s) eqn:Hf; [|done].
  apply isfailed_spec in Hf; [lia|in_range|in_range].
Qed.

(** * Further properties of the code *)

(** ** A run that ends has found the threshold *)

(** X1.  Whatever the action table, a call of [run_policy_once] that
    returns has localized the threshold: replaying the returned drops from
    [(E, 0, F + 1)] ends in the state [(eggs, L, L + 1)] with no egg owed,
    and the drops include one at [L] (unless [L = 0]) and one at [L + 1]
    (unless [L = F]).  The vector behind [aseq] is cleared first, the
    returned count is the number of drops, and a null [aseq] gives the
    same count. *)
Theorem run_finds_threshold (fuel : nat) (F E L : Z) (A : gmap tState Z)
    (aseq : option (list Z)) (k : Z) (q : option (list Z)) :
  0 <= F < int_max -> 0 <= L <= F ->
  run_policy_once fuel F E L A aseq = Ok (k, q) ->
  exists tr,
    q = (fun _ => tr) <$> aseq /\ k = wrap (Z.of_nat (length tr)) /\
    run_policy_once fuel F E L A None = Ok (k, None) /\
    replay L (mkState E 0 (F + 1)) tr
    = mkState (eggs (replay L (mkState E 0 (F + 1)) tr)) L (L + 1) /\
    0 <= eggs (replay L (mkState E 0 (F + 1)) tr) /\
    (1 <= L -> L ∈ tr) /\ (L < F -> L + 1 ∈ tr).
Proof.
  intros HF HL Hrun.
  destruct (run_policy_once_certified fuel F E L A aseq k q HF HL Hrun)
    as (tr & Hq & _ & Hk & Hnone & Hfin & He & HlL & HlR).
  by exists tr.
Qed.

Lemma run_finds_threshold_witness :
  0 <= 2 < int_max /\ 0 <= 1 <= 2 /\
  run_policy_once 3 2 1 1 {[mkState 1 0 3 := 1; mkState 1 1 3 := 2]} (Some [9])
  = Ok (2, Some [1; 2]) /\
  exists tr,
    Some [1; 2] = (fun _ => tr) <$> Some [9] /\ 2 = wrap (Z.of_nat (length tr)) /\
    run_policy_once 3 2 1 1 {[mkState 1 0 3 := 1; mkState 1 1 3 := 2]} None = Ok (2, None) /\
    replay 1 (mkState 1 0 (2 + 1)) tr
    = mkState (eggs (replay 1 (mkState 1 0 (2 + 1)) tr)) 1 (1 + 1) /\
    0 <= eggs (replay 1 (mkState 1 0 (2 + 1)) tr) /\
    (1 <= 1 -> 1 ∈ tr) /\ (1 < 2 -> 1 + 1 ∈ tr).
Proof.
  assert (0 <= 2 < int_max) as HF by in_range.
  assert (run_policy_once 3 2 1 1 {[mkState 1 0 3 := 1; mkState 1 1 3 := 2]} (Some [9])
          = Ok (2, Some [1; 2])) as Hrun by (by vm_compute).
  split; [exact HF|]. split; [lia|]. split; [exact Hrun|].
  apply (run_finds_threshold 3 2 1 1 _ (Some [9]) 2 (Some [1; 2]) HF); [lia|exact Hrun].
Defined.

(** ** The runs of the built tables *)

(** X2.  On the tables built for a valid instance the run for every
    threshold drops from no floor twice, only from floors [1 .. F], and
    breaks at most [e] eggs: it ends in [(e - breaks, L, L + 1)].  Every
    state that a run visits, for whatever threshold, has an entry in [V]
    and is not failed. *)
Theorem built_runs_break_few_eggs (F E : Z) (tb : bool) (fuel : nat) :
  valid_instance F E -> F + 1 <= Z.of_nat fuel ->
  exists V A,
    build_tables fuel F E tb = Ok (V, A) /\
    (forall e L, 1 <= e <= E -> 0 <= L <= F ->
       exists k tr,
         run_policy_once fuel F e L A (Some []) = Ok (k, Some tr) /\
         k = Z.of_nat (length tr) /\ NoDup tr /\ Forall (fun a => 1 <= a <= F) tr /\
         breaks L tr <= e /\
         replay L (mkState e 0 (F + 1)) tr = mkState (e - breaks L tr) L (L + 1)) /\
    (forall e L n s', 1 <= e <= E ->
       arrives A L (mkState e 0 (F + 1)) n s' ->
       is_Some (V !! s') /\ isfailed s' = false).
Proof.
  intros [HF HE]%valid_instance_range Hfuel.
  destruct (build_tables_inv F E HF HE fuel tb Hfuel) as (V & A & Hb & Hinv).
  exists V, A. split; [done|]. split.
  - intros e L He HL. by apply (finished_trace F E fuel tb V A e L).
  - intros e L n s' He Harr.
    assert (stored F E (E + 1) F (F + 1) (mkState e 0 (F + 1))) as Hs.
    { unfold stored, in_table. simpl. lia. }
    pose proof (arrives_stored fuel tb F E V A L _ n s' HF HE Hinv Hs Harr) as Hs'.
    split; [|exact (stored_not_failed F E _ _ _ _ HF Hs')].
    rewrite (inv_V _ _ _ _ _ _ _ _ _ Hinv), decide_True by done. by eexists.
Qed.

Lemma built_runs_break_few_eggs_witness :
  valid_instance 4 2 /\ 4 + 1 <= Z.of_nat 5 /\
  exists V A,
    build_tables 5 4 2 true = Ok (V, A) /\
    (forall e L, 1 <= e <= 2 -> 0 <= L <= 4 ->
       exists k tr,
         run_policy_once 5 4 e L A (Some []) = Ok (k, Some tr) /\
         k = Z.of_nat (length tr) /\ NoDup tr /\ Forall (fun a => 1 <= a <= 4) tr /\
         breaks L tr <= e /\
         replay L (mkState e 0 (4 + 1)) tr = mkState (e - breaks L tr) L (L + 1)) /\
    (forall e L n s', 1 <= e <= 2 ->
       arrives A L (mkState e 0 (4 + 1)) n s' ->
       is_Some (V !! s') /\ isfailed s' = false).
Proof.
  assert (valid_instance 4 2) as Hv by in_range.
  split; [exact Hv|]. split; [lia|].
  apply (built_runs_break_few_eggs 4 2 true 5 Hv). lia.
Defined.

(** ** Optimality *)

(** X3.  No action table does better than the built one: if the runs of
    [run_policy_once] with any table [A'] end within [n] drops for every
    threshold [0 .. F], then [n] is at least the value that the built
    table holds for [(e, 0, F + 1)]. *)
Theorem no_table_needs_fewer_drops (F E : Z) (tb : bool) (fuel : nat) :
  valid_instance F E -> F + 1 <= Z.of_nat fuel <= int_max ->
  exists V A,
    build_tables fuel F E tb = Ok (V, A) /\
    forall e A' n, 1 <= e <= E ->
      (forall L, 0 <= L <= F ->
         exists k q, run_policy_once fuel F e L A' None = Ok (k, q) /\ k <= n) ->
      exists v, V !! mkState e 0 (F + 1) = Some v /\ v <= n.
Proof.
  intros [HF HE]%valid_instance_range Hfuel.
  destruct (build_tables_inv F E HF HE fuel tb ltac:(lia)) as (V & A & Hb & Hinv).
  exists V, A. split; [done|]. intros e A' n He Hall.
  exists (opt e (F + 1 - 0 - 1)).
  split; [apply (finished_lookup F E fuel tb V A Hinv); lia|].
  apply (runs_lower_bound_Z A' (mkState e 0 (F + 1)) n); simpl; [lia|in_range|in_range|].
  intros L HL. destruct (Hall L ltac:(lia)) as (k & q & Hrun & Hk).
  unfold run_policy_once in Hrun. rewrite wrap_small in Hrun by in_range.
  apply policy_loop_result in Hrun as (k0 & tr & Hr & Hlen & -> & _); [|in_range].
  exists k0, tr. split; [done|].
  pose proof (runs_length _ _ _ _ _ Hr). rewrite wrap_small in Hk by in_range. lia.
Qed.

Lemma no_table_needs_fewer_drops_witness :
  valid_instance 3 2 /\ 3 + 1 <= Z.of_nat 4 <= int_max /\
  exists V A,
    build_tables 4 3 2 false = Ok (V, A) /\
    forall e A' n, 1 <= e <= 2 ->
      (forall L, 0 <= L <= 3 ->
         exists k q, run_policy_once 4 3 e L A' None = Ok (k, q) /\ k <= n) ->
      exists v, V !! mkState e 0 (3 + 1) = Some v /\ v <= n.
Proof.
  assert (valid_instance 3 2) as Hv by in_range.
  assert (3 + 1 <= Z.of_nat 4 <= int_max) as Hf by in_range.
  split; [exact Hv|]. split; [exact Hf|].
  apply (no_table_needs_fewer_drops 3 2 false 4 Hv Hf).
Defined.

(** ** Linear search, triangular numbers and binary search *)

(** X4.  The value that the built table holds for [(e, l, u)] has a
    closed form at both ends of the egg range: with one egg it is the
    number [u - l - 1] of floors still in doubt, with two eggs the least
    [v] with [v (v + 1) / 2] at least that number, and with at least
    [log2_up (u - l)] eggs it is [log2_up (u - l)], the cost of binary
    search. *)
Theorem stored_values_closed_forms (F E : Z) (tb : bool) (fuel : nat) :
  valid_instance F E -> F + 1 <= Z.of_nat fuel ->
  exists V A,
    build_tables fuel F E tb = Ok (V, A) /\
    (forall l u, 0 <= l < u -> u <= F + 1 ->
       V !! mkState 1 l u = Some (u - l - 1)) /\
    (forall l u, 2 <= E -> 0 <= l < u -> u <= F + 1 ->
       exists v, V !! mkState 2 l u = Some v /\ 0 <= v /\
         2 * (u - l - 1) <= v * (v + 1) /\
         (1 <= v -> (v - 1) * v < 2 * (u - l - 1))) /\
    (forall e l u, 1 <= e <= E -> 0 <= l < u -> u <= F + 1 ->
       Z.log2_up (u - l) <= e ->
       V !! mkState e l u = Some (Z.log2_up (u - l))).
Proof.
  intros [HF HE]%valid_instance_range Hfuel.
  destruct (build_tables_inv F E HF HE fuel tb Hfuel) as (V & A & Hb & Hinv).
  exists V, A. split; [done|]. split; [|split].
  - intros l u Hl Hu.
    rewrite (finished_lookup F E fuel tb V A Hinv 1 l u) by lia.
    by rewrite opt_one_egg by lia.
  - intros l u HE2 Hl Hu. exists (opt 2 (u - l - 1)).
    split; [apply (finished_lookup F E fuel tb V A Hinv); lia|].
    apply opt_two_eggs. lia.
  - intros e l u He Hl Hu Hlog.
    rewrite (finished_lookup F E fuel tb V A Hinv e l u) by lia.
    rewrite opt_binary; [by replace (u - l - 1 + 1) with (u - l) by lia|lia|].
    by replace (u - l - 1 + 1) with (u - l) by lia.
Qed.

Lemma stored_values_closed_forms_witness :
  valid_instance 7 3 /\ 7 + 1 <= Z.of_nat 8 /\
  exists V A,
    build_tables 8 7 3 false = Ok (V, A) /\
    (forall l u, 0 <= l < u -> u <= 7 + 1 ->
       V !! mkState 1 l u = Some (u - l - 1)) /\
    (forall l u, 2 <= 3 -> 0 <= l < u -> u <= 7 + 1 ->
       exists v, V !! mkState 2 l u = Some v /\ 0 <= v /\
         2 * (u - l - 1) <= v * (v + 1) /\
         (1 <= v -> (v - 1) * v < 2 * (u - l - 1))) /\
    (forall e l u, 1 <= e <= 3 -> 0 <= l < u -> u <= 7 + 1 ->
       Z.log2_up (u - l) <= e ->
       V !! mkState e l u = Some (Z.log2_up (u - l))).
Proof.
  assert (valid_instance 7 3) as Hv by in_range.
  split; [exact Hv|]. split; [lia|].
  apply (stored_values_closed_forms 7 3 false 8 Hv). lia.
Defined.

(** ** classic_dpegg_limit *)

(** X5.  [classic_dpegg_limit] returns -1 exactly when there is no floor
    or no egg; otherwise its result lies in [1 .. F], is [F] with one egg
    and is [log2_up (F + 1)] with at least that many eggs. *)
Theorem classic_dpegg_limit_cases (F E : Z) :
  2 * F - 1 <= int_max -> E < int_max ->
  (Classic.classic_dpegg_limit F E = -1 <-> F <= 0 \/ E <= 0) /\
  (1 <= F -> 1 <= E -> 1 <= Classic.classic_dpegg_limit F E <= F) /\
  (1 <= F -> Classic.classic_dpegg_limit F 1 = F) /\
  (1 <= F -> Z.log2_up (F + 1) <= E ->
     Classic.classic_dpegg_limit F E = Z.log2_up (F + 1)).
Proof.
  intros HF2 HE.
  assert (forall E', 1 <= F -> 1 <= E' < int_max ->
            Classic.classic_dpegg_limit F E' = opt E' F /\ 1 <= opt E' F <= F) as Hopt.
  { intros E' HF HE'. split; [apply classic_dpegg_limit_spec; lia|].
    pose proof (opt_bounds E' F ltac:(lia)).
    pose proof (optn_reaches (Z.to_nat E') F ltac:(lia) ltac:(lia)) as Hr.
    unfold opt in *. destruct (optn (Z.to_nat E') F); [simpl in Hr; lia|lia]. }
  split; [|split; [|split]].
  - split; [|apply classic_degenerate].
    intros Hm. destruct (decide (F <= 0 \/ E <= 0)) as [|Hpos]; [done|].
    destruct (Hopt E ltac:(lia) ltac:(lia)) as [Heq Hb]. lia.
  - intros HF HE1. destruct (Hopt E HF ltac:(lia)) as [-> Hb]. done.
  - intros HF. destruct (Hopt 1 HF ltac:(in_range)) as [-> _]. apply opt_one_egg. lia.
  - intros HF Hlog. pose proof (Z.log2_up_pos (F + 1) ltac:(lia)).
    destruct (Hopt E HF ltac:(lia)) as [-> _]. apply opt_binary; lia.
Qed.

Lemma classic_dpegg_limit_cases_witness :
  2 * 100 - 1 <= int_max /\ 7 < int_max /\
  (Classic.classic_dpegg_limit 100 7 = -1 <-> 100 <= 0 \/ 7 <= 0) /\
  (1 <= 100 -> 1 <= 7 -> 1 <= Classic.classic_dpegg_limit 100 7 <= 100) /\
  (1 <= 100 -> Classic.classic_dpegg_limit 100 1 = 100) /\
  (1 <= 100 -> Z.log2_up (100 + 1) <= 7 ->
     Classic.classic_dpegg_limit 100 7 = Z.log2_up (100 + 1)).
Proof.
  assert (2 * 100 - 1 <= int_max) as H1 by in_range.
  assert (7 < int_max) as H2 by in_range.
  split; [exact H1|]. split; [exact H2|].
  apply (classic_dpegg_limit_cases 100 7 H1 H2).
Defined.

(** ** argmin *)

(** X6.  [argmin] returns 0 for an empty vector, and otherwise the index
    of the first smallest element: no element is smaller and every
    element before it is larger. *)
Theorem argmin_first_minimum (v : list Z) :
  argmin [] = 0%nat /\
  (v <> [] ->
   exists m, v !! argmin v = Some m /\
     (forall j x, v !! j = Some x -> m <= x) /\
     (forall j x, (j < argmin v)%nat -> v !! j = Some x -> m < x)).
Proof. split; [done|]. apply argmin_first. Qed.

Lemma argmin_first_minimum_witness :
  argmin [] = 0%nat /\
  ([3; 1; 2; 1] <> [] ->
   exists m, [3; 1; 2; 1] !! argmin [3; 1; 2; 1] = Some m /\
     (forall j x, [3; 1; 2; 1] !! j = Some x -> m <= x) /\
     (forall j x, (j < argmin [3; 1; 2; 1]%Z)%nat -> [3; 1; 2; 1] !! j = Some x -> m < x)).
Proof. exact (argmin_first_minimum [3; 1; 2; 1]). Defined.

(** ** calc_maximum_value *)

(** X7.  [calc_maximum_value] reports success exactly when [V] holds
    every successor of [s] under the drop [action]; its maximum is then at
    least the cost plus the value of every successor and is attained by
    one, or is -1 when the interval is empty.  For a drop strictly inside
    the interval only the successor after a break and the one after no
    break are read. *)
Theorem calc_maximum_value_is_max (s : tState) (a : Z) (V : gmap tState Z) :
  ((calc_maximum_value s a V).2 = true <->
     forall f, lb s <= f < ub s -> is_Some (V !! next s a f)) /\
  ((calc_maximum_value s a V).2 = true ->
     -1 <= (calc_maximum_value s a V).1 /\
     (forall f v, lb s <= f < ub s -> V !! next s a f = Some v ->
        wrap (cost s a f + v) <= (calc_maximum_value s a V).1) /\
     ((calc_maximum_value s a V).1 = -1 \/
      exists f v, lb s <= f < ub s /\ V !! next s a f = Some v /\
        (calc_maximum_value s a V).1 = wrap (cost s a f + v))) /\
  (ub s <= lb s -> calc_maximum_value s a V = (-1, true)) /\
  (forall vb vn, lb s < a < ub s ->
     V !! mkState (wrap (eggs s - 1)) (lb s) a = Some vb ->
     V !! mkState (eggs s) a (ub s) = Some vn ->
     calc_maximum_value s a V
     = (Z.max (Z.max (-1) (wrap (1 + vb))) (wrap (1 + vn)), true)).
Proof.
  unfold calc_maximum_value, cost.
  destruct (calc_loop_spec s a V (seqZ (lb s) (ub s - lb s)) (-1)) as [Hok Hmax].
  assert (forall f, f ∈ seqZ (lb s) (ub s - lb s) <-> lb s <= f < ub s) as Hin.
  { intros f. rewrite elem_of_seqZ. lia. }
  split; [|split; [|split]].
  - rewrite Hok. split; intros Hall f Hf; apply Hall; by apply Hin.
  - intros Htrue. destruct (Hmax Htrue) as (Hge & Hall & Hatt).
    split; [done|]. split.
    + intros f v Hf Hv. apply (Hall f v); [by apply Hin|done].
    + destruct Hatt as [?|(f & v & Hf & Hv & Heq)]; [by left|right].
      exists f, v. split; [by apply Hin|done].
  - intros Hempty. by rewrite seqZ_nil by lia.
  - intros vb vn Ha Hvb Hvn.
    pose proof (calc_maximum_value_eq s a V Ha) as Heq.
    unfold calc_maximum_value in Heq. by rewrite Heq, Hvb, Hvn.
Qed.

Lemma calc_maximum_value_is_max_witness :
  calc_maximum_value (mkState 2 0 4) 2 zigzag_table = (3, true) /\
  ((calc_maximum_value (mkState 2 0 4) 2 zigzag_table).2 = true <->
     forall f, 0 <= f < 4 -> is_Some (zigzag_table !! next (mkState 2 0 4) 2 f)) /\
  (forall f v, 0 <= f < 4 -> zigzag_table !! next (mkState 2 0 4) 2 f = Some v ->
     wrap (cost (mkState 2 0 4) 2 f + v) <= 3).
Proof.
  assert (calc_maximum_value (mkState 2 0 4) 2 zigzag_table = (3, true)) as Hc
    by (by vm_compute).
  destruct (calc_maximum_value_is_max (mkState 2 0 4) 2 zigzag_table) as (Hok & Hmax & _).
  split; [exact Hc|]. split; [exact Hok|].
  rewrite Hc in Hmax. apply (Hmax eq_refl).
Defined.

(** ** find_admissible_actions *)



(** ** The tie rules *)

(** X9.  In the built tables the action stored for a state is the one
    that the tie rule in force takes from the list of
    [find_admissible_actions] with the early exit, among the floors whose
    value is the stored value, which is the least of the list: the middle
    one by default, and with [--tiebreak] one with the least total of
    [total_policy_at], the lowest such floor. *)
Theorem stored_action_follows_tie_rule (F E : Z) (tb : bool) (fuel : nat) :
  valid_instance F E -> F + 1 <= Z.of_nat fuel ->
  exists V A,
    build_tables fuel F E tb = Ok (V, A) /\
    forall s a, A !! s = Some a ->
      exists v, V !! s = Some v /\
        let r := find_admissible_actions s V [] [] true in
        let T := (filter (fun p => p.2 = v) (zip r.1 r.2)).*1 in
        min_of r.2 = Some v /\ a ∈ T /\
        (tb = false -> T !! (length T / 2)%nat = Some a) /\
        (tb = true ->
           exists t, total_policy_at fuel s a A = Ok t /\
             forall a', a' ∈ T ->
               exists t', total_policy_at fuel s a' A = Ok t' /\ t <= t' /\
                          (t' = t -> a <= a')).
Proof.
  intros [HF HE]%valid_instance_range Hfuel.
  destruct (build_tables_inv F E HF HE fuel tb Hfuel) as (V & A & Hb & Hinv).
  exists V, A. split; [done|]. intros s a Ha.
  destruct (inv_A_dom _ _ _ _ _ _ _ _ _ Hinv s ltac:(by eexists)) as [Hs Hw].
  destruct (inv_A _ _ _ _ _ _ _ _ _ Hinv s Hs Hw) as (a' & Ha' & _ & Hc).
  assert (a' = a) as -> by congruence.
  exists (opt (eggs s) (ub s - lb s - 1)). split.
  { rewrite (inv_V _ _ _ _ _ _ _ _ _ Hinv). by rewrite decide_True. }
  assert (in_int (lb s + 1)) as Hl.
  { destruct Hs as [(? & ? & ? & ?) _]. in_range. }
  rewrite find_admissible_actions_early by done. cbn [fst snd].
  rewrite zip_fst_snd. fold (kept s V).
  apply (scan_choice_tie_rule fuel tb s V A _ a Hl Hc).
Qed.

Lemma stored_action_follows_tie_rule_witness :
  valid_instance 4 2 /\ 4 + 1 <= Z.of_nat 5 /\
  exists V A,
    build_tables 5 4 2 true = Ok (V, A) /\
    forall s a, A !! s = Some a ->
      exists v, V !! s = Some v /\
        let r := find_admissible_actions s V [] [] true in
        let T := (filter (fun p => p.2 = v) (zip r.1 r.2)).*1 in
        min_of r.2 = Some v /\ a ∈ T /\
        (true = false -> T !! (length T / 2)%nat = Some a) /\
        (true = true ->
           exists t, total_policy_at 5 s a A = Ok t /\
             forall a', a' ∈ T ->
               exists t', total_policy_at 5 s a' A = Ok t' /\ t <= t' /\
                          (t' = t -> a <= a')).
Proof.
  assert (valid_instance 4 2) as Hv by in_range.
  split; [exact Hv|]. split; [lia|].
  apply (stored_action_follows_tie_rule 4 2 true 5 Hv). lia.
Defined.

(** ** The mean of check_policy *)

(** X10.  For any tables, the sum of the step counts that [check_policy]
    divides by [F + 1] is what [total_policy_at] returns for the initial
    state and the action that [A] holds for it: the mean that
    [check_policy] reports is the mean that [print_all_admissible] prints
    for that action. *)
Theorem check_policy_mean_is_total (fuel : nat) (F E : Z) (V A : gmap tState Z)
    (D : option (list Z)) (H : option (gmap Z Z)) (out : check_out) (a : Z) :
  1 <= F < int_max ->
  A !! mkState E 0 (F + 1) = Some a ->
  check_policy (S fuel) F E V A D H = Ok out ->
  total_policy_at fuel (mkState E 0 (F + 1)) a A = Ok (mean_num out) /\
  mean_den out = F + 1.
Proof.
  intros HF Ha Hc. apply (check_policy_total fuel F E V A D H out a); [lia| |done..].
  unfold isterminal. simpl. change (wrap (0 + 1)) with 1.
  destruct (Z.eqb_spec (F + 1) 1); [lia|done].
Qed.

Lemma check_policy_mean_is_total_witness :
  1 <= 2 < int_max /\
  ({[mkState 1 0 3 := 1; mkState 1 1 3 := 2]} : gmap tState Z) !! mkState 1 0 (2 + 1)
  = Some 1 /\
  check_policy 3 2 1 {[mkState 1 0 3 := 2]}
    {[mkState 1 0 3 := 1; mkState 1 1 3 := 2]} None None
  = Ok (mkOut true 2 5 3 None None) /\
  total_policy_at 2 (mkState 1 0 (2 + 1)) 1 {[mkState 1 0 3 := 1; mkState 1 1 3 := 2]}
  = Ok 5.
Proof.
  assert (1 <= 2 < int_max) as HF by in_range.
  assert (({[mkState 1 0 3 := 1; mkState 1 1 3 := 2]} : gmap tState Z)
            !! mkState 1 0 (2 + 1) = Some 1) as HA by reflexivity.
  assert (check_policy 3 2 1 {[mkState 1 0 3 := 2]}
            {[mkState 1 0 3 := 1; mkState 1 1 3 := 2]} None None
          = Ok (mkOut true 2 5 3 None None)) as Hc by (by vm_compute).
  split; [exact HF|]. split; [exact HA|]. split; [exact Hc|].
  destruct (check_policy_mean_is_total 2 2 1 _ _ None None _ 1 HF HA Hc) as [Ht _].
  exact Ht.
Defined.

(** ** Smaller buildings *)

(** X11.  The tables built for [F] floors and [E] eggs answer every
    smaller instance: for [f <= F] floors and [e <= E] eggs [check_policy]
    returns true with [max_drops] the value stored for [(e, 0, f + 1)],
    and the value table that [main] builds for such an instance is a part
    of the one built for [(F, E)]. *)
Theorem tables_answer_smaller_instances (F E : Z) (tb : bool) (fuel : nat) :
  valid_instance F E -> F + 1 <= Z.of_nat fuel ->
  exists V A,
    build_tables fuel F E tb = Ok (V, A) /\
    (forall f e D H, 1 <= f <= F -> 1 <= e <= E ->
       exists out,
         check_policy fuel f e V A D H = Ok out /\ looks_ok out = true /\
         V !! mkState e 0 (f + 1) = Some (max_drops out) /\
         mean_den out = f + 1 /\
         (is_Some (out_D out) <-> is_Some D) /\ (is_Some (out_H out) <-> is_Some H)) /\
    (forall f e tb', 1 <= f <= F -> 1 <= e <= E ->
       exists V' A', build_tables fuel f e tb' = Ok (V', A') /\ V' ⊆ V).
Proof.
  intros [HF HE]%valid_instance_range Hfuel.
  destruct (build_tables_inv F E HF HE fuel tb Hfuel) as (V & A & Hb & Hinv).
  exists V, A. split; [done|]. split.
  - intros f e D H Hf He.
    destruct (finished_check F E fuel tb V A HF HE Hfuel Hinv f e D H ltac:(lia) He)
      as (d' & _ & _ & ->).
    eexists. split; [done|]. cbn [looks_ok max_drops mean_den out_D out_H].
    split; [done|]. split.
    { rewrite (finished_lookup F E fuel tb V A Hinv e 0 (f + 1)) by lia.
      by replace (f + 1 - 0 - 1) with f by lia. }
    split; [done|]. split.
    + destruct D; simpl; split; intros [? ?]; by eexists.
    + destruct H; simpl; split; intros [? ?]; by eexists.
  - intros f e tb' Hf He.
    destruct (build_tables_inv f e ltac:(lia) ltac:(lia) fuel tb' ltac:(lia))
      as (V' & A' & Hb' & Hinv').
    exists V', A'. split; [done|]. apply map_subseteq_spec. intros s v Hv.
    destruct (finished_lookup_inv f e fuel tb' V' A' Hinv' s v Hv) as [Hs ->].
    rewrite (inv_V _ _ _ _ _ _ _ _ _ Hinv). rewrite decide_True; [done|].
    unfold stored, in_table in *. lia.
Qed.

Lemma tables_answer_smaller_instances_witness :
  valid_instance 4 2 /\ 4 + 1 <= Z.of_nat 5 /\
  exists V A,
    build_tables 5 4 2 false = Ok (V, A) /\
    (forall f e D H, 1 <= f <= 4 -> 1 <= e <= 2 ->
       exists out,
         check_policy 5 f e V A D H = Ok out /\ looks_ok out = true /\
         V !! mkState e 0 (f + 1) = Some (max_drops out) /\
         mean_den out = f + 1 /\
         (is_Some (out_D out) <-> is_Some D) /\ (is_Some (out_H out) <-> is_Some H)) /\
    (forall f e tb', 1 <= f <= 4 -> 1 <= e <= 2 ->
       exists V' A', build_tables 5 f e tb' = Ok (V', A') /\ V' ⊆ V).
Proof.
  assert (valid_instance 4 2) as Hv by in_range.
  split; [exact Hv|]. split; [lia|].
  apply (tables_answer_smaller_instances 4 2 false 5 Hv). lia.
Defined.

(** ** The histograms of check_policy *)

(** X12.  On the built tables, within the range in which no [int] of the
    program overflows, the reports of [check_policy] agree with each
    other.  The drop histogram [D] has [f + 1] cells, none at floor 0 and
    between 2 and [f + 1] drops at every other floor, and sums to the
    total number of drops.  The step histogram [H] has keys in
    [1 .. max_drops] only, one of them [max_drops]; over [0 .. max_drops],
    the range that [main] prints, its counts sum to the [f + 1] thresholds
    and, weighted by the key, to the total number of drops.  The mean lies
    between 1 and [max_drops]. *)
Theorem check_policy_histograms_agree (F E : Z) (tb : bool) (fuel : nat) :
  valid_instance F E -> F + 1 <= Z.of_nat fuel ->
  exists V A,
    build_tables fuel F E tb = Ok (V, A) /\
    forall f e d0 h0, 1 <= f <= F -> 1 <= e <= E -> f * (f + 1) <= int_max ->
      exists out d h,
        check_policy fuel f e V A (Some d0) (Some h0) = Ok out /\
        out_D out = Some d /\ out_H out = Some h /\
        f + 1 <= mean_num out <= max_drops out * (f + 1) /\
        Z.of_nat (length d) = f + 1 /\ d !! 0%nat = Some 0 /\
        (forall a, 1 <= a <= f ->
           exists c, d !! Z.to_nat a = Some c /\ 2 <= c <= f + 1) /\
        sumZ d = mean_num out /\
        (forall k c, h !! k = Some c -> 1 <= k <= max_drops out /\ 1 <= c <= f + 1) /\
        is_Some (h !! max_drops out) /\
        sumZ ((fun k => default 0 (h !! k)) <$> seqZ 0 (max_drops out + 1)) = f + 1 /\
        sumZ ((fun k => k * default 0 (h !! k)) <$> seqZ 0 (max_drops out + 1))
        = mean_num out.
Proof.
  intros [HF HE]%valid_instance_range Hfuel.
  destruct (build_tables_inv F E HF HE fuel tb Hfuel) as (V & A & Hb & Hinv).
  exists V, A. split; [done|]. intros f e d0 h0 Hf He Hsmall.
  destruct (finished_report F E fuel tb V A HF HE Hfuel Hinv f e d0 h0 Hf He Hsmall)
    as (out & d & h & Hc & _ & _ & _ & HD & HH & Hmean & Hlen & Hd0 & Hda & Hsum
        & Hkeys & Hmax & Hcount & Hweight).
  exists out, d, h. done.
Qed.

Lemma check_policy_histograms_agree_witness :
  valid_instance 4 2 /\ 4 + 1 <= Z.of_nat 5 /\
  exists V A,
    build_tables 5 4 2 false = Ok (V, A) /\
    forall f e d0 h0, 1 <= f <= 4 -> 1 <= e <= 2 -> f * (f + 1) <= int_max ->
      exists out d h,
        check_policy 5 f e V A (Some d0) (Some h0) = Ok out /\
        out_D out = Some d /\ out_H out = Some h /\
        f + 1 <= mean_num out <= max_drops out * (f + 1) /\
        Z.of_nat (length d) = f + 1 /\ d !! 0%nat = Some 0 /\
        (forall a, 1 <= a <= f ->
           exists c, d !! Z.to_nat a = Some c /\ 2 <= c <= f + 1) /\
        sumZ d = mean_num out /\
        (forall k c, h !! k = Some c -> 1 <= k <= max_drops out /\ 1 <= c <= f + 1) /\
        is_Some (h !! max_drops out) /\
        sumZ ((fun k => default 0 (h !! k)) <$> seqZ 0 (max_drops out + 1)) = f + 1 /\
        sumZ ((fun k => k * default 0 (h !! k)) <$> seqZ 0 (max_drops out + 1))
        = mean_num out.
Proof.
  assert (valid_instance 4 2) as Hv by in_range.
  split; [exact Hv|]. split; [lia|].
  apply (check_policy_histograms_agree 4 2 false 5 Hv). lia.
Defined.

(** ** print_all_admissible *)

Lemma zip_fmap_same {T U : Type} (g : T -> U) (l : list T) :
  zip l (g <$> l) = (fun x => (x, g x)) <$> l.
Proof. induction l as [|x l IH]; [done|]. simpl. f_equal. exact IH. Qed.

(** X13.  For the initial state of every egg level of the built tables
    [print_all_admissible] returns its report: the drops are all floors
    [1 .. F], or floor 1 alone with one egg; the least of the values is
    the stored value, and it is the value listed for the stored action;
    every mean is defined, with divisor [F + 1].  Without an action table
    the same drops and values are reported and no mean. *)
Theorem print_all_admissible_lists_floors (F E : Z) (tb : bool) (fuel : nat) :
  valid_instance F E -> F + 1 <= Z.of_nat fuel ->
  exists V A,
    build_tables fuel F E tb = Ok (V, A) /\
    forall e, 1 <= e <= E ->
      exists rep means v a,
        print_all_admissible fuel (mkState e 0 (F + 1)) V (Some A) = Ok rep /\
        rep_drops rep = (if decide (2 <= e) then seqZ 1 F else [1]) /\
        length (rep_values rep) = length (rep_drops rep) /\
        V !! mkState e 0 (F + 1) = Some v /\ min_of (rep_values rep) = Some v /\
        A !! mkState e 0 (F + 1) = Some a /\
        (a, v) ∈ zip (rep_drops rep) (rep_values rep) /\
        rep_means rep = Some means /\
        Forall2 (fun p m => total_policy_at fuel (mkState e 0 (F + 1)) p A = Ok m.1 /\
                            m.2 = F + 1) (rep_drops rep) means /\
        print_all_admissible fuel (mkState e 0 (F + 1)) V None
        = Ok (mkReport (rep_drops rep) (rep_values rep) None).
Proof.
  intros [HF HE]%valid_instance_range Hfuel.
  destruct (build_tables_inv F E HF HE fuel tb Hfuel) as (V & A & Hb & Hinv).
  exists V, A. split; [done|]. intros e He.
  set (s := mkState e 0 (F + 1)).
  assert (stored F E (E + 1) F (F + 1) s) as Hs.
  { unfold stored, in_table, s. simpl. lia. }
  assert (lb s + 2 <= ub s) as Hw by (simpl; lia).
  pose proof (stored_ready F E _ _ _ _ Hs Hw) as Hr.
  destruct (finished_print F E fuel tb V A HF HE Hfuel Hinv s Hs Hw) as (means & Hp & Hm).
  destruct (inv_A _ _ _ _ _ _ _ _ _ Hinv s Hs Hw) as (a & Ha & Hg & _).
  pose proof (finished_admissible F E fuel tb V A HF HE Hinv s Hs Hw) as Hfaa.
  pose proof (min_of_ready F E HF HE fuel tb _ _ _ V A s Hinv Hr) as Hmin.
  pose proof (find_admissible_actions_full s V ltac:(simpl; in_range)) as Hfull.
  rewrite Hfaa in Hfull. apply (f_equal snd) in Hfull. cbn [snd] in Hfull.
  rewrite <- Hfull in Hmin.
  eexists. exists means, (opt (eggs s) (ub s - lb s - 1)), a.
  split; [exact Hp|]. cbn [rep_drops rep_values rep_means].
  assert ((if decide (2 <= eggs s) then seqZ (lb s + 1) (ub s - lb s - 1) else [lb s + 1])
          = (if decide (2 <= e) then seqZ 1 F else [1])) as Hfl.
  { simpl. destruct (decide (2 <= e)); [|done]. f_equal. lia. }
  rewrite Hfl in *.
  split; [done|]. split; [by rewrite length_fmap|]. split.
  { rewrite (inv_V _ _ _ _ _ _ _ _ _ Hinv). by rewrite decide_True. }
  split; [done|]. split; [done|]. split.
  { rewrite zip_fmap_same. apply list_elem_of_fmap. exists a.
    destruct Hg as (Harange & Hadm & Hval). split.
    - f_equal. exact Hval.
    - simpl in Harange, Hadm. destruct (decide (2 <= e)).
      + apply elem_of_seqZ. lia.
      + apply list_elem_of_singleton. lia. }
  split; [done|]. split.
  { eapply Forall2_impl; [exact Hm|]. intros p m [Ht Hden]. split; [done|].
    rewrite Hden. simpl. lia. }
  unfold print_all_admissible. by rewrite Hfaa.
Qed.

Lemma print_all_admissible_lists_floors_witness :
  valid_instance 4 2 /\ 4 + 1 <= Z.of_nat 5 /\
  exists V A,
    build_tables 5 4 2 true = Ok (V, A) /\
    forall e, 1 <= e <= 2 ->
      exists rep means v a,
        print_all_admissible 5 (mkState e 0 (4 + 1)) V (Some A) = Ok rep /\
        rep_drops rep = (if decide (2 <= e) then seqZ 1 4 else [1]) /\
        length (rep_values rep) = length (rep_drops rep) /\
        V !! mkState e 0 (4 + 1) = Some v /\ min_of (rep_values rep) = Some v /\
        A !! mkState e 0 (4 + 1) = Some a /\
        (a, v) ∈ zip (rep_drops rep) (rep_values rep) /\
        rep_means rep = Some means /\
        Forall2 (fun p m => total_policy_at 5 (mkState e 0 (4 + 1)) p A = Ok m.1 /\
                            m.2 = 4 + 1) (rep_drops rep) means /\
        print_all_admissible 5 (mkState e 0 (4 + 1)) V None
        = Ok (mkReport (rep_drops rep) (rep_values rep) None).
Proof.
  assert (valid_instance 4 2) as Hv by in_range.
  split; [exact Hv|]. split; [lia|].
  apply (print_all_admissible_lists_floors 4 2 true 5 Hv). lia.
Defined.

(** ** The exit status of main *)

(** X14.  [main] returns 0 exactly for the command lines it accepts:
    [F] and [E] at least 1 and, when a fourth argument is given, the
    option [--tiebreak].  For such a call every lookup that [main] makes
    in its tables and vectors is defined and the verification of no egg
    level fails; every other call returns 1.  [F] is within the range in
    which no [int] of the program overflows. *)
Theorem main_exit_status (as_integer : string -> Z) (fuel : nat) (argv : list string)
    (prog a1 a2 : string) (rest : list string) :
  argv = prog :: a1 :: a2 :: rest ->
  as_integer a1 <= 46340 -> as_integer a2 < int_max ->
  as_integer a1 + 1 <= Z.of_nat fuel ->
  (1 <= as_integer a1 -> 1 <= as_integer a2 ->
   rest = [] \/ rest = ["--tiebreak"%string] ->
   main as_integer fuel argv = Ok 0) /\
  (as_integer a1 <= 0 \/ as_integer a2 <= 0 \/
   (rest <> [] /\ rest <> ["--tiebreak"%string]) ->
   main as_integer fuel argv = Ok 1) /\
  main as_integer fuel [prog] = Ok 1 /\
  main as_integer fuel [prog; a1] = Ok 1.
Proof.
  intros -> HF HE Hfuel. split; [|split; [|done]].
  - intros HF1 HE1 Hrest.
    apply (main_accepts as_integer fuel _ prog a1 a2
             (bool_decide (rest = ["--tiebreak"%string]))).
    + destruct Hrest as [-> | ->]; done.
    + in_range.
    + lia.
    + done.
  - intros Hbad.
    destruct (main_rejects as_integer fuel (prog :: a1 :: a2 :: rest) ltac:(done))
      as (Hargc & Hnum & Hopt).
    destruct rest as [|a3 [|a4 rest]].
    + destruct Hbad as [?|[?|[? _]]]; [| |done];
        apply (Hnum prog a1 a2 []); simpl; auto; lia.
    + destruct (decide (as_integer a1 <= 0 \/ as_integer a2 <= 0)) as [Hn|Hn].
      * apply (Hnum prog a1 a2 [a3]); simpl; auto.
      * apply (Hopt prog a1 a2 a3); [done|].
        destruct Hbad as [?|[?|[_ Hne]]]; [lia|lia|]. congruence.
    + apply Hargc; simpl; lia.
Qed.

Lemma main_exit_status_witness :
  ["dpegg"; "3"; "2"; "--tiebreak"]%string
  = ("dpegg" :: "3" :: "2" :: ["--tiebreak"])%string /\
  (fun s : string => if bool_decide (s = "3"%string) then 3 else 2) "3"%string <= 46340 /\
  (fun s : string => if bool_decide (s = "3"%string) then 3 else 2) "2"%string < int_max /\
  main (fun s : string => if bool_decide (s = "3"%string) then 3 else 2) 4
       ["dpegg"; "3"; "2"; "--tiebreak"]%string = Ok 0 /\
  main (fun s : string => if bool_decide (s = "3"%string) then 3 else 2) 4
       ["dpegg"]%string = Ok 1.
Proof.
  set (parse := fun s : string => if bool_decide (s = "3"%string) then 3 else 2).
  assert (parse "3"%string <= 46340) as HF by (by vm_compute).
  assert (parse "2"%string < int_max) as HE by (by vm_compute).
  split; [reflexivity|]. split; [exact HF|]. split; [exact HE|].
  destruct (main_exit_status parse 4 _ "dpegg" "3" "2" ["--tiebreak"%string]
              eq_refl HF HE ltac:(by vm_compute)) as (Hok & _ & Hone & _).
  split; [|exact Hone].
  apply Hok; [by vm_compute|by vm_compute|by right].
Defined.

(** ** The size of the tables *)

(** X15.  The built value table holds exactly the states [(e, l, u)]
    with [0 <= l < u <= F + 1] and [0 <= e <= E] that are terminal or
    have an egg, and the action table exactly those of them that are not
    terminal: [E F (F + 1) / 2] actions and [(E + 1) (F + 1)] values
    more, the sizes that [main] prints. *)
Theorem built_table_sizes (F E : Z) (tb : bool) (fuel : nat) :
  valid_instance F E -> F + 1 <= Z.of_nat fuel ->
  exists V A,
    build_tables fuel F E tb = Ok (V, A) /\
    (forall s, is_Some (V !! s) <->
       0 <= lb s /\ lb s < ub s /\ ub s <= F + 1 /\ 0 <= eggs s <= E /\
       (ub s = lb s + 1 \/ 1 <= eggs s)) /\
    (forall s, is_Some (A !! s) <-> is_Some (V !! s) /\ isterminal s = false) /\
    2 * Z.of_nat (size A) = E * (F * (F + 1)) /\
    Z.of_nat (size V) = (E + 1) * (F + 1) + Z.of_nat (size A).
Proof.
  intros [HF HE]%valid_instance_range Hfuel.
  destruct (build_tables_inv F E HF HE fuel tb Hfuel) as (V & A & Hb & Hinv).
  destruct (finished_domains F E fuel tb V A HF HE Hinv) as [HV HA].
  destruct (finished_sizes F E fuel tb V A HF HE Hinv) as [HsA HsV].
  exists V, A. split; [done|].
  assert (forall s, is_Some (V !! s) <->
            0 <= lb s /\ lb s < ub s /\ ub s <= F + 1 /\ 0 <= eggs s <= E /\
            (ub s = lb s + 1 \/ 1 <= eggs s)) as HV'.
  { intros s. rewrite HV, <- stored_keys by lia. unfold stored, in_table. lia. }
  split; [done|]. split; [|done].
  intros s. rewrite HA, HV', elem_of_inner_keys. split.
  - intros (He & Hl & Hu). split; [lia|]. unfold isterminal.
    rewrite wrap_small by in_range. destruct (Z.eqb_spec (ub s) (lb s + 1)); [lia|done].
  - intros [(Hl & Hlu & Hu & He & Hc) Ht].
    assert (ub s <> lb s + 1); [|lia]. intros Hw.
    assert (isterminal s = true); [|congruence].
    apply isterminal_spec; [lia|in_range|lia].
Qed.

Lemma built_table_sizes_witness :
  valid_instance 4 2 /\ 4 + 1 <= Z.of_nat 5 /\
  exists V A,
    build_tables 5 4 2 false = Ok (V, A) /\
    (forall s, is_Some (V !! s) <->
       0 <= lb s /\ lb s < ub s /\ ub s <= 4 + 1 /\ 0 <= eggs s <= 2 /\
       (ub s = lb s + 1 \/ 1 <= eggs s)) /\
    (forall s, is_Some (A !! s) <-> is_Some (V !! s) /\ isterminal s = false) /\
    2 * Z.of_nat (size A) = 2 * (4 * (4 + 1)) /\
    Z.of_nat (size V) = (2 + 1) * (4 + 1) + Z.of_nat (size A).
Proof.
  assert (valid_instance 4 2) as Hv by in_range.
  split; [exact Hv|]. split; [lia|].
  apply (built_table_sizes 4 2 false 5 Hv). lia.
Defined.

(** ** initialize_terminal_entries *)

(** X16.  [initialize_terminal_entries] keeps every entry that the table
    holds, whatever its value, and gives the value 0 to the states
    [(e, f, f + 1)] with [0 <= e <= E] and [0 <= f <= F] that it does not
    hold; it adds nothing else, so a second call changes nothing, and a
    call with a negative [E] or [F] changes nothing. *)
Theorem initialize_terminal_entries_keeps_entries (F E : Z) (V : gmap tState Z) :
  F < int_max -> E < int_max ->
  (forall s,
     initialize_terminal_entries F E V !! s =
     match V !! s with
     | Some x => Some x
     | None => if decide (0 <= eggs s <= E /\ 0 <= lb s <= F /\ ub s = lb s + 1)
               then Some 0 else None
     end) /\
  V ⊆ initialize_terminal_entries F E V /\
  initialize_terminal_entries F E (initialize_terminal_entries F E V)
  = initialize_terminal_entries F E V /\
  (F < 0 \/ E < 0 -> initialize_terminal_entries F E V = V).
Proof.
  intros HF HE.
  assert (F < 0 \/ E < 0 -> initialize_terminal_entries F E V = V) as Hneg.
  { unfold initialize_terminal_entries. intros [HF0|HE0].
    - rewrite (seqZ_nil 0 (F + 1)) by lia. simpl.
      induction (seqZ 0 (E + 1)) as [|e es IH]; [done|]. by simpl.
    - by rewrite (seqZ_nil 0 (E + 1)) by lia. }
  assert (forall s,
     initialize_terminal_entries F E V !! s =
     match V !! s with
     | Some x => Some x
     | None => if decide (0 <= eggs s <= E /\ 0 <= lb s <= F /\ ub s = lb s + 1)
               then Some 0 else None
     end) as Hlook.
  { intros s. destruct (Z.lt_ge_cases F 0) as [HF0|HF0].
    - rewrite Hneg by by left. destruct (V !! s); [done|].
      rewrite decide_False; [done|lia].
    - apply initialize_terminal_entries_lookup. lia. }
  split; [done|]. split; [|split; [|done]].
  - apply map_subseteq_spec. intros s x Hs. by rewrite Hlook, Hs.
  - destruct (Z.lt_ge_cases F 0) as [HF0|HF0].
    + by rewrite !Hneg by by left.
    + apply initialize_terminal_entries_twice. lia.
Qed.

Lemma initialize_terminal_entries_keeps_entries_witness :
  1 < int_max /\ 1 < int_max /\
  initialize_terminal_entries 1 1 {[mkState 1 0 1 := 7]} !! mkState 1 0 1 = Some 7 /\
  initialize_terminal_entries 1 1 {[mkState 1 0 1 := 7]} !! mkState 0 1 2 = Some 0 /\
  initialize_terminal_entries 1 1 {[mkState 1 0 1 := 7]} !! mkState 1 0 2 = None.
Proof.
  assert (1 < int_max) as H1 by in_range.
  destruct (initialize_terminal_entries_keeps_entries 1 1 {[mkState 1 0 1 := 7]} H1 H1)
    as (Hlook & _).
  split; [exact H1|]. split; [exact H1|].
  split; [|split]; rewrite Hlook; reflexivity.
Defined.

(** ** The counters of single_scan *)

(** X17.  After one scan of one level, started as [main] starts it with
    both counters at 0, [inserts] is the number of entries that the scan
    has added to [V], and the two counters together are at most the
    number of states of the level.  If both are 0, the scan has changed
    neither table: the test that ends the loop of [main] stops only at
    tables that a scan leaves as they are. *)
Theorem scan_counters_count_edits (fuel : nat) (F e : Z) (tb : bool)
    (V A : gmap tState Z) (st' : scan_st) :
  0 <= F -> (F + 1) * (F + 2) <= 2 * int_max ->
  single_scan fuel F e e (mkScan V A 0 0) tb = Ok st' ->
  0 <= inserts st' /\ 0 <= modifies st' /\
  2 * (inserts st' + modifies st') <= (F + 1) * (F + 2) /\
  Z.of_nat (size (tab_V st')) = Z.of_nat (size V) + inserts st' /\
  (inserts st' = 0 -> modifies st' = 0 -> tab_V st' = V /\ tab_A st' = A).
Proof.
  intros HF Hsmall Hscan.
  destruct (single_scan_counted fuel F e tb V A st' ltac:(in_range) Hscan)
    as (i & m & HN & Hi & Hm & Hs & He).
  rewrite wrap_small in Hi, Hm by in_range.
  rewrite Hi, Hm. split; [lia|]. split; [lia|]. split; [lia|]. split; [lia|].
  intros Hi0 Hm0. apply He; lia.
Qed.

Lemma scan_counters_count_edits_witness :
  0 <= 2 /\ (2 + 1) * (2 + 2) <= 2 * int_max /\
  single_scan 3 2 1 1 (mkScan (initialize_terminal_entries 2 1 ∅) ∅ 0 0) false
  = Ok (mkScan (<[mkState 1 0 3 := 2]> (<[mkState 1 0 2 := 1]>
                 (<[mkState 1 1 3 := 1]> (initialize_terminal_entries 2 1 ∅))))
               (<[mkState 1 0 3 := 1]> (<[mkState 1 0 2 := 1]>
                 (<[mkState 1 1 3 := 2]> ∅))) 3 0) /\
  Z.of_nat (size (<[mkState 1 0 3 := 2]> (<[mkState 1 0 2 := 1]>
                 (<[mkState 1 1 3 := 1]> (initialize_terminal_entries 2 1 ∅)))))
  = Z.of_nat (size (initialize_terminal_entries 2 1 ∅)) + 3.
Proof.
  assert (0 <= 2) as HF by lia.
  assert ((2 + 1) * (2 + 2) <= 2 * int_max) as Hs by in_range.
  assert (single_scan 3 2 1 1 (mkScan (initialize_terminal_entries 2 1 ∅) ∅ 0 0) false
          = Ok (mkScan (<[mkState 1 0 3 := 2]> (<[mkState 1 0 2 := 1]>
                         (<[mkState 1 1 3 := 1]> (initialize_terminal_entries 2 1 ∅))))
                       (<[mkState 1 0 3 := 1]> (<[mkState 1 0 2 := 1]>
                         (<[mkState 1 1 3 := 2]> ∅))) 3 0)) as Hscan by (by vm_compute).
  split; [exact HF|]. split; [exact Hs|]. split; [exact Hscan|].
  destruct (scan_counters_count_edits 3 2 1 false _ _ _ HF Hs Hscan)
    as (_ & _ & _ & Hsize & _).
  exact Hsize.
Defined.

(** ** histogram_to_string *)

(** X18.  [histogram_to_string] writes one cell per key from [kmin] to
    [kmax], in order, each the decimal count followed by a space: the
    string is empty when [kmax < kmin], the string of a range is the
    string of its lower part followed by that of its upper part, and a
    key that the map does not hold is written like a key holding 0. *)
Theorem histogram_to_string_cells (H H' : gmap Z Z) (kmin k kmax : Z) :
  kmax < int_max ->
  (kmax < kmin -> histogram_to_string H kmin kmax = ""%string) /\
  histogram_to_string H k k = (pretty (default 0 (H !! k)) +:+ " ")%string /\
  (kmin - 1 <= k <= kmax ->
   histogram_to_string H kmin kmax
   = (histogram_to_string H kmin k +:+ histogram_to_string H (k + 1) kmax)%string) /\
  ((forall j, kmin <= j <= kmax -> default 0 (H !! j) = default 0 (H' !! j)) ->
   histogram_to_string H kmin kmax = histogram_to_string H' kmin kmax).
Proof.
  intros _. unfold histogram_to_string. split; [|split; [|split]].
  - intros Hk. by rewrite seqZ_nil by lia.
  - replace (k - k + 1) with 1 by lia. change (seqZ k 1) with [k].
    simpl. by destruct (H !! k).
  - intros Hk. replace (kmax - kmin + 1) with ((k - kmin + 1) + (kmax - (k + 1) + 1)) by lia.
    rewrite seqZ_app by lia. rewrite histogram_loop_cat.
    by replace (kmin + (k - kmin + 1)) with (k + 1) by lia.
  - intros Hext. apply histogram_loop_ext. intros j Hj. apply elem_of_seqZ in Hj.
    apply Hext. lia.
Qed.

Lemma histogram_to_string_cells_witness :
  3 < int_max /\
  histogram_to_string {[1 := 2; 3 := 12]} 0 3 = "0 2 0 12 "%string /\
  histogram_to_string {[1 := 2; 3 := 12]} 0 3
  = (histogram_to_string {[1 := 2; 3 := 12]} 0 1
     +:+ histogram_to_string {[1 := 2; 3 := 12]} (1 + 1) 3)%string.
Proof.
  assert (3 < int_max) as Hk by in_range.
  destruct (histogram_to_string_cells {[1 := 2; 3 := 12]} ∅ 0 1 3 Hk) as (_ & _ & Hcat & _).
  split; [exact Hk|]. split; [by vm_compute|].
  apply Hcat. lia.
Defined.

(** ** Admissible actions and failed states *)

(** X19.  No state is both terminal and failed.  At every non-terminal
    state of the built value table the admissible actions, as
    [find_admissible_actions] lists them without the early exit, are
    exactly the floors strictly inside the interval from which no
    threshold of the interval leads to a failed state. *)
Theorem admissible_iff_no_failed_successor (F E : Z) (tb : bool) (fuel : nat) :
  valid_instance F E -> F + 1 <= Z.of_nat fuel ->
  (forall s, isterminal s = true -> isfailed s = false) /\
  exists V A,
    build_tables fuel F E tb = Ok (V, A) /\
    forall s v a, V !! s = Some v -> isterminal s = false ->
      (a ∈ (find_admissible_actions s V [] [] false).1 <->
       lb s < a < ub s /\
       forall f, lb s <= f < ub s -> isfailed (next s a f) = false).
Proof.
  intros [HF HE]%valid_instance_range Hfuel. split; [apply terminal_not_failed|].
  destruct (build_tables_inv F E HF HE fuel tb Hfuel) as (V & A & Hb & Hinv).
  exists V, A. split; [done|]. intros s v a HV Hnt.
  destruct (finished_lookup_inv F E fuel tb V A Hinv s v HV) as [Hs _].
  assert (lb s + 2 <= ub s) as Hw.
  { destruct (decide (ub s = lb s + 1)) as [Hw|Hw].
    - rewrite (stored_terminal F E HF _ _ _ _ Hs Hw) in Hnt. done.
    - destruct Hs as [(? & ? & ? & ?) _]. lia. }
  pose proof (stored_ready F E _ _ _ _ Hs Hw) as Hr.
  pose proof Hr as ((Hl & Hlu & Hu & He) & He1 & _).
  rewrite (finished_admissible F E fuel tb V A HF HE Hinv s Hs Hw). cbn [fst].
  assert (forall f, lb s < a < ub s ->
            next s a f = if f <? a then mkState (eggs s - 1) (lb s) a
                         else mkState (eggs s) a (ub s)) as Hnext.
  { intros f Ha. rewrite next_cases by done.
    by rewrite (wrap_small (eggs s - 1)) by in_range. }
  assert (a ∈ (if decide (2 <= eggs s) then seqZ (lb s + 1) (ub s - lb s - 1)
               else [lb s + 1])
          <-> lb s < a < ub s /\ (2 <= eggs s \/ a = lb s + 1)) as ->.
  { destruct (decide (2 <= eggs s)).
    - rewrite elem_of_seqZ. lia.
    - rewrite list_elem_of_singleton. lia. }
  split.
  - intros [Ha Hadm]. split; [done|]. intros f Hf. rewrite (Hnext f Ha).
    destruct (f <? a).
    + destruct (isfailed _) eqn:Hfail; [|done].
      apply isfailed_spec in Hfail; simpl in *; [lia|in_range|in_range].
    + destruct (isfailed _) eqn:Hfail; [|done].
      apply isfailed_spec in Hfail; simpl in *; [lia|in_range|in_range].
  - intros [Ha Hall]. split; [done|].
    specialize (Hall (lb s) ltac:(lia)). rewrite (Hnext _ Ha) in Hall.
    destruct (Z.ltb_spec (lb s) a); [|lia].
    destruct (decide (2 <= eggs s \/ a = lb s + 1)) as [|Hbad]; [done|].
    assert (isfailed (mkState (eggs s - 1) (lb s) a) = true); [|congruence].
    apply isfailed_spec; simpl; [in_range|in_range|lia].
Qed.

Lemma admissible_iff_no_failed_successor_witness :
  valid_instance 4 2 /\ 4 + 1 <= Z.of_nat 5 /\
  (forall s, isterminal s = true -> isfailed s = false) /\
  exists V A,
    build_tables 5 4 2 false = Ok (V, A) /\
    forall s v a, V !! s = Some v -> isterminal s = false ->
      (a ∈ (find_admissible_actions s V [] [] false).1 <->
       lb s < a < ub s /\
       forall f, lb s <= f < ub s -> isfailed (next s a f) = false).
Proof.
  assert (valid_instance 4 2) as Hv by in_range.
  split; [exact Hv|]. split; [lia|].
  apply (admissible_iff_no_failed_successor 4 2 false 5 Hv). lia.
Defined.
